(** * Clover-Edition: the generation-control engine of [gpt2generator.py]

    A shallow embedding of the functions of [gpt2generator.py]
    ([top_k_top_p_filtering], [sample_sequence],
    [truncate_multiple_sequences] and the methods [prompt_replace],
    [result_replace], [generate_raw] and [generate] of [GPT2Generator])
    together with the properties stated about them.

    Conventions of the embedding:
    - a token is a natural number (an index into the vocabulary);
    - a score is a rational number or the sentinel [-inf]; arithmetic on
      scores is exact, so rounding of floating point numbers is not part
      of the model;
    - a Python exception is a value [Raise e] of the type [result];
    - Python list objects that are mutated in place live in an explicit
      heap and are named by references. *)

From Stdlib Require Import String Ascii DecimalString.
From Stdlib Require Import List ZArith Lia Bool Arith.
From Stdlib Require Import QArith Qround Qpower Lqa Permutation Sorted Relations.
From Equations Require Import Equations.
Import ListNotations.

Local Open Scope nat_scope.

(** ** Exceptions and results *)

Inductive exn : Type :=
| IndexError
| RuntimeError
| UnboundLocalError.

Inductive result (A : Type) : Type :=
| Ok (a : A)
| Raise (e : exn).
Arguments Ok {A} a.
Arguments Raise {A} e.

Definition bind {A B : Type} (r : result A) (k : A -> result B) : result B :=
  match r with
  | Ok a => k a
  | Raise e => Raise e
  end.

Notation "'let*' x ':=' r 'in' k" := (bind r (fun x => k))
  (at level 10, x name, r at level 100, k at level 200).

Definition token := nat.

(** Case analysis on a value that keeps the equation, for definitions by
    well-founded recursion. *)
Definition inspect {A : Type} (x : A) : { y : A | x = y } := exist _ x eq_refl.

(** ** Generic list helpers *)

(** [l[i] = v] on a Python list or a tensor row, for [i] in range. *)
Fixpoint set_nth {A : Type} (i : nat) (v : A) (l : list A) : list A :=
  match l, i with
  | [], _ => []
  | _ :: l', O => v :: l'
  | x :: l', S i' => x :: set_nth i' v l'
  end.

Lemma set_nth_length {A} i (v : A) l : length (set_nth i v l) = length l.
Proof.
  revert i; induction l as [|x l IH]; intros [|i]; simpl; auto.
Qed.

Lemma nth_set_nth_eq {A} i (v d : A) l :
  i < length l -> nth i (set_nth i v l) d = v.
Proof.
  revert i; induction l as [|x l IH]; intros [|i] H; simpl in *; try lia; auto.
  apply IH; lia.
Qed.

Lemma nth_set_nth_neq {A} i j (v d : A) l :
  i <> j -> nth j (set_nth i v l) d = nth j l d.
Proof.
  revert i j; induction l as [|x l IH]; intros [|i] [|j] H; simpl; auto; try lia.
Qed.

Lemma nth_map_in {A B} (f : A -> B) l i (d : A) (d' : B) :
  i < length l -> nth i (map f l) d' = f (nth i l d).
Proof.
  revert i; induction l as [|x l IH]; intros [|i] H; simpl in *; try lia; auto.
  apply IH; lia.
Qed.

(** A stable insertion sort.  [before y x = true] says that [y] has to
    come strictly before [x]; an element is moved only past the elements
    that have to come before it, so elements that compare equal keep the
    order of the input.  This is the result of Python's [sorted], which is
    stable (also with [reverse=True]). *)
Section StableSort.
Context {A : Type} (before : A -> A -> bool).

Fixpoint insert_sorted (x : A) (l : list A) : list A :=
  match l with
  | [] => [x]
  | y :: l' => if before y x then y :: insert_sorted x l' else x :: l
  end.

Definition stable_sort (l : list A) : list A :=
  fold_right insert_sorted [] l.

Lemma insert_sorted_perm x l : Permutation (x :: l) (insert_sorted x l).
Proof.
  induction l as [|y l IH]; simpl; auto.
  destruct (before y x); auto.
  rewrite perm_swap. constructor. exact IH.
Qed.

Lemma stable_sort_perm l : Permutation l (stable_sort l).
Proof.
  induction l as [|x l IH]; simpl; auto.
  rewrite <- insert_sorted_perm. constructor. exact IH.
Qed.

Lemma stable_sort_length l : length (stable_sort l) = length l.
Proof. symmetry. apply Permutation_length, stable_sort_perm. Qed.

(** The head of the sorted list: the new element, unless the old head
    has to come before it. *)
Lemma insert_sorted_head x l :
  hd_error (insert_sorted x l) =
  match hd_error l with
  | Some y => if before y x then Some y else Some x
  | None => Some x
  end.
Proof.
  destruct l as [|y l]; simpl; auto. destruct (before y x); auto.
Qed.

(** The result is sorted for every transitive relation [R] that
    [before] decides. *)
Section Sorted.
Variable R : A -> A -> Prop.
Hypothesis R_trans : forall x y z, R x y -> R y z -> R x z.
Hypothesis before_true : forall x y, before y x = true -> R y x.
Hypothesis before_false : forall x y, before y x = false -> R x y.

Lemma insert_sorted_sorted x l :
  StronglySorted R l -> StronglySorted R (insert_sorted x l).
Proof.
  induction 1 as [|y l Hs IH Hy]; simpl.
  - constructor; constructor.
  - destruct (before y x) eqn:E.
    + constructor; auto.
      eapply Permutation_Forall; [apply insert_sorted_perm|].
      constructor; auto.
    + constructor; [constructor; auto|].
      constructor; auto.
      eapply Forall_impl; [|exact Hy]. intros z Hz. eauto.
Qed.

Lemma stable_sort_sorted l : StronglySorted R (stable_sort l).
Proof.
  induction l as [|x l IH]; simpl; [constructor|].
  now apply insert_sorted_sorted.
Qed.
End Sorted.
End StableSort.

(** Counting the elements of a list that pass a test. *)
Definition count {A : Type} (f : A -> bool) (l : list A) : nat :=
  length (filter f l).

Lemma count_app {A} (f : A -> bool) l1 l2 :
  count f (l1 ++ l2) = count f l1 + count f l2.
Proof. unfold count. now rewrite filter_app, length_app. Qed.

Lemma count_perm {A} (f : A -> bool) l1 l2 :
  Permutation l1 l2 -> count f l1 = count f l2.
Proof.
  unfold count.
  induction 1 as [|x l l' _ IH|x y l|l l' l'' _ IH1 _ IH2]; simpl; auto.
  - destruct (f x); simpl; auto.
  - destruct (f x), (f y); simpl; auto.
  - congruence.
Qed.

Lemma count_all {A} (f : A -> bool) l :
  Forall (fun x => f x = true) l -> count f l = length l.
Proof.
  unfold count. induction 1 as [|x l Hx _ IH]; simpl; auto.
  rewrite Hx. simpl. now rewrite IH.
Qed.

Lemma count_none {A} (f : A -> bool) l :
  Forall (fun x => f x = false) l -> count f l = 0.
Proof.
  unfold count. induction 1 as [|x l Hx _ IH]; simpl; auto.
  now rewrite Hx.
Qed.

Lemma count_map {A B} (g : A -> B) (f : B -> bool) l :
  count f (map g l) = count (fun x => f (g x)) l.
Proof.
  unfold count. induction l as [|x l IH]; simpl; auto.
  destruct (f (g x)); simpl; auto.
Qed.

Lemma count_ext_in {A} (f g : A -> bool) l :
  Forall (fun x => f x = g x) l -> count f l = count g l.
Proof.
  unfold count. induction 1 as [|x l Hx _ IH]; simpl; auto.
  rewrite Hx. destruct (g x); simpl; auto.
Qed.

(** ** [truncate_multiple_sequences] *)

Module Truncate.

(** The segments are Python lists, mutated in place by [pop(0)].  The
    heap gives the contents of every list object; [seqs] is the list of
    references the function receives (the same object may occur more
    than once).  A reference outside the heap reads as the empty list. *)
Definition ref := nat.
Definition heap := list (list token).

Definition deref (h : heap) (r : ref) : list token := nth r h [].

(** [len(s)] *)
Definition len (h : heap) (r : ref) : nat := List.length (deref h r).

(** [sum(len(s) for s in seqs)] *)
Definition total (h : heap) (seqs : list ref) : nat :=
  list_sum (map (len h) seqs).

(** [sorted(seqs, key=len, reverse=True)]: longer segments first, equal
    lengths in the order of [seqs]. *)
Definition sorted_by_len_desc (h : heap) (seqs : list ref) : list ref :=
  stable_sort (fun y x => len h x <? len h y) seqs.

(** What one evaluation of the loop condition and body does. *)
Inductive iteration : Type :=
| Exit                 (* the condition is false *)
| Raised (e : exn)     (* [sorted(...)[0]] or [longest.pop(0)] raised *)
| Next (h' : heap).    (* the body ran; the heap after it *)

Definition loop_body (h : heap) (seqs : list ref) (max_len : Z) : iteration :=
  if (Z.of_nat (total h seqs) >? max_len)%Z then
    match sorted_by_len_desc h seqs with
    | [] => Raised IndexError
    | longest :: _ =>
        match deref h longest with
        | [] => Raised IndexError
        | _ :: rest => Next (set_nth longest rest h)
        end
    end
  else Exit.

Lemma len_set_nth_same h r rest x :
  deref h r = x :: rest -> len (set_nth r rest h) r = len h r - 1.
Proof.
  unfold len, deref. intros E.
  assert (r < List.length h).
  { destruct (Nat.lt_ge_cases r (List.length h)) as [|G]; auto.
    rewrite nth_overflow in E by exact G. discriminate. }
  rewrite nth_set_nth_eq by assumption. rewrite E. simpl. lia.
Qed.

Lemma len_set_nth_other h r rest r' :
  r <> r' -> len (set_nth r rest h) r' = len h r'.
Proof. unfold len, deref. intros. now rewrite nth_set_nth_neq. Qed.

Lemma total_pop h r rest x seqs :
  deref h r = x :: rest -> In r seqs ->
  total (set_nth r rest h) seqs < total h seqs.
Proof.
  intros E. unfold total.
  assert (Hle : forall l, list_sum (map (len (set_nth r rest h)) l)
                          <= list_sum (map (len h) l)).
  { induction l as [|a l IH]; simpl; auto.
    destruct (Nat.eq_dec r a) as [<-|N].
    - rewrite (len_set_nth_same _ _ _ _ E). lia.
    - rewrite len_set_nth_other by exact N. lia. }
  induction seqs as [|a l IH]; simpl; [tauto|].
  intros [->|Hin].
  - rewrite (len_set_nth_same _ _ _ _ E).
    assert (len h r = S (List.length rest)) by (unfold len; now rewrite E).
    specialize (Hle l). lia.
  - specialize (IH Hin).
    destruct (Nat.eq_dec r a) as [<-|N].
    + rewrite (len_set_nth_same _ _ _ _ E). lia.
    + rewrite len_set_nth_other by exact N. lia.
Qed.

Lemma loop_body_decreases h seqs max_len h' :
  loop_body h seqs max_len = Next h' -> total h' seqs < total h seqs.
Proof.
  unfold loop_body.
  destruct (_ >? _)%Z; [|discriminate].
  destruct (sorted_by_len_desc h seqs) as [|r l] eqn:Es; [discriminate|].
  destruct (deref h r) as [|x rest] eqn:Ed; [discriminate|].
  intros [= <-]. apply (total_pop h r rest x); auto.
  unfold sorted_by_len_desc in Es.
  eapply Permutation_in; [apply Permutation_sym, stable_sort_perm|].
  rewrite Es. now left.
Qed.

(** The [while] loop.  The function returns [None] or raises; in both
    cases the caller keeps the heap as the loop left it. *)
Equations? truncate_multiple_sequences (h : heap) (seqs : list ref) (max_len : Z)
  : heap * result unit by wf (total h seqs) lt :=
  truncate_multiple_sequences h seqs max_len with inspect (loop_body h seqs max_len) := {
    | exist _ Exit _ => (h, Ok tt)
    | exist _ (Raised e) _ => (h, Raise e)
    | exist _ (Next h') E => truncate_multiple_sequences h' seqs max_len }.
Proof. eapply loop_body_decreases; eauto. Qed.

(** The loop, unfolded once. *)
Lemma truncate_multiple_sequences_once h seqs max_len :
  truncate_multiple_sequences h seqs max_len =
  match loop_body h seqs max_len with
  | Exit => (h, Ok tt)
  | Raised e => (h, Raise e)
  | Next h' => truncate_multiple_sequences h' seqs max_len
  end.
Proof.
  funelim (truncate_multiple_sequences h seqs max_len);
    match goal with E : loop_body _ _ _ = _ |- _ => rewrite E end;
    reflexivity.
Qed.

(** Induction along the iterations of the loop. *)
Lemma loop_induction (seqs : list ref) (max_len : Z) (P : heap -> Prop) :
  (forall h, (forall h', loop_body h seqs max_len = Next h' -> P h') -> P h) ->
  forall h, P h.
Proof.
  intros Hstep h.
  remember (total h seqs) as n eqn:En. revert h En.
  induction n as [n IH] using lt_wf_ind. intros h ->.
  apply Hstep. intros h' Hn.
  apply (IH (total h' seqs)); auto.
  eapply loop_body_decreases; eauto.
Qed.

(** The caller's view when no list object is shared: the segments are
    the objects [0 .. n-1] of the heap, in order. *)
Definition truncate_segments (segs : list (list token)) (max_len : Z)
  : list (list token) * result unit :=
  truncate_multiple_sequences segs (seq 0 (List.length segs)) max_len.

(** *** Specification vocabulary *)

(** [a] is what is left of [b] after tokens were dropped from its front. *)
Definition suffix_of (a b : list token) : Prop :=
  exists dropped, b = dropped ++ a.

(** One step as the specification words it: the longest segment, the
    first one among equally long segments, loses its first token. *)
Definition shortens_first_longest (seqs : list ref) (h h' : heap) : Prop :=
  exists i r x rest,
    nth_error seqs i = Some r /\
    (forall j r', nth_error seqs j = Some r' -> len h r' <= len h r) /\
    (forall j r', j < i -> nth_error seqs j = Some r' -> len h r' < len h r) /\
    deref h r = x :: rest /\
    h' = set_nth r rest h.

(** *** Facts about one iteration *)

Lemma sorted_head_first_longest h seqs r :
  hd_error (sorted_by_len_desc h seqs) = Some r ->
  exists i,
    nth_error seqs i = Some r /\
    (forall j r', nth_error seqs j = Some r' -> len h r' <= len h r) /\
    (forall j r', j < i -> nth_error seqs j = Some r' -> len h r' < len h r).
Proof.
  unfold sorted_by_len_desc. revert r.
  induction seqs as [|a l IH]; intros r; simpl; [discriminate|].
  rewrite insert_sorted_head.
  destruct (hd_error (stable_sort _ l)) as [y|] eqn:Ey.
  - destruct (IH y eq_refl) as (i & Hi & Hmax & Hfirst).
    destruct (len h a <? len h y) eqn:Hlt; intros [= <-].
    + apply Nat.ltb_lt in Hlt. exists (S i). repeat split; auto.
      * intros [|j] r'; simpl; [intros [= <-]; lia | apply Hmax].
      * intros [|j] r' Hj; simpl; [intros [= <-]; lia | apply Hfirst; lia].
    + apply Nat.ltb_ge in Hlt. exists 0. repeat split; auto.
      * intros [|j] r'; simpl; [intros [= <-]; lia |].
        intros Hr'. specialize (Hmax _ _ Hr'). lia.
      * intros j r' Hj; lia.
  - intros [= <-]. exists 0.
    assert (l = []) as ->.
    { destruct l as [|b l]; auto.
      pose proof (stable_sort_length (fun y x => len h x <? len h y) (b :: l)) as HL.
      destruct (stable_sort _ (b :: l)); simpl in *; [lia | discriminate]. }
    repeat split; auto.
    + intros [|[|j]] r'; simpl; try discriminate. intros [= <-]; lia.
    + intros j r' Hj; lia.
Qed.

Lemma loop_body_exit h seqs max_len :
  loop_body h seqs max_len = Exit -> (Z.of_nat (total h seqs) <= max_len)%Z.
Proof.
  unfold loop_body. destruct (_ >? _)%Z eqn:C.
  - destruct (sorted_by_len_desc h seqs) as [|r l]; [discriminate|].
    destruct (deref h r); discriminate.
  - intros _. lia.
Qed.

Lemma total_zero h seqs :
  (forall r, In r seqs -> len h r = 0) -> total h seqs = 0.
Proof.
  unfold total. induction seqs as [|a l IH]; simpl; auto.
  intros H. rewrite (H a) by now left. rewrite IH; auto.
Qed.

Lemma loop_body_raised h seqs max_len e :
  loop_body h seqs max_len = Raised e ->
  e = IndexError /\ (max_len < 0)%Z /\ (forall r, In r seqs -> deref h r = []).
Proof.
  unfold loop_body. destruct (_ >? _)%Z eqn:C; [|discriminate].
  assert (Hall : (forall r, In r seqs -> deref h r = []) ->
                 e = IndexError -> e = IndexError /\ (max_len < 0)%Z /\
                 (forall r, In r seqs -> deref h r = [])).
  { intros Hall He. repeat split; auto.
    rewrite total_zero in C; [apply Z.gtb_lt in C; lia|].
    intros r Hr. unfold len. now rewrite Hall. }
  destruct (sorted_by_len_desc h seqs) as [|r l] eqn:Es.
  - intros [= <-]. apply Hall; auto.
    assert (seqs = []) as ->; [|intros r []].
    unfold sorted_by_len_desc in Es.
    apply (f_equal (@List.length _)) in Es. rewrite stable_sort_length in Es.
    destruct seqs; [reflexivity | discriminate].
  - destruct (deref h r) as [|x rest] eqn:Ed; [|discriminate].
    intros [= <-]. apply Hall; auto.
    destruct (sorted_head_first_longest h seqs r) as (i & _ & Hmax & _).
    { now rewrite Es. }
    intros r' Hr'. apply In_nth_error in Hr'. destruct Hr' as [j Hj].
    specialize (Hmax _ _ Hj). unfold len in Hmax. rewrite Ed in Hmax.
    simpl in Hmax. destruct (deref h r'); [reflexivity | simpl in Hmax; lia].
Qed.

Lemma loop_body_next h seqs max_len h' :
  loop_body h seqs max_len = Next h' -> shortens_first_longest seqs h h'.
Proof.
  unfold loop_body. destruct (_ >? _)%Z; [|discriminate].
  destruct (sorted_by_len_desc h seqs) as [|r l] eqn:Es; [discriminate|].
  destruct (deref h r) as [|x rest] eqn:Ed; [discriminate|].
  intros [= <-].
  destruct (sorted_head_first_longest h seqs r) as (i & Hi & Hmax & Hfirst).
  { now rewrite Es. }
  exists i, r, x, rest. auto.
Qed.

Lemma shortens_suffix seqs h h' :
  shortens_first_longest seqs h h' ->
  forall r, suffix_of (deref h' r) (deref h r).
Proof.
  intros (i & r0 & x & rest & _ & _ & _ & Ed & ->) r.
  destruct (Nat.eq_dec r0 r) as [<-|N].
  - exists [x]. unfold deref in *. rewrite nth_set_nth_eq; [now rewrite Ed|].
    destruct (Nat.lt_ge_cases r0 (List.length h)) as [|G]; auto.
    rewrite nth_overflow in Ed by exact G. discriminate.
  - exists []. unfold deref. now rewrite nth_set_nth_neq.
Qed.

Lemma suffix_of_trans a b c : suffix_of a b -> suffix_of b c -> suffix_of a c.
Proof.
  intros [d1 ->] [d2 ->]. exists (d2 ++ d1). now rewrite app_assoc.
Qed.

Lemma Forall2_suffix_of_step (f g k : ref -> list token) (l : list ref) :
  Forall2 suffix_of (map f l) (map g l) ->
  (forall r, suffix_of (g r) (k r)) ->
  Forall2 suffix_of (map f l) (map k l).
Proof.
  intros HF Hp. induction l as [|a l IH]; simpl in *; [constructor|].
  inversion HF; subst. constructor; auto.
  eapply suffix_of_trans; eauto.
Qed.

(** *** How much is removed, and from which segments *)

Lemma loop_body_next_over h seqs max_len h' :
  loop_body h seqs max_len = Next h' -> (max_len < Z.of_nat (total h seqs))%Z.
Proof.
unfold loop_body. destruct (_ >? _)%Z eqn:C; [|discriminate].
intros _. now apply Z.gtb_lt in C.
Qed.

(** A segment that occurs once in [seqs] makes the sum one smaller when
    it loses a token. *)
Lemma total_pop_once h r rest x seqs :
  deref h r = x :: rest -> In r seqs -> NoDup seqs ->
  S (total (set_nth r rest h) seqs) = total h seqs.
Proof.
intros E Hin Hnd. unfold total.
assert (Hsame : forall l, ~ In r l ->
          list_sum (map (len (set_nth r rest h)) l) = list_sum (map (len h) l)).
{ induction l as [|a l IH]; simpl; auto. intros Hn.
  rewrite len_set_nth_other by (intros ->; apply Hn; now left).
  rewrite IH; auto. }
induction Hnd as [|a l Ha Hnd IH]; [destruct Hin|]. simpl.
destruct Hin as [->|Hin].
- rewrite (len_set_nth_same _ _ _ _ E), Hsame by exact Ha.
  assert (len h r = S (List.length rest)) by (unfold len; now rewrite E). lia.
- rewrite len_set_nth_other by (intros ->; contradiction).
  specialize (IH Hin). lia.
Qed.

Lemma len_set_nth_le h r rest x r' :
  deref h r = x :: rest -> len (set_nth r rest h) r' <= len h r'.
Proof.
intros E. destruct (Nat.eq_dec r r') as [<-|N].
- rewrite (len_set_nth_same _ _ _ _ E). lia.
- rewrite len_set_nth_other by exact N. lia.
Qed.

(** Every segment that has lost a token since [h0] is at most one token
    shorter than any segment. *)
Definition shortened_are_longest (seqs : list ref) (h0 h : heap) : Prop :=
  forall r r', In r seqs -> In r' seqs ->
    len h r < len h0 r -> len h r' <= len h r + 1.

Lemma shortened_are_longest_step seqs h0 h h' :
  shortens_first_longest seqs h h' ->
  shortened_are_longest seqs h0 h -> shortened_are_longest seqs h0 h'.
Proof.
intros (i & r0 & x & rest & Hi & Hmax & _ & Ed & ->) Hinv r r' Hr Hr' Hshort.
pose proof (len_set_nth_le h r0 rest x r' Ed) as Hle.
destruct (Nat.eq_dec r0 r) as [<-|N].
- rewrite (len_set_nth_same _ _ _ _ Ed).
  apply In_nth_error in Hr'. destruct Hr' as [j Hj].
  specialize (Hmax _ _ Hj).
  assert (len h r0 = S (List.length rest)) by (unfold len; now rewrite Ed). lia.
- rewrite (len_set_nth_other h r0 rest r N) in Hshort |- *.
  specialize (Hinv r r' Hr Hr' Hshort). lia.
Qed.

Lemma truncate_keeps_shortened_longest seqs max_len h0 : forall h,
  shortened_are_longest seqs h0 h ->
  shortened_are_longest seqs h0 (fst (truncate_multiple_sequences h seqs max_len)).
Proof.
apply (loop_induction seqs max_len
         (fun h => shortened_are_longest seqs h0 h ->
                   shortened_are_longest seqs h0
                     (fst (truncate_multiple_sequences h seqs max_len)))).
intros h IH Hinv.
rewrite truncate_multiple_sequences_once.
destruct (loop_body h seqs max_len) as [|e|h1] eqn:E.
- exact Hinv.
- exact Hinv.
- apply (IH h1 eq_refl).
  eapply shortened_are_longest_step; [|exact Hinv].
  eapply loop_body_next; eauto.
Qed.

End Truncate.

(** ** Scores *)

Module Scores.

(** An entry of a score vector: a finite value, or [-float("Inf")], the
    [filter_value] that marks a token as never selectable. *)
Inductive score : Type :=
| NegInf
| Fin (q : Q).

Definition is_fin (s : score) : bool :=
  match s with NegInf => false | Fin _ => true end.

(** [a < b] *)
Definition ltb (a b : score) : bool :=
  match a, b with
  | _, NegInf => false
  | NegInf, Fin _ => true
  | Fin x, Fin y => negb (Qle_bool y x)
  end.

(** [a <= b] *)
Definition leb (a b : score) : bool := negb (ltb b a).

(** [a == b]: the same number. *)
Definition eqb (a b : score) : bool := leb a b && leb b a.

(** [s / d] for a positive divisor [d]. *)
Definition div (s : score) (d : Q) : score :=
  match s with
  | NegInf => NegInf
  | Fin q => Fin (q / d)
  end.

Lemma ltb_irrefl a : ltb a a = false.
Proof.
  destruct a as [|x]; simpl; auto.
  apply negb_false_iff, Qle_bool_iff, Qle_refl.
Qed.

Lemma leb_refl a : leb a a = true.
Proof. unfold leb. now rewrite ltb_irrefl. Qed.

Lemma leb_trans a b c : leb a b = true -> leb b c = true -> leb a c = true.
Proof.
  unfold leb.
  destruct a as [|x], b as [|y], c as [|z]; simpl; auto; try discriminate.
  rewrite !negb_involutive, !Qle_bool_iff. intros; lra.
Qed.

Lemma leb_total a b : leb a b = true \/ leb b a = true.
Proof.
  unfold leb.
  destruct a as [|x], b as [|y]; simpl; auto.
  rewrite !negb_involutive, !Qle_bool_iff.
  destruct (Qlt_le_dec x y); [left|right]; lra.
Qed.

Lemma ltb_leb a b : ltb a b = true -> leb a b = true.
Proof.
  intros H. destruct (leb_total a b) as [|H']; auto.
  unfold leb in H'. rewrite H in H'. discriminate.
Qed.

Lemma leb_ltb_trans a b c : leb a b = true -> ltb b c = true -> ltb a c = true.
Proof.
  unfold leb.
  destruct a as [|x], b as [|y], c as [|z]; simpl; auto; try discriminate.
  rewrite !negb_involutive, !negb_true_iff, <- !not_true_iff_false, !Qle_bool_iff.
  intros H1 H2 H3. apply Qnot_le_lt in H2. lra.
Qed.

End Scores.

(** ** [top_k_top_p_filtering] *)

(** [[f(x) for x in l]] where [f] may raise. *)
Fixpoint mapM {A B : Type} (f : A -> result B) (l : list A) : result (list B) :=
  match l with
  | [] => Ok []
  | x :: l' =>
      let* y := f x in
      let* ys := mapM f l' in
      Ok (y :: ys)
  end.

(** Sums of rationals. *)
Definition sumQ (l : list Q) : Q := fold_right Qplus 0%Q l.

Module Filter.
Import Scores.

(** One row of the [batch size x vocabulary size] tensor of logits; a
    batch is a list of rows of the same length. *)
Definition row := list score.

(** [logits.size(-1)] *)
Definition size_last (logits : list row) : nat :=
  match logits with
  | [] => 0
  | r :: _ => length r
  end.

(** [torch.topk(logits, k)[0]] on a row: the [k] largest values, largest
    first. *)
Definition topk_values (logits : row) (k : nat) : row :=
  firstn k (stable_sort (fun y x => ltb x y) logits).

(** [logits[indices_to_remove] = filter_value] on a row. *)
Definition mask (logits : row) (indices_to_remove : list bool) : row :=
  map (fun xb : score * bool => if snd xb then NegInf else fst xb)
      (combine logits indices_to_remove).

(** The top-k step on a row, for [top_k > 0]: every entry below the
    last of the top [top_k] values is removed. *)
Definition top_k_row (top_k : nat) (logits : row) : row :=
  let kth := last (topk_values logits top_k) NegInf in
  let indices_to_remove := map (fun x => ltb x kth) logits in
  mask logits indices_to_remove.

(** [torch.cumsum] on a row. *)
Fixpoint cumsum_from (acc : Q) (l : list Q) : list Q :=
  match l with
  | [] => []
  | x :: l' => (acc + x)%Q :: cumsum_from (acc + x)%Q l'
  end.
Definition cumsum (l : list Q) : list Q := cumsum_from 0%Q l.

(** [self.scatter(dim=1, index, src)] on a row: a copy of [self] with
    [src[j]] written at position [index[j]], for every [j]. *)
Definition scatter {A : Type} (self : list A) (index : list nat) (src : list A)
  : list A :=
  fold_left (fun out (iv : nat * A) => set_nth (fst iv) (snd iv) out)
            (combine index src) self.

(** [c > p] on rationals. *)
Definition Qgtb (c p : Q) : bool := negb (Qle_bool c p).

Section Nucleus.
(** The exponential function, of which the proofs use that it is
    positive, and the indices that [torch.sort(logits,
    descending=True)] returns for a row, whose order among equal
    scores is not determined. *)
Variable exp : Q -> Q.
Variable sort_desc : row -> list nat.

Definition weight (s : score) : Q :=
  match s with
  | NegInf => 0%Q
  | Fin q => exp q
  end.

(** [F.softmax(logits, dim=-1)] on a row.  (A row of [-inf] only has
    the denominator zero; the quotients are then [0] here and [nan] in
    floating point, and no comparison [nan > top_p] holds either.) *)
Definition softmax (logits : row) : list Q :=
  let z := sumQ (map weight logits) in
  map (fun s => (weight s / z)%Q) logits.

(** The top-p step on a row, for [top_p > 0]. *)
Definition top_p_row (top_p : Q) (logits : row) : result row :=
  let sorted_indices := sort_desc logits in
  let sorted_logits := map (fun i => nth i logits NegInf) sorted_indices in
  let cumulative_probs := cumsum (softmax sorted_logits) in
  let sorted_indices_to_remove := map (fun c => Qgtb c top_p) cumulative_probs in
  match sorted_indices_to_remove with
  | [] => Raise IndexError  (* [sorted_indices_to_remove[..., 0] = 0] *)
  | _ :: _ =>
      let sorted_indices_to_remove :=
        false :: removelast sorted_indices_to_remove in
      let indices_to_remove :=
        scatter sorted_indices_to_remove sorted_indices sorted_indices_to_remove in
      Ok (mask logits indices_to_remove)
  end.

Definition top_k_top_p_filtering (logits : list row) (top_k : Z) (top_p : Q)
  : result (list row) :=
  let top_k := Z.min top_k (Z.of_nat (size_last logits)) in
  let logits :=
    if (top_k >? 0)%Z then map (top_k_row (Z.to_nat top_k)) logits else logits in
  if Qgtb top_p 0 then mapM (top_p_row top_p) logits else Ok logits.

End Nucleus.

(** A sort that meets the contract of [torch.sort]: the stable one. *)
Definition stable_sort_desc (logits : row) : list nat :=
  stable_sort (fun j i => ltb (nth i logits NegInf) (nth j logits NegInf))
              (seq 0 (length logits)).

(** What is asked of the indices [torch.sort(logits, descending=True)]
    returns: they are the positions of the row, each once, and the
    scores at them do not increase. *)
Definition sorts_descending (sort_desc : row -> list nat) : Prop :=
  forall logits,
    Permutation (sort_desc logits) (seq 0 (length logits)) /\
    StronglySorted (fun i j => leb (nth j logits NegInf) (nth i logits NegInf) = true)
                   (sort_desc logits).


(** *** Facts about the top-k step *)

(** The entries that can still be selected. *)
Definition count_unmasked (r : row) : nat := count is_fin r.

(** No two entries of the row have the same score. *)
Definition tie_free (r : row) : Prop := forall x, count (eqb x) r <= 1.

Lemma mask_map (f : score -> bool) logits :
  mask logits (map f logits) = map (fun x => if f x then NegInf else x) logits.
Proof.
  unfold mask. induction logits as [|x l IH]; simpl; auto. now rewrite IH.
Qed.

Lemma sorted_values_desc logits :
  StronglySorted (fun a b => leb b a = true)
                 (stable_sort (fun y x => ltb x y) logits).
Proof.
  apply stable_sort_sorted.
  - intros x y z Hxy Hyz. eapply leb_trans; eauto.
  - intros x y H. now apply ltb_leb.
  - intros x y H. unfold leb. now rewrite H.
Qed.

Lemma sorted_split {A} (R : A -> A -> Prop) l1 x l2 :
  StronglySorted R (l1 ++ x :: l2) ->
  Forall (fun a => R a x) l1 /\ Forall (R x) l2.
Proof.
  induction l1 as [|a l1 IH]; simpl; intros H; inversion H; subst.
  - split; [constructor | assumption].
  - destruct (IH H2) as [H1 H1']. split; auto.
    constructor; auto.
    rewrite Forall_forall in H3. apply H3. apply in_or_app. right. now left.
Qed.

(** The sorted values, cut at the last of the top [k]. *)
Lemma topk_split logits k :
  1 <= k <= length logits ->
  exists pre post,
    stable_sort (fun y x => ltb x y) logits
      = pre ++ last (topk_values logits k) NegInf :: post /\
    length pre = k - 1.
Proof.
  intros Hk. unfold topk_values.
  set (s := stable_sort _ logits).
  assert (Hlen : length s = length logits) by apply stable_sort_length.
  assert (Hne : firstn k s <> []).
  { intros E. apply (f_equal (@length _)) in E.
    rewrite length_firstn in E. simpl in E. lia. }
  exists (removelast (firstn k s)), (skipn k s). split.
  - rewrite <- (firstn_skipn k s) at 1.
    rewrite (app_removelast_last NegInf Hne) at 1.
    now rewrite <- app_assoc.
  - pose proof (app_removelast_last NegInf Hne) as E.
    apply (f_equal (@length _)) in E.
    rewrite length_app, length_firstn in E. simpl in E. lia.
Qed.

Lemma top_k_row_counts logits k :
  1 <= k <= length logits ->
  let kth := last (topk_values logits k) NegInf in
  k <= count (fun x => negb (ltb x kth)) logits /\
  (tie_free logits -> count (fun x => negb (ltb x kth)) logits = k).
Proof.
  intros Hk kth.
  destruct (topk_split logits k Hk) as (pre & post & Es & Hpre).
  fold kth in Es.
  pose proof (sorted_values_desc logits) as Hs. rewrite Es in Hs.
  apply sorted_split in Hs. destruct Hs as [Hhi Hlo].
  pose proof (stable_sort_perm (fun y x => ltb x y) logits) as Hp.
  rewrite Es in Hp.
  rewrite (count_perm _ _ _ Hp).
  rewrite count_app. change (kth :: post) with ([kth] ++ post).
  rewrite count_app.
  assert (C1 : count (fun x => negb (ltb x kth)) pre = length pre).
  { apply count_all. eapply Forall_impl; [|exact Hhi].
    intros a Ha. exact Ha. }
  assert (C2 : count (fun x => negb (ltb x kth)) [kth] = 1).
  { unfold count. simpl. now rewrite ltb_irrefl. }
  rewrite C1, C2. split; [lia|].
  intros Htie.
  assert (C3 : count (fun x => negb (ltb x kth)) post = 0); [|lia].
  apply count_none. rewrite Forall_forall. intros y Hy.
  destruct (negb (ltb y kth)) eqn:E; auto. exfalso.
  assert (Heq : eqb kth y = true).
  { unfold eqb. apply andb_true_iff. split; [exact E|].
    rewrite Forall_forall in Hlo. apply Hlo, Hy. }
  specialize (Htie kth). rewrite (count_perm _ _ _ Hp) in Htie.
  rewrite count_app in Htie. change (kth :: post) with ([kth] ++ post) in Htie.
  rewrite count_app in Htie.
  assert (1 <= count (eqb kth) post).
  { apply in_split in Hy. destruct Hy as (p1 & p2 & ->).
    rewrite count_app. unfold count at 2. simpl. rewrite Heq. simpl. lia. }
  assert (count (eqb kth) [kth] = 1).
  { unfold count. simpl. unfold eqb. now rewrite leb_refl. }
  lia.
Qed.


(** *** Facts about the top-p step *)

Lemma sumQ_app l1 l2 : (sumQ (l1 ++ l2) == sumQ l1 + sumQ l2)%Q.
Proof.
induction l1 as [|x l1 IH]; simpl.
- lra.
- rewrite IH. lra.
Qed.

Lemma sumQ_nonneg l : Forall (fun x => 0 <= x)%Q l -> (0 <= sumQ l)%Q.
Proof.
induction 1 as [|x l Hx _ IH]; simpl; lra.
Qed.

Lemma sumQ_pos l :
  Forall (fun x => 0 <= x)%Q l -> Exists (fun x => 0 < x)%Q l -> (0 < sumQ l)%Q.
Proof.
intros Hn He. induction He as [x l Hx|x l He IH]; inversion Hn; subst; simpl.
- pose proof (sumQ_nonneg l H2). lra.
- specialize (IH H2). lra.
Qed.

Lemma sumQ_map_div {A} (f : A -> Q) (z : Q) l :
  (sumQ (map (fun s => f s / z) l) == sumQ (map f l) / z)%Q.
Proof.
induction l as [|x l IH]; simpl.
- unfold Qdiv. ring.
- rewrite IH. unfold Qdiv. ring.
Qed.

(** Once the running sum is above [p] it stays above. *)
Lemma flags_all_true (p acc : Q) l :
  (p < acc)%Q -> Forall (fun x => 0 <= x)%Q l ->
  map (fun c => Qgtb c p) (cumsum_from acc l) = repeat true (length l).
Proof.
intros Hacc Hl. revert acc Hacc.
induction Hl as [|x l Hx _ IH]; intros acc Hacc; simpl; auto.
assert (Hgt : Qgtb (acc + x) p = true).
{ unfold Qgtb. apply negb_true_iff, not_true_iff_false.
  rewrite Qle_bool_iff. lra. }
rewrite Hgt. f_equal. apply IH. lra.
Qed.

(** The flags [cumulative_probs > top_p] are a run of [false] followed by
    a run of [true]; the run of [false] covers the prefixes whose sum is
    at most [p]. *)
Lemma flags_shape (p acc : Q) l :
  Forall (fun x => 0 <= x)%Q l ->
  exists a,
    a <= length l /\
    map (fun c => Qgtb c p) (cumsum_from acc l)
      = repeat false a ++ repeat true (length l - a) /\
    ((acc <= p)%Q -> (acc + sumQ (firstn a l) <= p)%Q) /\
    (a < length l -> (p < acc + sumQ (firstn (S a) l))%Q).
Proof.
intros Hl. revert acc.
induction Hl as [|x l Hx Hl IH]; intros acc.
- exists 0. simpl. repeat split; auto; try lia. intros; lra.
- simpl cumsum_from. simpl map.
  destruct (Qgtb (acc + x) p) eqn:E.
  + exists 0. simpl. repeat split; try lia.
    * f_equal. apply flags_all_true; auto.
      unfold Qgtb in E. apply negb_true_iff, not_true_iff_false in E.
      rewrite Qle_bool_iff in E. lra.
    * intros; lra.
    * intros _. unfold Qgtb in E. apply negb_true_iff, not_true_iff_false in E.
      rewrite Qle_bool_iff in E. lra.
  + destruct (IH (acc + x)%Q) as (a & Ha & Hflags & Hle & Hgt).
    unfold Qgtb in E. apply negb_false_iff in E. rewrite Qle_bool_iff in E.
    exists (S a). simpl. repeat split; try lia.
    * f_equal. exact Hflags.
    * intros _. specialize (Hle E). lra.
    * intros Hlt. assert (a < length l) as Hlt' by lia.
      specialize (Hgt Hlt'). simpl in Hgt. lra.
Qed.

Lemma removelast_repeat {A} (x : A) n : removelast (repeat x (S n)) = repeat x n.
Proof.
induction n as [|n IH]; auto.
change (repeat x (S (S n))) with (x :: repeat x (S n)).
change (removelast (x :: repeat x (S n))) with (x :: removelast (repeat x (S n))).
now rewrite IH.
Qed.

Lemma nth_repeat_app a b j :
  j < a + b -> nth j (repeat false a ++ repeat true b) false = negb (j <? a).
Proof.
intros Hj. destruct (Nat.ltb_spec j a) as [H|H]; simpl.
- rewrite app_nth1 by (rewrite repeat_length; lia). apply nth_repeat.
- rewrite app_nth2 by (rewrite repeat_length; lia). rewrite repeat_length.
  apply nth_repeat_lt. lia.
Qed.

(** [scatter] along a list of distinct indices writes [src[j]] at
    [index[j]]. *)
Lemma scatter_untouched {A} (self : list A) index src i d :
  ~ In i index -> nth i (scatter self index src) d = nth i self d.
Proof.
unfold scatter. revert self src.
induction index as [|k index IH]; intros self src Hi; simpl; auto.
destruct src as [|v src]; simpl; auto.
rewrite IH by (intros H; apply Hi; now right).
apply nth_set_nth_neq. intros ->. apply Hi. now left.
Qed.

Lemma scatter_nth {A} (self : list A) index src j d :
  NoDup index -> length src = length index ->
  Forall (fun i => i < length self) index ->
  j < length index ->
  nth (nth j index 0) (scatter self index src) d = nth j src d.
Proof.
revert self src j.
induction index as [|k index IH]; intros self src j Hnd Hlen Hin Hj;
  simpl in Hj; [lia|].
destruct src as [|v src]; [discriminate|].
inversion Hnd; subst. inversion Hin; subst.
change (scatter self (k :: index) (v :: src))
  with (scatter (set_nth k v self) index src).
destruct j as [|j]; simpl nth.
- rewrite scatter_untouched by assumption. now apply nth_set_nth_eq.
- apply IH; auto; try (simpl in *; lia).
  eapply Forall_impl; [|eassumption]. intros i Hi. now rewrite set_nth_length.
Qed.

Lemma scatter_length {A} (self : list A) index src :
  length (scatter self index src) = length self.
Proof.
unfold scatter. revert self src.
induction index as [|k index IH]; intros self src; simpl; auto.
destruct src as [|v src]; simpl; auto.
rewrite IH. apply set_nth_length.
Qed.

Lemma nth_mask logits flags i :
  length flags = length logits ->
  nth i (mask logits flags) NegInf
  = if nth i flags false then NegInf else nth i logits NegInf.
Proof.
unfold mask. revert flags i.
induction logits as [|x l IH]; intros [|b flags] [|i] H; simpl in *;
  try discriminate; auto.
Qed.

Lemma mask_length logits flags :
  length flags = length logits -> length (mask logits flags) = length logits.
Proof.
intros H. unfold mask. rewrite length_map, length_combine. lia.
Qed.


(** The probabilities the top-p step works with: [F.softmax(sorted_logits,
    dim=-1)], the softmax of the row in descending order. *)
Definition sorted_probs (exp : Q -> Q) (sort_desc : row -> list nat) (logits : row)
  : list Q :=
  softmax exp (map (fun i => nth i logits NegInf) (sort_desc logits)).

Lemma match_nonempty {A B} (l : list A) (x y : B) :
  l <> [] -> match l with [] => x | _ :: _ => y end = y.
Proof. destruct l; congruence. Qed.

Lemma leb_fin_fin a b : leb a b = true -> is_fin a = true -> is_fin b = true.
Proof. destruct a, b; simpl; auto; discriminate. Qed.

Section NucleusFacts.
Variable exp : Q -> Q.
Variable sort_desc : row -> list nat.
Hypothesis exp_pos : forall q, (0 < exp q)%Q.
Hypothesis sort_ok : sorts_descending sort_desc.

Lemma weight_nonneg s : (0 <= weight exp s)%Q.
Proof. destruct s as [|q]; simpl; [lra|]. specialize (exp_pos q). lra. Qed.

Lemma softmax_facts (l : row) :
  Exists (fun x => is_fin x = true) l ->
  Forall (fun x => 0 <= x)%Q (softmax exp l) /\ (sumQ (softmax exp l) == 1)%Q.
Proof.
intros Hfin. unfold softmax. set (z := sumQ (map (weight exp) l)).
assert (Hz : (0 < z)%Q).
{ apply sumQ_pos.
  - rewrite Forall_map. rewrite Forall_forall. intros; apply weight_nonneg.
  - rewrite Exists_map. eapply Exists_impl; [|exact Hfin].
    intros [|q]; simpl; [discriminate|]. intros _. apply exp_pos. }
split.
- rewrite Forall_map. rewrite Forall_forall. intros s _.
  pose proof (weight_nonneg s). unfold Qdiv.
  apply Qmult_le_0_compat; auto. apply Qinv_le_0_compat. lra.
- rewrite sumQ_map_div. fold z. field. lra.
Qed.

Lemma top_p_row_nucleus (p : Q) (logits : row) :
  (0 < p)%Q -> (p < 1)%Q ->
  Exists (fun x => is_fin x = true) logits ->
  exists out m,
    top_p_row exp sort_desc p logits = Ok out /\
    length out = length logits /\
    1 <= m <= length logits /\
    (forall j, j < length logits ->
       nth (nth j (sort_desc logits) 0) out NegInf
       = if j <? m then nth (nth j (sort_desc logits) 0) logits NegInf
         else NegInf) /\
    (p < sumQ (firstn m (sorted_probs exp sort_desc logits)))%Q /\
    (sumQ (firstn (m - 1) (sorted_probs exp sort_desc logits)) <= p)%Q /\
    (sumQ (skipn m (sorted_probs exp sort_desc logits)) < 1 - p)%Q /\
    is_fin (nth (nth 0 (sort_desc logits) 0) out NegInf) = true.
Proof.
intros Hp0 Hp1 Hfin.
destruct (sort_ok logits) as [Hperm Hsorted].
set (n := length logits) in *. set (idx := sort_desc logits) in *.
assert (Hlen : length idx = n).
{ rewrite (Permutation_length Hperm). apply length_seq. }
assert (Hnd : NoDup idx).
{ eapply Permutation_NoDup; [apply Permutation_sym, Hperm | apply seq_NoDup]. }
assert (Hrange : Forall (fun i => i < n) idx).
{ rewrite Forall_forall. intros i Hi.
  apply (Permutation_in _ Hperm) in Hi. apply in_seq in Hi. lia. }
assert (Hn : 1 <= n).
{ destruct logits; [inversion Hfin | simpl in *; unfold n; simpl; lia]. }
unfold top_p_row, sorted_probs. fold idx.
set (sl := map (fun i => nth i logits NegInf) idx).
assert (Hsl : Exists (fun x => is_fin x = true) sl).
{ rewrite Exists_exists in Hfin. destruct Hfin as (x & Hx & Hxf).
  destruct (In_nth _ _ NegInf Hx) as (i & Hi & Ei).
  rewrite Exists_exists. exists x. split; auto.
  unfold sl. rewrite in_map_iff. exists i. split; auto.
  apply (Permutation_in _ (Permutation_sym Hperm)). apply in_seq. fold n. lia. }
destruct (softmax_facts sl Hsl) as [Hnn Hsum].
set (sp := softmax exp sl) in *.
assert (Hsp : length sp = n).
{ unfold sp, softmax, sl. now rewrite !length_map. }
destruct (flags_shape p 0 sp Hnn) as (a & Ha & Hflags & Hle & Hgt).
rewrite Hsp in Ha, Hflags, Hgt.
assert (Ha' : a < n).
{ destruct (Nat.eq_dec a n) as [->|]; [|lia].
  assert (0 <= p)%Q as H0 by lra. specialize (Hle H0).
  rewrite <- Hsp in Hle. rewrite firstn_all in Hle. lra. }
unfold cumsum. rewrite Hflags.
rewrite match_nonempty.
2:{ intros E. apply (f_equal (@length _)) in E.
    rewrite length_app, !repeat_length in E. simpl in E. lia. }
assert (Hshift : false :: removelast (repeat false a ++ repeat true (n - a))
                 = repeat false (S a) ++ repeat true (n - S a)).
{ replace (n - a) with (S (n - S a)) by lia.
  rewrite removelast_app by discriminate.
  now rewrite removelast_repeat. }
rewrite Hshift. set (r := repeat false (S a) ++ repeat true (n - S a)).
assert (Hr : length r = n).
{ unfold r. rewrite length_app, !repeat_length. lia. }
set (flags := scatter r idx r).
assert (Hfl : length flags = n) by (unfold flags; now rewrite scatter_length).
assert (Hout : forall j, j < n ->
          nth (nth j idx 0) (mask logits flags) NegInf
          = if j <? S a then nth (nth j idx 0) logits NegInf else NegInf).
{ intros j Hj. rewrite nth_mask by exact Hfl.
  unfold flags. rewrite scatter_nth; auto; try lia.
  - unfold r. rewrite nth_repeat_app by lia. now destruct (j <? S a).
  - now rewrite Hr. }
exists (mask logits flags), (S a). repeat split; auto; try lia.
- now apply mask_length.
- assert (a < n) as H by lia. specialize (Hgt H). lra.
- replace (S a - 1) with a by lia. assert (0 <= p)%Q as H0 by lra.
  specialize (Hle H0). lra.
- assert (a < n) as H by lia. specialize (Hgt H).
  pose proof (sumQ_app (firstn (S a) sp) (skipn (S a) sp)) as Happ.
  rewrite firstn_skipn in Happ. lra.
- rewrite Hout by lia. simpl.
  rewrite Exists_exists in Hfin. destruct Hfin as (x & Hx & Hxf).
  destruct (In_nth _ _ NegInf Hx) as (i & Hi & Ei). fold n in Hi.
  assert (Hin : In i idx).
  { apply (Permutation_in _ (Permutation_sym Hperm)). apply in_seq. lia. }
  destruct idx as [|i0 rest] eqn:Eidx; [simpl in Hlen; lia|]. simpl.
  destruct Hin as [->|Hin]; [now rewrite Ei|].
  apply StronglySorted_inv in Hsorted. destruct Hsorted as [_ Hall].
  rewrite Forall_forall in Hall. specialize (Hall i Hin).
  rewrite Ei in Hall. eapply leb_fin_fin; eauto.
Qed.

End NucleusFacts.


(** The stable sort meets the contract of [torch.sort]. *)
Lemma stable_sort_desc_ok : sorts_descending stable_sort_desc.
Proof.
intros logits. unfold stable_sort_desc. split.
- apply Permutation_sym, stable_sort_perm.
- apply stable_sort_sorted.
  + intros x y z Hxy Hyz. eapply leb_trans; eauto.
  + intros x y H. now apply ltb_leb.
  + intros x y H. unfold leb. now rewrite H.
Qed.

(** A positive, increasing function on the rationals to run examples
    with, in the place of the exponential: [2 ^ floor q]. *)
Definition pow2 (q : Q) : Q := Qpower 2 (Qfloor q).

Lemma pow2_pos q : (0 < pow2 q)%Q.
Proof. apply Qpower_0_lt. reflexivity. Qed.

(** *** What the filter never removes *)

(** [out] is [l] with some entries set to [-inf], and an entry of the
    highest score of [l] is among those that are left as they are. *)
Definition keeps_best (l out : row) : Prop :=
  length out = length l /\
  (forall i, i < length l ->
     nth i out NegInf = nth i l NegInf \/ nth i out NegInf = NegInf) /\
  exists best,
    best < length l /\
    nth best out NegInf = nth best l NegInf /\
    forall i, i < length l -> leb (nth i l NegInf) (nth best l NegInf) = true.

Lemma leb_neginf a : leb a NegInf = true -> a = NegInf.
Proof. destruct a; simpl; auto. discriminate. Qed.

Lemma neginf_leb a : leb NegInf a = true.
Proof. destruct a; reflexivity. Qed.

Lemma keeps_best_trans a b c : keeps_best a b -> keeps_best b c -> keeps_best a c.
Proof.
intros (Hlen1 & Hent1 & i1 & Hi1 & Hkeep1 & Hmax1)
       (Hlen2 & Hent2 & i2 & Hi2 & Hkeep2 & Hmax2).
rewrite Hlen1 in *.
split; [congruence|]. split.
- intros i Hi. destruct (Hent2 i Hi) as [E|E]; [|now right].
  rewrite E. now apply Hent1.
- exists i2. split; [exact Hi2|].
  (* the best entry of [b] is at least the kept best entry of [a] *)
  assert (Hge : leb (nth i1 a NegInf) (nth i2 b NegInf) = true).
  { rewrite <- Hkeep1. now apply Hmax2. }
  assert (Hb : nth i2 b NegInf = nth i2 a NegInf).
  { destruct (Hent1 i2 Hi2) as [E|E]; [exact E|].
    rewrite E in Hge. apply leb_neginf in Hge.
    specialize (Hmax1 i2 Hi2). rewrite Hge in Hmax1.
    apply leb_neginf in Hmax1. congruence. }
  split; [congruence|].
  intros i Hi. rewrite <- Hb.
  eapply leb_trans; [apply Hmax1; exact Hi | exact Hge].
Qed.

Lemma exists_best (l : row) :
  l <> [] ->
  exists best, best < length l /\
    forall i, i < length l -> leb (nth i l NegInf) (nth best l NegInf) = true.
Proof.
induction l as [|x l IH]; [congruence|]. intros _.
destruct l as [|y l].
- exists 0. split; [simpl; lia|]. intros [|i] Hi; simpl in *; [apply leb_refl | lia].
- destruct IH as (b & Hb & Hmax); [discriminate|].
  destruct (leb_total x (nth b (y :: l) NegInf)) as [H|H].
  + exists (S b). split; [simpl in *; lia|].
    intros [|i] Hi; [exact H|]. apply Hmax. simpl in *. lia.
  + exists 0. split; [simpl; lia|].
    intros [|i] Hi; [apply leb_refl|].
    eapply leb_trans; [apply Hmax; simpl in *; lia | exact H].
Qed.

(** The last of the top [k] values is one of the scores. *)
Lemma kth_in_row logits k :
  1 <= k <= length logits -> In (last (topk_values logits k) NegInf) logits.
Proof.
intros Hk. destruct (topk_split logits k Hk) as (pre & post & Es & _).
eapply Permutation_in; [apply Permutation_sym, stable_sort_perm|].
rewrite Es. apply in_or_app. right. now left.
Qed.

Lemma top_k_row_keeps_best k logits :
  1 <= k <= length logits -> keeps_best logits (top_k_row k logits).
Proof.
intros Hk. unfold top_k_row.
set (kth := last (topk_values logits k) NegInf).
rewrite mask_map.
set (g := fun x => if ltb x kth then NegInf else x).
assert (Hg : forall i, nth i (map g logits) NegInf = g (nth i logits NegInf)).
{ intros i. rewrite <- (map_nth g). f_equal. unfold g.
  now destruct (ltb NegInf kth). }
split; [apply length_map|]. split.
- intros i Hi. rewrite Hg. unfold g. destruct (ltb _ kth); auto.
- destruct (exists_best logits) as (b & Hb & Hmax).
  { intros ->. simpl in Hk. lia. }
  exists b. split; [exact Hb|]. split; [|exact Hmax].
  rewrite Hg. unfold g.
  destruct (In_nth _ _ NegInf (kth_in_row logits k Hk)) as (i & Hi & Ei).
  fold kth in Ei. specialize (Hmax i Hi). rewrite Ei in Hmax.
  unfold leb in Hmax. apply negb_true_iff in Hmax. now rewrite Hmax.
Qed.

(** With [top_k] at least the size of the vocabulary nothing is below
    the last of the top values. *)
Lemma top_k_row_all logits :
  logits <> [] -> top_k_row (length logits) logits = logits.
Proof.
intros Hne.
assert (Hk : 1 <= length logits <= length logits).
{ destruct logits; [congruence | simpl; lia]. }
unfold top_k_row. set (kth := last (topk_values logits (length logits)) NegInf).
rewrite mask_map.
destruct (topk_split logits _ Hk) as (pre & post & Es & Hpre). fold kth in Es.
pose proof (stable_sort_perm (fun y x => ltb x y) logits) as Hp.
assert (post = []) as ->.
{ apply Permutation_length in Hp. rewrite Es, length_app in Hp. simpl in Hp.
  destruct post; [reflexivity | simpl in Hp; lia]. }
pose proof (sorted_values_desc logits) as Hs. rewrite Es in Hs.
apply sorted_split in Hs. destruct Hs as [Hhi _].
rewrite <- (map_id logits) at 2. apply map_ext_in. intros x Hx.
apply (Permutation_in _ Hp) in Hx. rewrite Es in Hx.
apply in_app_or in Hx. destruct Hx as [Hx|[<-|[]]].
- rewrite Forall_forall in Hhi. specialize (Hhi x Hx).
  unfold leb in Hhi. apply negb_true_iff in Hhi. now rewrite Hhi.
- now rewrite ltb_irrefl.
Qed.

Lemma cumsum_from_length acc l : length (cumsum_from acc l) = length l.
Proof.
revert acc; induction l as [|x l IH]; intros acc; simpl; auto.
Qed.

Lemma shift_length {A} (l : list A) :
  l <> [] -> S (length (removelast l)) = length l.
Proof.
intros Hne. induction l as [|x l IH]; [congruence|].
destruct l as [|y l]; [reflexivity|].
change (removelast (x :: y :: l)) with (x :: removelast (y :: l)).
simpl length in *. rewrite IH by discriminate. reflexivity.
Qed.

Lemma top_p_row_keeps_best (exp : Q -> Q) (sort_desc : row -> list nat)
      (top_p : Q) (logits : row) :
  sorts_descending sort_desc -> logits <> [] ->
  exists out, top_p_row exp sort_desc top_p logits = Ok out /\ keeps_best logits out.
Proof.
intros Hsort Hne.
destruct (Hsort logits) as [Hperm Hsorted].
set (n := length logits) in *. set (idx := sort_desc logits) in *.
assert (Hn : 1 <= n) by (destruct logits; [congruence | unfold n; simpl; lia]).
assert (Hlen : length idx = n).
{ rewrite (Permutation_length Hperm). apply length_seq. }
assert (Hnd : NoDup idx).
{ eapply Permutation_NoDup; [apply Permutation_sym, Hperm | apply seq_NoDup]. }
assert (Hrange : Forall (fun i => i < n) idx).
{ rewrite Forall_forall. intros i Hi.
  apply (Permutation_in _ Hperm) in Hi. apply in_seq in Hi. lia. }
unfold top_p_row. fold idx.
set (flags := map (fun c => Qgtb c top_p) _).
assert (Hfl : length flags = n).
{ unfold flags, cumsum, softmax.
  now rewrite length_map, cumsum_from_length, !length_map. }
rewrite match_nonempty by (intros E; rewrite E in Hfl; simpl in Hfl; lia).
set (r := false :: removelast flags).
assert (Hr : length r = n).
{ unfold r. simpl. rewrite shift_length; [exact Hfl|].
  intros E. rewrite E in Hfl. simpl in Hfl. lia. }
set (remove := scatter r idx r).
assert (Hrem : length remove = n) by (unfold remove; now rewrite scatter_length).
exists (mask logits remove). split; [reflexivity|].
split; [now apply mask_length|]. split.
- intros i Hi. rewrite nth_mask by exact Hrem. destruct (nth i remove false); auto.
- destruct idx as [|i0 rest] eqn:Eidx; [simpl in Hlen; lia|].
  exists i0. split; [|split].
  + inversion Hrange; subst. assumption.
  + rewrite nth_mask by exact Hrem.
    assert (E : nth i0 remove false = false).
    { unfold remove.
      change i0 with (nth 0 (i0 :: rest) 0) at 1.
      rewrite scatter_nth; auto; try (simpl; lia); try (now rewrite Hr). }
    now rewrite E.
  + intros i Hi.
    assert (Hin : In i (i0 :: rest)).
    { apply (Permutation_in _ (Permutation_sym Hperm)). apply in_seq. fold n. lia. }
    destruct Hin as [->|Hin]; [apply leb_refl|].
    apply StronglySorted_inv in Hsorted. destruct Hsorted as [_ Hall].
    rewrite Forall_forall in Hall. now apply Hall.
Qed.

Lemma Qgtb_false c p : (c <= p)%Q -> Qgtb c p = false.
Proof. intros H. unfold Qgtb. apply negb_false_iff. now apply Qle_bool_iff. Qed.

Lemma Qgtb_true c p : (p < c)%Q -> Qgtb c p = true.
Proof.
intros H. unfold Qgtb. apply negb_true_iff, not_true_iff_false.
rewrite Qle_bool_iff. lra.
Qed.

Lemma mapM_length {A B} (f : A -> result B) l out :
  mapM f l = Ok out -> length out = length l.
Proof.
revert out. induction l as [|x l IH]; intros out; simpl.
- intros [= <-]. reflexivity.
- destruct (f x) as [y|e]; simpl; [|discriminate].
  destruct (mapM f l) as [ys|e]; simpl; [|discriminate].
  intros [= <-]. simpl. now rewrite (IH ys).
Qed.

Lemma top_k_top_p_filtering_length exp sort_desc rows top_k top_p out :
  top_k_top_p_filtering exp sort_desc rows top_k top_p = Ok out ->
  length out = length rows.
Proof.
unfold top_k_top_p_filtering.
set (mid := if (_ >? 0)%Z then _ else _).
assert (Hmid : length mid = length rows).
{ unfold mid. destruct (_ >? 0)%Z; [apply length_map | reflexivity]. }
destruct (Qgtb top_p 0).
- intros H. apply mapM_length in H. congruence.
- intros [= <-]. exact Hmid.
Qed.

Lemma keeps_best_refl l : l <> [] -> keeps_best l l.
Proof.
intros Hne. split; [reflexivity|]. split; [auto|].
destruct (exists_best l Hne) as (b & Hb & Hmax). exists b. auto.
Qed.

(** On a batch of one non-empty row the filter returns, and keeps a best
    entry of the row. *)
Lemma top_k_top_p_filtering_keeps_best exp sort_desc logits top_k top_p :
  sorts_descending sort_desc -> logits <> [] ->
  exists out,
    top_k_top_p_filtering exp sort_desc [logits] top_k top_p = Ok [out] /\
    keeps_best logits out.
Proof.
intros Hsort Hne.
assert (Hn : 1 <= length logits) by (destruct logits; [congruence | simpl; lia]).
unfold top_k_top_p_filtering. simpl size_last.
set (k := Z.min top_k (Z.of_nat (length logits))).
assert (Hmid : exists mid,
           (if (k >? 0)%Z then map (top_k_row (Z.to_nat k)) [logits]
            else [logits]) = [mid] /\ keeps_best logits mid).
{ destruct (k >? 0)%Z eqn:Ek.
  - exists (top_k_row (Z.to_nat k) logits). split; [reflexivity|].
    apply top_k_row_keeps_best. apply Z.gtb_lt in Ek. unfold k in *. lia.
  - exists logits. split; [reflexivity | now apply keeps_best_refl]. }
destruct Hmid as (mid & -> & Hmid).
destruct (Qgtb top_p 0).
- destruct (top_p_row_keeps_best exp sort_desc top_p mid Hsort) as (out & Hrun & Hout).
  { destruct Hmid as [Hlen _]. intros ->. simpl in Hlen. lia. }
  exists out. simpl. rewrite Hrun. simpl. split; [reflexivity|].
  eapply keeps_best_trans; eauto.
- exists mid. auto.
Qed.

End Filter.

(** ** [sample_sequence] *)

Module Sampler.
Import Scores Filter.

(** [logits[k] /= repetition_penalty] on a row; an index outside the
    vocabulary raises. *)
Definition divide_at (repetition_penalty : Q) (logits : row) (k : token)
  : result row :=
  if k <? length logits
  then Ok (set_nth k (div (nth k logits NegInf) repetition_penalty) logits)
  else Raise IndexError.

(** A loop [for x in l: acc = f(acc, x)] whose body may raise. *)
Fixpoint foldM {A B : Type} (f : B -> A -> result B) (l : list A) (acc : B)
  : result B :=
  match l with
  | [] => Ok acc
  | x :: l' => let* acc' := f acc x in foldM f l' acc'
  end.

(** The inner loop of the repetition penalty for one row:
    [for k in set(generated[i].tolist()): next_token_logits[i, k] /= repetition_penalty].
    The set is run through in some order without repetition. *)
Definition repetition_penalty_row (repetition_penalty : Q)
           (generated : list token) (logits : row) : result row :=
  foldM (divide_at repetition_penalty) (nodup Nat.eq_dec generated) logits.

(** The outer loop, [for i in range(num_samples)]; [generated] has
    [num_samples] rows. *)
Fixpoint repetition_penalty_rows (repetition_penalty : Q)
         (generated : list (list token)) (logits : list row) : result (list row) :=
  match generated with
  | [] => Ok logits
  | gen :: gens =>
      match logits with
      | [] => Raise IndexError
      | r :: rs =>
          let* r' := repetition_penalty_row repetition_penalty gen r in
          let* rs' := repetition_penalty_rows repetition_penalty gens rs in
          Ok (r' :: rs')
      end
  end.

(** [outputs[0][:, -1, :] / (temperature if temperature > 0 else 1.0)] *)
Definition scale (temperature : Q) (raw : list row) : list row :=
  map (map (fun s => div s (if Qgtb temperature 0 then temperature else 1%Q))) raw.

(** [torch.argmax] on a row: the position of the first largest entry. *)
Fixpoint argmax_from (best_i : nat) (best : score) (i : nat) (l : row) : nat :=
  match l with
  | [] => best_i
  | x :: l' =>
      if ltb best x then argmax_from i x (S i) l'
      else argmax_from best_i best (S i) l'
  end.

Definition argmax (l : row) : result token :=
  match l with
  | [] => Raise RuntimeError
  | x :: l' => Ok (argmax_from 0 x 1 l')
  end.

(** [torch.cat((generated, next_token), dim=1)], with one new token per
    row. *)
Fixpoint cat (generated : list (list token)) (next_token : list token)
  : result (list (list token)) :=
  match generated, next_token with
  | [], [] => Ok []
  | r :: generated', t :: next_token' =>
      let* rest := cat generated' next_token' in
      Ok ((r ++ [t]) :: rest)
  | _, _ => Raise RuntimeError
  end.

Section Sampling.
(** The collaborators: the scoring model with its cache ([past]), which
    gets the batch of input ids and gives the scores at the last position
    of every row; the random draw of [torch.multinomial] from a row of
    probabilities, which consumes randomness; the exponential and the sort
    of the filter. *)
Variable past : Type.
Variable rng : Type.
Variable model : list (list token) -> option past -> result (list row * past).
Variable multinomial : list Q -> rng -> token * rng.
Variable exp : Q -> Q.
Variable sort_desc : row -> list nat.

(** The choice of the next token of one row. *)
Definition select_row (temperature : Q) (filtered_logits : row) (g : rng)
  : result (token * rng) :=
  if Qeq_bool temperature 0 then
    let* t := argmax filtered_logits in Ok (t, g)
  else if existsb is_fin filtered_logits then
    Ok (multinomial (softmax exp filtered_logits) g)
  else Raise RuntimeError.  (* no probability is a number *)

Fixpoint select_rows (temperature : Q) (filtered_logits : list row) (g : rng)
  : result (list token * rng) :=
  match filtered_logits with
  | [] => Ok ([], g)
  | r :: rs =>
      let* tg := select_row temperature r g in
      let* tsg := select_rows temperature rs (snd tg) in
      Ok (fst tg :: fst tsg, snd tsg)
  end.

Record state : Type := {
  generated : list (list token);
  next_token : list (list token);
  outputs_past : option past;
  randomness : rng
}.

Section Loop.
Variable temperature : Q.
Variable top_k : Z.
Variable top_p : Q.
Variable repetition_penalty : Q.
Variable stop_tokens : option (list token).

(** [(stop_tokens is not None) and (j > 4) and (next_token[0][0] in stop_tokens)] *)
Definition stop_check (j : nat) (next : list token) : result bool :=
  match stop_tokens with
  | None => Ok false
  | Some stops =>
      if 4 <? j then
        match next with
        | [] => Raise IndexError
        | t :: _ => Ok (existsb (Nat.eqb t) stops)
        end
      else Ok false
  end.

(** The body of the loop at step [j]; the boolean says whether [break]
    was reached. *)
Definition step (j : nat) (st : state) : result (state * bool) :=
  let* outputs := model (next_token st) (outputs_past st) in
  let next_token_logits := scale temperature (fst outputs) in
  let* next_token_logits :=
    repetition_penalty_rows repetition_penalty (generated st) next_token_logits in
  let* filtered_logits :=
    top_k_top_p_filtering exp sort_desc next_token_logits top_k top_p in
  let* chosen := select_rows temperature filtered_logits (randomness st) in
  let* generated' := cat (generated st) (fst chosen) in
  let* stop := stop_check j (fst chosen) in
  Ok ({| generated := generated';
         next_token := map (fun t => [t]) (fst chosen);
         outputs_past := Some (snd outputs);
         randomness := snd chosen |}, stop).

(** [for j in range(length)] *)
Fixpoint loop (js : list nat) (st : state) : result state :=
  match js with
  | [] => Ok st
  | j :: js' =>
      let* r := step j st in
      if snd r then Ok (fst r) else loop js' (fst r)
  end.

Definition sample_sequence (length : Z) (context : list token)
           (num_samples : nat) (g : rng) : result (list (list token) * rng) :=
  let context := repeat context num_samples in
  let* st := loop (seq 0 (Z.to_nat length))
                  {| generated := context; next_token := context;
                     outputs_past := None; randomness := g |} in
  Ok (generated st, randomness st).

End Loop.
End Sampling.

(** *** Facts about the repetition penalty *)

Lemma div_one s : div s 1 = s.
Proof.
destruct s as [|[n d]]; simpl; auto. f_equal.
unfold Qdiv, Qmult, Qinv. simpl. now rewrite Z.mul_1_r, Pos.mul_1_r.
Qed.




(** *** Facts about the loop *)

Lemma cat_spec generated next generated' :
  cat generated next = Ok generated' ->
  length next = length generated /\
  generated' = map (fun rt => fst rt ++ [snd rt]) (combine generated next).
Proof.
revert next generated'.
induction generated as [|r gen IH]; intros [|t next] gen'; simpl;
  try discriminate.
- intros [= <-]. auto.
- destruct (cat gen next) as [rest|e] eqn:E; simpl; [|discriminate].
  intros [= <-]. destruct (IH _ _ E) as [Hlen ->]. split; auto.
Qed.

Section SamplingFacts.
Variable past : Type.
Variable rng : Type.
Variable model : list (list token) -> option past -> result (list row * past).
Variable multinomial : list Q -> rng -> token * rng.
Variable exp : Q -> Q.
Variable sort_desc : row -> list nat.
Variable temperature : Q.
Variable top_k : Z.
Variable top_p : Q.
Variable repetition_penalty : Q.
Variable stop_tokens : option (list token).
Variable context : list token.

Let state := state past rng.
Let step := step past rng model multinomial exp sort_desc temperature top_k top_p
                 repetition_penalty stop_tokens.
Let loop := loop past rng model multinomial exp sort_desc temperature top_k top_p
                 repetition_penalty stop_tokens.

(** Every row is the context followed by [n] new tokens. *)
Definition rows_extend_context (n : nat) (rows : list (list token)) : Prop :=
  Forall (fun row => firstn (length context) row = context /\
                     length row = length context + n) rows.

(** In the first row no token among the new tokens at the steps [j] with
    [4 < j < m] is a stop token. *)
Definition no_stop_before (m : nat) (rows : list (list token)) : Prop :=
  forall stops row0 rest,
    stop_tokens = Some stops -> rows = row0 :: rest ->
    forall j, 4 < j -> j < m -> ~ In (nth (length context + j) row0 0) stops.

(** The new token of step [j] in the first row is a stop token. *)
Definition stopped_at (j : nat) (rows : list (list token)) : Prop :=
  exists stops row0 rest,
    stop_tokens = Some stops /\ rows = row0 :: rest /\ 4 < j /\
    In (nth (length context + j) row0 0) stops.

Lemma step_spec j (st st' : state) brk :
  step j st = Ok (st', brk) ->
  rows_extend_context j (generated _ _ st) ->
  length (generated _ _ st') = length (generated _ _ st) /\
  rows_extend_context (S j) (generated _ _ st') /\
  (forall m, no_stop_before m (generated _ _ st) -> m <= j ->
             no_stop_before m (generated _ _ st')) /\
  (brk = true -> stopped_at j (generated _ _ st')) /\
  (brk = false -> forall m, no_stop_before m (generated _ _ st) -> m = j ->
                  no_stop_before (S j) (generated _ _ st')).
Proof.
unfold step, Sampler.step.
destruct (model _ _) as [outputs|e]; simpl; [|discriminate].
destruct (repetition_penalty_rows _ _ _) as [pen|e]; simpl; [|discriminate].
destruct (top_k_top_p_filtering _ _ _ _ _) as [filtered|e]; simpl; [|discriminate].
destruct (select_rows _ _ _ _ _ _) as [chosen|e]; simpl; [|discriminate].
destruct (cat _ _) as [gen'|e] eqn:Ecat; simpl; [|discriminate].
destruct (stop_check _ _ _) as [stop|e] eqn:Estop; simpl; [|discriminate].
intros [= <- <-] Hshape. simpl.
destruct (cat_spec _ _ _ Ecat) as [Hlen ->].
set (gen := generated _ _ st) in *.
assert (Hrows : rows_extend_context (S j)
                  (map (fun rt => fst rt ++ [snd rt]) (combine gen (fst chosen)))).
{ unfold rows_extend_context in *. rewrite Forall_forall in *.
  intros row Hrow. apply in_map_iff in Hrow.
  destruct Hrow as ([r t] & <- & Hin). simpl.
  apply in_combine_l in Hin. destruct (Hshape r Hin) as [Hctx Hl].
  split.
  - rewrite firstn_app. replace (length context - length r) with 0 by lia.
    simpl. now rewrite app_nil_r.
  - rewrite length_app. simpl. lia. }
assert (Hfirst : forall row0 rest,
           map (fun rt => fst rt ++ [snd rt]) (combine gen (fst chosen)) = row0 :: rest ->
           exists r0 t0 gen1 next1,
             gen = r0 :: gen1 /\ fst chosen = t0 :: next1 /\ row0 = r0 ++ [t0] /\
             length r0 = length context + j).
{ intros row0 rest E. destruct gen as [|r0 gen1]; [discriminate|].
  destruct (fst chosen) as [|t0 next1]; [discriminate|].
  simpl in E. injection E as <- _. exists r0, t0, gen1, next1.
  repeat split; auto.
  unfold rows_extend_context in Hshape. inversion Hshape; subst. tauto. }
split; [|split; [exact Hrows|split; [|split]]].
- rewrite length_map, length_combine. lia.
- intros m Hno Hm stops row0 rest Hs E i Hi Him.
  destruct (Hfirst _ _ E) as (r0 & t0 & gen1 & next1 & Eg & _ & -> & Hl).
  rewrite app_nth1 by lia. eapply Hno; eauto.
- intros -> . unfold stop_check in Estop.
  destruct stop_tokens as [stops|] eqn:Es; [|discriminate].
  destruct (4 <? j) eqn:E4; [|discriminate].
  destruct (fst chosen) as [|t0 next1] eqn:Ec; [discriminate|].
  injection Estop as Hex. apply existsb_exists in Hex.
  destruct Hex as (x & Hx & Heq). apply Nat.eqb_eq in Heq. subst x.
  destruct gen as [|r0 gen1] eqn:Eg; [simpl in Hlen; discriminate|].
  exists stops, (r0 ++ [t0]), (map (fun rt => fst rt ++ [snd rt]) (combine gen1 next1)).
  repeat split; auto.
  + now apply Nat.ltb_lt.
  + inversion Hshape as [|? ? [_ Hl] _]; subst.
    rewrite app_nth2 by lia. replace (length context + j - length r0) with 0 by lia.
    exact Hx.
- intros -> m Hno -> stops row0 rest Hs E i Hi Hij.
  destruct (Hfirst _ _ E) as (r0 & t0 & gen1 & next1 & Eg & Ec & -> & Hl).
  destruct (Nat.eq_dec i j) as [->|Hne].
  + rewrite app_nth2 by lia. replace (length context + j - length r0) with 0 by lia.
    simpl. unfold stop_check in Estop. rewrite Hs in Estop.
    apply Nat.ltb_lt in Hi. rewrite Hi, Ec in Estop.
    injection Estop as Hex. intros Hin.
    assert (existsb (Nat.eqb t0) stops = true); [|congruence].
    apply existsb_exists. exists t0. split; auto. apply Nat.eqb_refl.
  + rewrite app_nth1 by lia. eapply Hno; eauto. lia.
Qed.

Lemma loop_spec k : forall j0 (st st' : state),
  loop (seq j0 k) st = Ok st' ->
  rows_extend_context j0 (generated _ _ st) ->
  no_stop_before j0 (generated _ _ st) ->
  exists n,
    j0 <= n <= j0 + k /\
    length (generated _ _ st') = length (generated _ _ st) /\
    rows_extend_context n (generated _ _ st') /\
    no_stop_before (n - 1) (generated _ _ st') /\
    (n = j0 + k \/ (1 <= n /\ stopped_at (n - 1) (generated _ _ st'))).
Proof.
induction k as [|k IH]; intros j0 st st' Hrun Hshape Hno.
- simpl in Hrun. injection Hrun as <-. exists j0. repeat split; auto; try lia.
  intros stops row0 rest Hs E j Hj Hjm. eapply Hno; eauto. lia.
- simpl in Hrun. fold loop in Hrun.
  change (Sampler.step past rng model multinomial exp sort_desc temperature top_k
            top_p repetition_penalty stop_tokens j0 st) with (step j0 st) in Hrun.
  destruct (step j0 st) as [[st1 brk]|e] eqn:Estep; simpl in Hrun; [|discriminate].
  destruct (step_spec _ _ _ _ Estep Hshape) as (Hlen & Hshape1 & Hkeep & Hbrk & Hcont).
  destruct brk.
  + injection Hrun as <-. exists (S j0). repeat split; auto; try lia.
    * replace (S j0 - 1) with j0 by lia. apply Hkeep; auto.
    * right. split; [lia|]. replace (S j0 - 1) with j0 by lia. auto.
  + destruct (IH (S j0) st1 st' Hrun Hshape1) as (n & Hn & Hlen' & Hsh & Hns & Hend).
    { eapply Hcont; eauto. }
    exists n. repeat split; auto; try lia.
    destruct Hend as [->|Hend]; [left; lia | right; exact Hend].
Qed.

End SamplingFacts.

(** *** Facts about the selection *)

Lemma argmax_from_spec (l : row) : forall (pre : row) best_i best,
  best_i < length pre ->
  nth best_i pre NegInf = best ->
  (forall i, i < length pre -> leb (nth i pre NegInf) best = true) ->
  (forall i, i < best_i -> ltb (nth i pre NegInf) best = true) ->
  let t := argmax_from best_i best (length pre) l in
  t < length (pre ++ l) /\
  (forall i, i < length (pre ++ l) ->
     leb (nth i (pre ++ l) NegInf) (nth t (pre ++ l) NegInf) = true) /\
  (forall i, i < t -> ltb (nth i (pre ++ l) NegInf) (nth t (pre ++ l) NegInf) = true).
Proof.
induction l as [|x l IH]; intros pre best_i best Hbi Hbest Hmax Hfirst; simpl.
- rewrite app_nil_r. rewrite Hbest. auto.
- assert (Epre : pre ++ x :: l = (pre ++ [x]) ++ l) by now rewrite <- app_assoc.
  assert (Elen : S (length pre) = length (pre ++ [x])).
  { rewrite length_app. simpl. lia. }
  assert (Hold : forall i, i < length pre ->
                           nth i (pre ++ [x]) NegInf = nth i pre NegInf).
  { intros i Hi. now apply app_nth1. }
  assert (Hnew : nth (length pre) (pre ++ [x]) NegInf = x).
  { rewrite app_nth2 by lia. now rewrite Nat.sub_diag. }
  rewrite Epre.
  destruct (ltb best x) eqn:E.
  + pose proof (IH (pre ++ [x]) (length pre) x) as IH'.
    rewrite <- Elen in IH'. apply IH'.
    * lia.
    * exact Hnew.
    * intros i Hi.
      destruct (Nat.eq_dec i (length pre)) as [->|Hne].
      -- rewrite Hnew. apply leb_refl.
      -- rewrite Hold by lia. apply ltb_leb.
         eapply leb_ltb_trans; [apply Hmax; lia | exact E].
    * intros i Hi. rewrite Hold by lia.
      eapply leb_ltb_trans; [apply Hmax; lia | exact E].
  + pose proof (IH (pre ++ [x]) best_i best) as IH'.
    rewrite <- Elen in IH'. apply IH'.
    * lia.
    * now rewrite Hold.
    * intros i Hi.
      destruct (Nat.eq_dec i (length pre)) as [->|Hne].
      -- rewrite Hnew. unfold leb. now rewrite E.
      -- rewrite Hold by lia. apply Hmax. lia.
    * intros i Hi. rewrite Hold by lia. now apply Hfirst.
Qed.

(** [argmax] returns the first position that holds the largest score. *)
Lemma argmax_spec (l : row) t :
  argmax l = Ok t ->
  t < length l /\
  (forall i, i < length l -> leb (nth i l NegInf) (nth t l NegInf) = true) /\
  (forall i, i < t -> ltb (nth i l NegInf) (nth t l NegInf) = true).
Proof.
destruct l as [|x l]; simpl; [discriminate|]. intros [= <-].
apply (argmax_from_spec l [x] 0 x); simpl; auto; try lia.
intros [|i] Hi; [apply leb_refl | lia].
Qed.

Lemma scale_positive temperature raw :
  (0 < temperature)%Q ->
  scale temperature raw = map (map (fun s => div s temperature)) raw.
Proof.
intros H. unfold scale.
assert (E : Qgtb temperature 0 = true).
{ unfold Qgtb. apply negb_true_iff, not_true_iff_false.
  rewrite Qle_bool_iff. lra. }
now rewrite E.
Qed.

Lemma scale_zero temperature raw :
  (temperature == 0)%Q -> scale temperature raw = raw.
Proof.
intros H. unfold scale.
assert (E : Qgtb temperature 0 = false).
{ unfold Qgtb. apply negb_false_iff. rewrite Qle_bool_iff. lra. }
rewrite E. rewrite <- (map_id raw) at 2. apply map_ext. intros r.
rewrite <- (map_id r) at 2. apply map_ext. intros x. apply div_one.
Qed.

(** The softmax of a row with a finite entry is a probability
    distribution that gives probability zero exactly to the masked
    entries. *)
Lemma softmax_distribution (exp : Q -> Q) (r : row) :
  (forall q, (0 < exp q)%Q) ->
  Exists (fun x => is_fin x = true) r ->
  length (softmax exp r) = length r /\
  Forall (fun x => 0 <= x)%Q (softmax exp r) /\
  (sumQ (softmax exp r) == 1)%Q /\
  (forall i, i < length r ->
     (nth i (softmax exp r) 0 == 0)%Q <-> nth i r NegInf = NegInf).
Proof.
intros Hexp Hfin.
destruct (softmax_facts exp Hexp r Hfin) as [Hnn Hsum].
split; [unfold softmax; apply length_map|]. split; [exact Hnn|].
split; [exact Hsum|].
intros i Hi. unfold softmax.
set (z := sumQ (map (weight exp) r)).
assert (Hz : (0 < z)%Q).
{ apply sumQ_pos.
  - rewrite Forall_map. rewrite Forall_forall. intros; now apply weight_nonneg.
  - rewrite Exists_map. eapply Exists_impl; [|exact Hfin].
    intros [|q]; simpl; [discriminate|]. intros _. apply Hexp. }
rewrite (nth_map_in (fun s => (weight exp s / z)%Q) r i NegInf 0%Q Hi). simpl.
destruct (nth i r NegInf) as [|q]; simpl.
- split; auto. intros _. unfold Qdiv. ring.
- split; [|discriminate]. intros H. exfalso.
  specialize (Hexp q).
  assert (exp q == 0)%Q; [|lra].
  apply (Qmult_inj_r _ _ (/ z)%Q).
  + intros Hinv. assert (0 < / z)%Q by now apply Qinv_lt_0_compat. lra.
  + unfold Qdiv in H. rewrite H. ring.
Qed.

Section SelectionFacts.
Variable rng : Type.
Variable multinomial : list Q -> rng -> token * rng.
Variable exp : Q -> Q.

Lemma select_row_greedy temperature (r : row) (g : rng) t g' :
  (temperature == 0)%Q ->
  select_row rng multinomial exp temperature r g = Ok (t, g') ->
  g' = g /\ argmax r = Ok t.
Proof.
intros H0. unfold select_row.
apply Qeq_bool_iff in H0. rewrite H0.
destruct (argmax r) as [t0|e]; simpl; [|discriminate].
intros [= <- <-]. auto.
Qed.

Lemma select_row_sampled temperature (r : row) (g : rng) tg :
  (0 < temperature)%Q ->
  select_row rng multinomial exp temperature r g = Ok tg ->
  Exists (fun x => is_fin x = true) r /\
  tg = multinomial (softmax exp r) g.
Proof.
intros Hpos. unfold select_row.
assert (E : Qeq_bool temperature 0 = false).
{ apply not_true_iff_false. rewrite Qeq_bool_iff. lra. }
rewrite E. destruct (existsb is_fin r) eqn:Ex; [|discriminate].
intros [= <-]. split; auto.
apply existsb_exists in Ex. apply Exists_exists. exact Ex.
Qed.

(** [select_rows] chooses row by row, handing the randomness on. *)
Inductive chosen_by (temperature : Q) : list row -> rng -> list token -> rng -> Prop :=
| chosen_nil g : chosen_by temperature [] g [] g
| chosen_cons r rs g t g1 ts g2 :
    select_row rng multinomial exp temperature r g = Ok (t, g1) ->
    chosen_by temperature rs g1 ts g2 ->
    chosen_by temperature (r :: rs) g (t :: ts) g2.

Lemma select_rows_chosen temperature rows : forall g ts g',
  select_rows rng multinomial exp temperature rows g = Ok (ts, g') ->
  chosen_by temperature rows g ts g'.
Proof.
induction rows as [|r rs IH]; intros g ts g'; simpl.
- intros [= <- <-]. constructor.
- destruct (select_row _ _ _ _ r g) as [[t g1]|e] eqn:E; simpl; [|discriminate].
  destruct (select_rows _ _ _ _ rs g1) as [[ts1 g2]|e] eqn:E2; simpl; [|discriminate].
  intros [= <- <-]. econstructor; eauto.
Qed.

End SelectionFacts.

(** *** Further facts about a step *)

Lemma select_rows_length rng multinomial exp temperature rows : forall g ts g',
  select_rows rng multinomial exp temperature rows g = Ok (ts, g') ->
  length ts = length rows.
Proof.
induction rows as [|r rs IH]; intros g ts g'; simpl.
- intros [= <- <-]. reflexivity.
- destruct (select_row _ _ _ _ r g) as [[t g1]|e]; simpl; [|discriminate].
  destruct (select_rows _ _ _ _ rs g1) as [[ts1 g2]|e] eqn:E; simpl; [|discriminate].
  intros [= <- <-]. simpl. now rewrite (IH _ _ _ E).
Qed.

(** The input of the next call of the model: the last token of every
    row. *)
Lemma cat_last generated next generated' :
  cat generated next = Ok generated' ->
  map (fun row => [last row 0]) generated' = map (fun t => [t]) next.
Proof.
revert next generated'.
induction generated as [|r gen IH]; intros [|t next] gen'; simpl;
  try discriminate.
- intros [= <-]. reflexivity.
- destruct (cat gen next) as [rest|e] eqn:E; simpl; [|discriminate].
  intros [= <-]. simpl. rewrite last_last. f_equal. now apply IH.
Qed.

(** A token outside the vocabulary makes the penalty loop raise. *)
Lemma foldM_divide_at_outside penalty (ks : list token) : forall (logits : row) k,
  In k ks -> length logits <= k ->
  foldM (divide_at penalty) ks logits = Raise IndexError.
Proof.
induction ks as [|k0 ks IH]; intros logits k Hin Hk; [destruct Hin|].
simpl. unfold divide_at at 1.
destruct (k0 <? length logits) eqn:E; simpl; [|reflexivity].
apply Nat.ltb_lt in E.
destruct Hin as [->|Hin]; [lia|].
apply (IH _ k Hin). now rewrite set_nth_length.
Qed.

(** *** Collaborators to run examples with *)

(** A deterministic stub of the scoring model: the same scores for every
    row, whatever the input. *)
Definition fixed_scores_model (scores : row)
  : list (list token) -> option unit -> result (list row * unit) :=
  fun input_ids _ => Ok (map (fun _ => scores) input_ids, tt).

(** Drawing by inversion: the randomness is a stream of numbers [u] in
    [0,1), and the token drawn is the first one at which the cumulative
    probability exceeds [u]. *)
Fixpoint first_above (u : Q) (i : nat) (cumulative : list Q) : nat :=
  match cumulative with
  | [] => i
  | c :: cs => if Qgtb c u then i else first_above u (S i) cs
  end.

Definition draw_by_inversion (probs : list Q) (us : list Q) : token * list Q :=
  match us with
  | [] => (first_above 0 0 (cumsum probs), [])
  | u :: us' => (first_above u 0 (cumsum probs), us')
  end.


(** A stub that scores token 2 highest, and a state at the start of the
    loop: one row, the context [1; 3]. *)
Definition example_model := fixed_scores_model [Fin 0; Fin 1; Fin 3; Fin 2].

Definition example_state : state unit (list Q) :=
  {| generated := [[1; 3]]; next_token := [[1; 3]];
     outputs_past := None; randomness := [1#2; 1#3]%Q |}.

Definition example_state_after : state unit (list Q) :=
  {| generated := [[1; 3; 2]]; next_token := [[2]];
     outputs_past := Some tt; randomness := [1#3]%Q |}.

(** A state whose next draw depends on the scaling: with the number
    [3/4] token 2 is drawn from the scores divided by the temperature
    [1/2], and token 3 from the scores as they are. *)
Definition scaling_state : state unit (list Q) :=
  {| generated := [[1; 3]]; next_token := [[1; 3]];
     outputs_past := None; randomness := [3#4; 1#3]%Q |}.

Definition scaling_state_after : state unit (list Q) :=
  {| generated := [[1; 3; 2]]; next_token := [[2]];
     outputs_past := Some tt; randomness := [1#3]%Q |}.

End Sampler.

(** ** Text *)

(** Python strings, with the characters of code points below 256. *)
Module Text.
Local Open Scope string_scope.

Definition dquote : ascii := "034"%char.
Definition newline : ascii := "010"%char.

(** [s.find(sub)]: the lowest index at which [sub] occurs, or [-1]. *)
Fixpoint find_from (sub s : string) (i : Z) : Z :=
  if prefix sub s then i
  else match s with
       | EmptyString => (-1)%Z
       | String _ s' => find_from sub s' (i + 1)%Z
       end.

Definition find (s sub : string) : Z := find_from sub s 0%Z.

(** [s[:n]] for [n >= 0]. *)
Fixpoint take (n : nat) (s : string) : string :=
  match n, s with
  | S n', String c s' => String c (take n' s')
  | _, _ => EmptyString
  end.

(** [s[:index]], where [index] is [None] or an integer; a negative
    integer counts from the end. *)
Definition slice_to (s : string) (index : option Z) : string :=
  match index with
  | None => s
  | Some i =>
      if (i <? 0)%Z then take (Z.to_nat (Z.of_nat (String.length s) + i)) s
      else take (Z.to_nat i) s
  end.

(** [s.replace(old, new)]: the occurrences of [old] are found from left
    to right and do not overlap; [skip] counts the characters of an
    occurrence that are still to be passed over. *)
Fixpoint replace_go (old new : string) (skip : nat) (s : string) : string :=
  match s with
  | EmptyString => EmptyString
  | String c s' =>
      match skip with
      | S k => replace_go old new k s'
      | O =>
          if prefix old s
          then new ++ replace_go old new (String.length old - 1) s'
          else String c (replace_go old new 0 s')
      end
  end.

(** With an empty [old], [new] is put before every character and at the
    end. *)
Fixpoint intersperse (new s : string) : string :=
  match s with
  | EmptyString => new
  | String c s' => new ++ String c (intersperse new s')
  end.

Definition replace (s old new : string) : string :=
  match old with
  | EmptyString => intersperse new s
  | String _ _ => replace_go old new 0 s
  end.

(** [c.isupper()] and [c.lower()] for a single character: the upper case
    letters below 256 are [A-Z] and the letters from [0xC0] to [0xDE]
    without the multiplication sign [0xD7]; each has its lower case
    letter 32 places further.  Beyond 255 there are upper case letters
    without a lower case letter and letters that are not upper case and
    that [lower] changes, so of the two functions only what holds of
    every character is used below: an upper case letter is none of the
    characters that [result_replace] replaces; [lower] makes [#], [*] and
    the double quote from themselves only; a second [lower] changes
    nothing. *)
Definition isupper (c : ascii) : bool :=
  let n := nat_of_ascii c in
  (((65 <=? n) && (n <=? 90)) ||
   ((192 <=? n) && (n <=? 222) && negb (n =? 215)))%nat.

Definition lower (c : ascii) : ascii :=
  if isupper c then ascii_of_nat (nat_of_ascii c + 32) else c.

(** [str(n)] for an integer. *)
Definition str (n : Z) : string := NilZero.string_of_int (Z.to_int n).

(** *** Facts about [find], [take] and [replace] *)

(** The characters of a string. *)
Definition chars (s : string) : list ascii := list_ascii_of_string s.

Lemma prefix_empty s : prefix EmptyString s = true.
Proof. destruct s; reflexivity. Qed.

Lemma prefix_of_empty sub : sub <> EmptyString -> prefix sub EmptyString = false.
Proof. destruct sub; [congruence | reflexivity]. Qed.

Lemma prefix_cons sub c s :
  prefix sub (String c s) =
  match sub with
  | EmptyString => true
  | String a sub' => if ascii_dec a c then prefix sub' s else false
  end.
Proof. destruct sub; reflexivity. Qed.

Lemma find_from_cons sub c s i :
  find_from sub (String c s) i =
  if prefix sub (String c s) then i else find_from sub s (i + 1)%Z.
Proof. reflexivity. Qed.

Lemma replace_go_cons old new c s :
  replace_go old new 0 (String c s) =
  if prefix old (String c s)
  then (new ++ replace_go old new (String.length old - 1) s)%string
  else String c (replace_go old new 0 s).
Proof. reflexivity. Qed.

Lemma find_from_nil sub i :
  find_from sub EmptyString i = if prefix sub EmptyString then i else (-1)%Z.
Proof. reflexivity. Qed.

(** [find] returns [-1] or an index of the string. *)
Lemma find_from_range sub s : forall i,
  find_from sub s i = (-1)%Z \/
  (i <= find_from sub s i <= i + Z.of_nat (String.length s))%Z.
Proof.
induction s as [|c s IH]; intros i.
- rewrite find_from_nil.
  destruct (prefix sub EmptyString); [right; simpl; lia | now left].
- rewrite find_from_cons. destruct (prefix sub (String c s)).
  + right. simpl String.length. lia.
  + destruct (IH (i + 1)%Z) as [H|H]; [now left|].
    right. simpl String.length. lia.
Qed.

(** A prefix of a prefix of [s] is a prefix of [s]. *)
Lemma prefix_take sub : forall n s,
  prefix sub (take n s) = true -> prefix sub s = true.
Proof.
induction sub as [|a sub IH]; intros n s; [intros _; apply prefix_empty|].
destruct n as [|n], s as [|c s]; simpl take; try discriminate.
rewrite !prefix_cons. destruct (ascii_dec a c); [apply IH | discriminate].
Qed.

(** The text before the first occurrence of [sub] does not hold [sub]. *)
Lemma find_from_take sub :
  sub <> EmptyString ->
  forall s i k j,
    find_from sub s i = (i + Z.of_nat k)%Z -> (0 <= i)%Z ->
    find_from sub (take k s) j = (-1)%Z.
Proof.
intros Hne. induction s as [|c s IH]; intros i k j Hf Hi.
- rewrite find_from_nil, prefix_of_empty in Hf by exact Hne. lia.
- rewrite find_from_cons in Hf.
  destruct (prefix sub (String c s)) eqn:Ep.
  + assert (k = 0) by lia. subst k. simpl take.
    now rewrite find_from_nil, prefix_of_empty by exact Hne.
  + destruct k as [|k].
    { destruct (find_from_range sub s (i + 1)%Z) as [H|H]; lia. }
    simpl take. rewrite find_from_cons.
    destruct (prefix sub (String c (take k s))) eqn:Ep'.
    * apply (prefix_take sub (S k) (String c s)) in Ep'. congruence.
    * apply (IH (i + 1)%Z k); lia.
Qed.

Lemma chars_append a b : chars (a ++ b) = (chars a ++ chars b)%list.
Proof. induction a as [|c a IH]; simpl; auto. now rewrite IH. Qed.

(** [replace] brings no character that is not in the string or in
    [new]. *)
Lemma replace_go_chars old new s : forall skip x,
  In x (chars (replace_go old new skip s)) -> In x (chars s) \/ In x (chars new).
Proof.
induction s as [|c s IH]; intros skip x; [simpl; tauto|].
destruct skip as [|k].
- rewrite replace_go_cons. destruct (prefix old (String c s)).
  + rewrite chars_append. intros H. apply in_app_or in H.
    destruct H as [H|H]; [now right|].
    destruct (IH _ _ H); [left; now right | now right].
  + simpl. intros [->|H]; [left; now left|].
    destruct (IH _ _ H); [left; now right | now right].
- simpl. intros H. destruct (IH _ _ H); [left; now right | now right].
Qed.

Lemma replace_chars s old new x :
  old <> EmptyString ->
  In x (chars (replace s old new)) -> In x (chars s) \/ In x (chars new).
Proof.
intros Hne. unfold replace. destruct old as [|c old]; [congruence|].
apply replace_go_chars.
Qed.

(** Replacing a character by nothing removes it. *)
Lemma replace_char_removed c s :
  ~ In c (chars (replace s (String c EmptyString) EmptyString)).
Proof.
unfold replace. induction s as [|d s IH]; [simpl; tauto|].
rewrite replace_go_cons, prefix_cons, prefix_empty. simpl String.length.
destruct (ascii_dec c d) as [->|N]; simpl.
- exact IH.
- intros [->|H]; [congruence | contradiction].
Qed.

(** [find] for a single character. *)
Lemma find_char_absent c s :
  ~ In c (chars s) -> find s (String c EmptyString) = (-1)%Z.
Proof.
unfold find. generalize 0%Z. induction s as [|d s IH]; intros i Hn.
- reflexivity.
- rewrite find_from_cons, prefix_cons, prefix_empty.
  destruct (ascii_dec c d) as [->|N]; [exfalso; apply Hn; now left|].
  apply IH. intros H. apply Hn. now right.
Qed.

(** A character that does not start [old] stays in front. *)
Lemma replace_keeps_head c s a old new :
  c <> a -> replace (String c s) (String a old) new
            = String c (replace s (String a old) new).
Proof.
intros N. unfold replace. rewrite replace_go_cons, prefix_cons.
destruct (ascii_dec a c); [congruence | reflexivity].
Qed.

(** Putting a character in lower case a second time changes nothing, and
    [lower] neither makes nor unmakes a double quote; both hold of
    [str.lower] on every character. *)
Lemma lower_lower c : lower (lower c) = lower c.
Proof.
destruct c as [[] [] [] [] [] [] [] []]; reflexivity.
Qed.

Lemma lower_dquote c : Ascii.eqb (lower c) dquote = Ascii.eqb c dquote.
Proof.
destruct c as [[] [] [] [] [] [] [] []]; reflexivity.
Qed.

(** *** What one pass of [replace] does to the length and to the places
    of a character *)

Lemma length_append a b :
  String.length (a ++ b) = String.length a + String.length b.
Proof. induction a as [|c a IH]; simpl; auto. Qed.

Lemma prefix_pair a b s :
  prefix (String a (String b EmptyString)) s = true ->
  exists t, s = String a (String b t).
Proof.
destruct s as [|c s]; [discriminate|]. rewrite prefix_cons.
destruct (ascii_dec a c) as [<-|]; [|discriminate].
destruct s as [|d s]; [discriminate|]. rewrite prefix_cons.
destruct (ascii_dec b d) as [<-|]; [|discriminate]. eauto.
Qed.

Lemma prefix_pair_here a b t :
  prefix (String a (String b EmptyString)) (String a (String b t)) = true.
Proof.
rewrite !prefix_cons.
destruct (ascii_dec a a); [|congruence].
destruct (ascii_dec b b); [|congruence]. apply prefix_empty.
Qed.

(** An occurrence of a pattern of two characters is passed over as a
    whole. *)
Lemma replace_go_pair a b new t :
  replace_go (String a (String b EmptyString)) new 0 (String a (String b t))
  = new ++ replace_go (String a (String b EmptyString)) new 0 t.
Proof. rewrite replace_go_cons, prefix_pair_here. reflexivity. Qed.

(** Induction along the steps of [replace] for a pattern of two
    characters: over an occurrence, or over one character. *)
Lemma pair_pattern_ind (a b : ascii) (P : string -> Prop) :
  P EmptyString ->
  (forall t, P t -> P (String a (String b t))) ->
  (forall c s,
     prefix (String a (String b EmptyString)) (String c s) = false ->
     P s -> P (String c s)) ->
  forall s, P s.
Proof.
intros H0 Hm Hs s.
assert (H : forall n s, String.length s <= n -> P s).
{ induction n as [|n IH]; intros [|c s'] Hl; auto; simpl in Hl; try lia.
  destruct (prefix (String a (String b EmptyString)) (String c s')) eqn:E.
  - destruct (prefix_pair _ _ _ E) as [t Et]. rewrite Et. apply Hm.
    apply IH. injection Et as _ ->. simpl in Hl. lia.
  - apply Hs; auto. apply IH. lia. }
apply (H (String.length s)). lia.
Qed.

(** Replacing a pattern of two characters by less makes the text
    shorter, unless the pattern does not occur. *)
Lemma replace_pair_shorter a b new s :
  String.length new < 2 ->
  String.length (replace s (String a (String b EmptyString)) new)
  <= String.length s /\
  (String.length (replace s (String a (String b EmptyString)) new)
   = String.length s ->
   forall j, find_from (String a (String b EmptyString)) s j = (-1)%Z).
Proof.
intros Hnew. unfold replace. pattern s. apply (pair_pattern_ind a b).
- split; [reflexivity|]. intros _ j. reflexivity.
- intros t [IH _]. rewrite replace_go_pair, length_append.
  simpl String.length in *. split; [lia|]. intros H. lia.
- intros c t E [IH1 IH2]. rewrite replace_go_cons, E.
  simpl String.length. split; [lia|].
  intros H j. rewrite find_from_cons, E. apply IH2. lia.
Qed.

(** Replacing a character by nothing makes the text shorter, unless the
    character does not occur. *)
Lemma replace_char_shorter c s :
  String.length (replace s (String c EmptyString) EmptyString)
  <= String.length s /\
  (String.length (replace s (String c EmptyString) EmptyString)
   = String.length s -> ~ In c (chars s)).
Proof.
unfold replace. induction s as [|d s [IH1 IH2]].
- split; [reflexivity|]. intros _ [].
- rewrite replace_go_cons, prefix_cons, prefix_empty.
  destruct (ascii_dec c d) as [->|N].
  + simpl. split; [lia|]. intros H. lia.
  + simpl. split; [lia|]. intros H [E|Hin]; [congruence|].
    apply IH2; [lia | exact Hin].
Qed.

(** The sum of the places, counted from [i], at which a text holds the
    character [b]. *)
Fixpoint places (b : ascii) (i : nat) (s : string) : nat :=
  match s with
  | EmptyString => 0
  | String c s' => (if Ascii.eqb c b then i else 0) + places b (S i) s'
  end.

(** Replacing [ab] by [ba] keeps the length and moves each [b] of an
    occurrence one place to the front. *)
Lemma replace_swap a b s :
  a <> b ->
  forall i,
    String.length (replace s (String a (String b EmptyString))
                           (String b (String a EmptyString)))
    = String.length s /\
    places b i (replace s (String a (String b EmptyString))
                        (String b (String a EmptyString)))
    <= places b i s /\
    (places b i (replace s (String a (String b EmptyString))
                         (String b (String a EmptyString)))
     = places b i s ->
     forall j, find_from (String a (String b EmptyString)) s j = (-1)%Z).
Proof.
intros N. unfold replace. pattern s. apply (pair_pattern_ind a b).
- intros i. repeat split. simpl. lia.
- intros t IH i. destruct (IH (S (S i))) as (IH1 & IH2 & _).
  rewrite replace_go_pair. simpl append. simpl String.length.
  cbn [places]. rewrite Ascii.eqb_refl.
  assert (E : Ascii.eqb a b = false) by now apply Ascii.eqb_neq.
  rewrite E. repeat split; try lia.
- intros c t E IH i. destruct (IH (S i)) as (IH1 & IH2 & IH3).
  rewrite replace_go_cons, E. simpl String.length. cbn [places].
  repeat split; try lia.
  intros H j. rewrite find_from_cons, E. apply IH3. lia.
Qed.

End Text.

(** ** [GPT2Generator] *)

Module Generator.
Import Text.
Local Open Scope string_scope.

(** [prompt_replace]: a last character that is a space is dropped. *)
Fixpoint prompt_replace (prompt : string) : string :=
  match prompt with
  | EmptyString => EmptyString
  | String c EmptyString => if Ascii.eqb c " " then EmptyString else prompt
  | String c rest => String c (prompt_replace rest)
  end.

(** Modelled from the spec: the characters at which
    [cut_trailing_sentence] of [story/utils.py], which is not among the
    sources, lets a text end: sentence-ending punctuation, and with
    [allow_action] the action marker [>] too. *)
Definition ends_sentence (allow_action : bool) (c : ascii) : bool :=
  Ascii.eqb c "." || Ascii.eqb c "!" || Ascii.eqb c "?" ||
  (allow_action && Ascii.eqb c ">").

(** Modelled from the spec: [cut_trailing_sentence] of [story/utils.py],
    which is not among the sources.  The content after the last
    character that ends a sentence is dropped.  A text without any
    sentence end is taken to be one incomplete sentence and is dropped
    whole. *)
Fixpoint cut_trailing_sentence (text : string) (allow_action : bool) : string :=
  match text with
  | EmptyString => EmptyString
  | String c rest =>
      match cut_trailing_sentence rest allow_action with
      | EmptyString =>
          if ends_sentence allow_action c then String c EmptyString
          else EmptyString
      | String _ _ as kept => String c kept
      end
  end.

Definition dot_quote : string := String "." (String dquote EmptyString).
Definition quote_dot : string := String dquote (String "." EmptyString).
Definition two_newlines : string := String newline (String newline EmptyString).
Definition one_newline : string := String newline EmptyString.

Section ResultReplace.
(** [cut_trailing_sentence], imported from [story.utils]. *)
Variable cut : string -> bool -> string.

(** [result_replace]; [result[0]] raises on an empty string. *)
Definition result_replace (res : string) (allow_action : bool) : result string :=
  let res := cut res allow_action in
  match res with
  | EmptyString => Ok EmptyString
  | String first _ =>
      let first_letter_capitalized := isupper first in
      let res := replace res dot_quote quote_dot in
      let res := replace res "#" EmptyString in
      let res := replace res "*" EmptyString in
      let res := replace res two_newlines one_newline in
      if negb first_letter_capitalized then
        match res with
        | EmptyString => Raise IndexError
        | String c rest => Ok (String (lower c) rest)
        end
      else Ok res
  end.
End ResultReplace.

(** What [generate] writes to the log; the [logger.debug] line inside
    [result_replace] is left out. *)
Inductive log_entry : Type :=
| BeforePromptReplace (prompt : list string)
| GeneratedResult (text : string)
| FormatLess (text res : string)
| TryingAgain (depth : Z)
| GaveUp (depth : Z).

(** The number of retries that are left at a depth. *)
Definition retries_left (depth : Z) : nat := Z.to_nat (20 - depth).
Arguments retries_left : simpl never.

Lemma retries_left_decreases depth :
  (depth < 20)%Z -> retries_left (depth + 1) < retries_left depth.
Proof. unfold retries_left. lia. Qed.

Section GPT2Generator.
(** The collaborators of a generator: the tokenizer; the method
    [sample_sequence], which runs the model and consumes the state
    [world] of the random number generator; [cut_trailing_sentence]; and
    the fields [max_history_tokens] and [stop_token].  [samples] and
    [batch_size] are both 1. *)
Variable world : Type.
Variable encode : string -> Z -> list token.
Variable encode_tokens : list string -> list token.
Variable decode : list token -> string.
Variable sample_sequence :
  list token -> option (list token) -> world -> result (list (list token) * world).
Variable cut : string -> bool -> string.
Variable max_history_tokens : Z.
Variable stop_token : string.

(** [index = text.find(self.stop_token)], [None] for [-1], and
    [text = text[:index]]. *)
Definition cut_at_stop_token (text : string) : string :=
  let index := find text stop_token in
  let index := if (index =? -1)%Z then None else Some index in
  slice_to text index.

(** The body of [for o in out], which leaves its result in [text]. *)
Definition decode_row (stop_tokens : option (list token)) (o : list token)
  : string :=
  let text := decode o in
  let text :=
    match stop_token with
    | EmptyString => text
    | String _ _ => cut_at_stop_token text
    end in
  match stop_tokens with
  | None => text
  | Some stops =>
      (* [for stop_token in stop_tokens]: the body reads [self.stop_token] *)
      fold_left (fun text (_ : token) => cut_at_stop_token text) stops text
  end.

Definition generate_raw (prompt : list string) (stop_tokens : option (list token))
           (w : world) : result (string * world) :=
  let context_tokens := map (fun p => encode p max_history_tokens) prompt in
  let truncated := Truncate.truncate_segments context_tokens max_history_tokens in
  let* _ := snd truncated in
  let context_tokens := concat (fst truncated) in
  let* sampled := sample_sequence context_tokens stop_tokens w in
  let out := map (skipn (length context_tokens)) (fst sampled) in
  match rev out with
  | [] => Raise UnboundLocalError
  | o :: _ => Ok (decode_row stop_tokens o, snd sampled)
  end.

(** One call of [generate] up to the point where it returns or calls
    itself. *)
Inductive attempt : Type :=
| Return (r : result (string * world))
| Recurse (prompt : list string) (w : world).

Definition is_empty (s : string) : bool :=
  match s with EmptyString => true | String _ _ => false end.

Definition generate_body (prompt : list string) (depth : Z) (w : world)
  : list log_entry * attempt :=
  let log := [BeforePromptReplace prompt] in
  let prompt := map prompt_replace prompt in
  match generate_raw prompt (Some (encode_tokens ["<|endoftext|>"; ">"])) w with
  | Raise e => (log, Return (Raise e))
  | Ok (text, w) =>
      let log := (log ++ [GeneratedResult text])%list in
      match result_replace cut text false with
      | Raise e => (log, Return (Raise e))
      | Ok res =>
          let relaxed :=
            if (depth >? 6)%Z && is_empty res then
              match result_replace cut text true with
              | Raise e => Raise e
              | Ok res => Ok (res, (log ++ [FormatLess text res])%list)
              end
            else Ok (res, log) in
          match relaxed with
          | Raise e => (log, Return (Raise e))
          | Ok (res, log) =>
              if is_empty res then
                if (depth <? 20)%Z then
                  ((log ++ [TryingAgain depth])%list,
                   Recurse (prompt ++ [(" " ++ str depth)%string])%list w)
                else ((log ++ [GaveUp depth])%list, Return (Ok (res, w)))
              else (log, Return (Ok (res, w)))
          end
      end
  end.

Lemma generate_body_recurse prompt depth w log prompt' w' :
  generate_body prompt depth w = (log, Recurse prompt' w') -> (depth < 20)%Z.
Proof.
unfold generate_body.
destruct (generate_raw _ _ _) as [[text w1]|e]; [|discriminate].
destruct (result_replace cut text false) as [res|e]; [|discriminate].
destruct ((depth >? 6)%Z && is_empty res).
- destruct (result_replace cut text true) as [res'|e]; [|discriminate].
  destruct (is_empty res'); [|discriminate].
  destruct (depth <? 20)%Z eqn:E; [|discriminate]. intros _. lia.
- destruct (is_empty res); [|discriminate].
  destruct (depth <? 20)%Z eqn:E; [|discriminate]. intros _. lia.
Qed.

(** [generate]; the arguments [options] and [seed] are not read.  The
    recursion ends because the depth grows towards 20. *)
Equations? generate (prompt : list string) (depth : Z) (w : world)
  : list log_entry * result (string * world) by wf (retries_left depth) lt :=
generate prompt depth w with inspect (generate_body prompt depth w) := {
  | exist _ (log, Return r) _ => (log, r)
  | exist _ (log, Recurse prompt' w') E =>
      let rest := generate prompt' (depth + 1) w' in
      ((log ++ fst rest)%list, snd rest) }.
Proof. apply generate_body_recurse in E. now apply retries_left_decreases. Qed.

End GPT2Generator.

Arguments Return {world} r.
Arguments Recurse {world} prompt w.

(** *** Facts about [replace] and [result_replace] *)

Lemma find_from_absent sub s i :
  (0 <= i)%Z -> find_from sub s i = (-1)%Z ->
  prefix sub s = false /\
  match s with
  | EmptyString => True
  | String _ s' => find_from sub s' (i + 1)%Z = (-1)%Z
  end.
Proof.
intros Hi. destruct s as [|c s'].
- destruct sub; simpl; intros H; [exfalso; lia | auto].
- change (find_from sub (String c s') i)
    with (if prefix sub (String c s') then i else find_from sub s' (i + 1)%Z).
  destruct (prefix sub (String c s')) eqn:E; intros H; [exfalso; lia | auto].
Qed.

Lemma replace_go_absent old new s : forall i,
  (0 <= i)%Z -> find_from old s i = (-1)%Z -> replace_go old new 0 s = s.
Proof.
induction s as [|c s IH]; intros i Hi Hf; [reflexivity|].
destruct (find_from_absent _ _ _ Hi Hf) as [Hp Hrest].
change (replace_go old new 0 (String c s))
  with (if prefix old (String c s)
        then (new ++ replace_go old new (String.length old - 1) s)%string
        else String c (replace_go old new 0 s)).
rewrite Hp. f_equal. apply (IH (i + 1)%Z); [lia | exact Hrest].
Qed.

(** Replacing a string that does not occur changes nothing. *)
Lemma replace_absent s old new :
  old <> EmptyString -> find s old = (-1)%Z -> replace s old new = s.
Proof.
intros Hne Hf. unfold replace. destruct old as [|c old]; [congruence|].
now apply (replace_go_absent _ _ _ 0%Z).
Qed.

(** *** Facts about [generate] *)

(** The prompt a call at [depth] passes on when it tries again. *)
Definition retry_prompt (prompt : list string) (depth : Z) : list string :=
  (map prompt_replace prompt ++ [(" " ++ str depth)%string])%list.

(** What a call at [depth] logs when it generated [text] and found its
    result empty. *)
Definition empty_attempt_log (prompt : list string) (depth : Z) (text : string)
  : list log_entry :=
  ([BeforePromptReplace prompt; GeneratedResult text]
   ++ (if (depth >? 6)%Z then [FormatLess text EmptyString] else [])
   ++ [if (depth <? 20)%Z then TryingAgain depth else GaveUp depth])%list.

(** The log of successive calls that all found their result empty, the
    first one at [depth], one text per call. *)
Fixpoint empty_attempts_log (prompt : list string) (depth : Z)
         (texts : list string) : list log_entry :=
  match texts with
  | [] => []
  | text :: texts' =>
      (empty_attempt_log prompt depth text
       ++ empty_attempts_log (retry_prompt prompt depth) (depth + 1) texts')%list
  end.

(** The number of times [generate] called itself, by the log. *)
Definition recursions (log : list log_entry) : nat :=
  count (fun e => match e with TryingAgain _ => true | _ => false end) log.

Section GenerateFacts.
Variable world : Type.
Variable encode : string -> Z -> list token.
Variable encode_tokens : list string -> list token.
Variable decode : list token -> string.
Variable sample_sequence :
  list token -> option (list token) -> world -> result (list (list token) * world).
Variable cut : string -> bool -> string.
Variable max_history_tokens : Z.
Variable stop_token : string.

Let generate_raw :=
  generate_raw world encode decode sample_sequence max_history_tokens stop_token.
Let generate_body :=
  generate_body world encode encode_tokens decode sample_sequence cut
                max_history_tokens stop_token.
Let generate :=
  generate world encode encode_tokens decode sample_sequence cut
           max_history_tokens stop_token.

(** The first [n] attempts of the run that starts with [prompt] at
    [depth] in the state [w] are empty: the attempt generates a text
    whose post-processed form is empty, also with [allow_action] when its
    depth is beyond 6, and the attempts that follow start from the
    prompt, the depth and the state that [generate] passes on. *)
Fixpoint empty_attempts (n : nat) (prompt : list string) (depth : Z) (w : world)
  : Prop :=
  match n with
  | 0 => True
  | S n' =>
      exists text w',
        generate_raw (map prompt_replace prompt)
                     (Some (encode_tokens ["<|endoftext|>"; ">"])) w
        = Ok (text, w') /\
        result_replace cut text false = Ok EmptyString /\
        ((6 < depth)%Z -> result_replace cut text true = Ok EmptyString) /\
        empty_attempts n' (retry_prompt prompt depth) (depth + 1) w'
  end.

Lemma generate_once prompt depth w :
  generate prompt depth w =
  match generate_body prompt depth w with
  | (log, Return r) => (log, r)
  | (log, Recurse prompt' w') =>
      let rest := generate prompt' (depth + 1)%Z w' in
      ((log ++ fst rest)%list, snd rest)
  end.
Proof.
unfold generate, generate_body.
funelim (Generator.generate world encode encode_tokens decode sample_sequence cut
           max_history_tokens stop_token prompt depth w);
  match goal with E : Generator.generate_body _ _ _ _ _ _ _ _ _ _ _ = _ |- _ =>
    rewrite E end; reflexivity.
Qed.

Lemma generate_body_empty prompt depth w text w' :
  generate_raw (map prompt_replace prompt)
               (Some (encode_tokens ["<|endoftext|>"; ">"])) w
  = Ok (text, w') ->
  result_replace cut text false = Ok EmptyString ->
  ((6 < depth)%Z -> result_replace cut text true = Ok EmptyString) ->
  generate_body prompt depth w =
  (empty_attempt_log prompt depth text,
   if (depth <? 20)%Z then Recurse (retry_prompt prompt depth) w'
   else Return (Ok (EmptyString, w'))).
Proof.
intros Hraw Hres Hrelaxed.
unfold generate_body, Generator.generate_body. fold generate_raw.
rewrite Hraw, Hres. unfold empty_attempt_log, retry_prompt. simpl is_empty.
rewrite andb_true_r.
destruct (depth >? 6)%Z eqn:E6.
- rewrite Hrelaxed by lia. simpl.
  destruct (depth <? 20)%Z; reflexivity.
- simpl. destruct (depth <? 20)%Z; reflexivity.
Qed.

Lemma generate_empty n : forall prompt depth w,
  retries_left depth = n ->
  empty_attempts (S n) prompt depth w ->
  exists texts w',
    length texts = S n /\
    generate prompt depth w
    = (empty_attempts_log prompt depth texts, Ok (EmptyString, w')).
Proof.
induction n as [|n IH]; intros prompt depth w Hn
    (text & w' & Hraw & Hres & Hrelaxed & Hrest);
  rewrite generate_once,
    (generate_body_empty prompt depth w text w' Hraw Hres Hrelaxed);
  unfold retries_left in Hn.
- assert (E : (depth <? 20)%Z = false) by (apply Z.ltb_ge; lia).
  rewrite E. exists [text], w'. simpl. now rewrite app_nil_r.
- assert (E : (depth <? 20)%Z = true) by (apply Z.ltb_lt; lia).
  rewrite E.
  destruct (IH (retry_prompt prompt depth) (depth + 1)%Z w')
    as (texts & w'' & Hlen & Hrun); [unfold retries_left; lia | exact Hrest |].
  exists (text :: texts), w''. split; [simpl; lia|].
  rewrite Hrun. reflexivity.
Qed.

End GenerateFacts.

(** The method [GPT2Generator.sample_sequence], called without
    [generate_num] and [temperature] as [generate_raw] calls it: the
    function [sample_sequence] on the fields of the generator, with
    [num_samples = self.samples = 1]. *)
Definition sample_sequence_method (past rng : Type)
           (model : list (list token) -> option past -> result (list Filter.row * past))
           (multinomial : list Q -> rng -> token * rng)
           (exp : Q -> Q) (sort_desc : Filter.row -> list nat)
           (generate_num : Z) (temp : Q) (top_k : Z)
           (top_p repetition_penalty : Q)
  : list token -> option (list token) -> rng -> result (list (list token) * rng) :=
  fun context_tokens stop_tokens g =>
    Sampler.sample_sequence past rng model multinomial exp sort_desc temp top_k
      top_p repetition_penalty stop_tokens generate_num context_tokens 1 g.

(** *** Collaborators to run examples with *)

(** A tokenizer that encodes every text to no token and decodes every
    sequence to the empty text, and a sampler that adds no token. *)
Definition stub_encode : string -> Z -> list token := fun _ _ => [].
Definition stub_encode_tokens : list string -> list token := fun _ => [0; 1].
Definition stub_decode : list token -> string := fun _ => EmptyString.
Definition stub_sampler
  : list token -> option (list token) -> unit -> result (list (list token) * unit) :=
  fun context _ w => Ok ([context], w).

Lemma truncate_segments_empty (segs : list (list token)) (max_len : Z) :
  (0 <= max_len)%Z -> Forall (fun s => s = []) segs ->
  Truncate.truncate_segments segs max_len = (segs, Ok tt).
Proof.
intros Hmax Hall. unfold Truncate.truncate_segments.
rewrite Truncate.truncate_multiple_sequences_once.
unfold Truncate.loop_body.
rewrite Truncate.total_zero.
- assert (E : (Z.of_nat 0 >? max_len)%Z = false).
  { rewrite Z.gtb_ltb. apply Z.ltb_ge. lia. }
  now rewrite E.
- intros r _. unfold Truncate.len, Truncate.deref.
  destruct (Nat.lt_ge_cases r (length segs)) as [Hr|Hr].
  + rewrite Forall_forall in Hall. rewrite (Hall (nth r segs [])); auto.
    now apply nth_In.
  + now rewrite nth_overflow.
Qed.

(** A tokenizer with a small vocabulary; tokens 0 and 1 are the two stop
    tokens of [generate]. *)
Definition example_piece (t : token) : string :=
  match t with
  | 0 => "<|endoftext|>"
  | 1 => ">"
  | 2 => "You"
  | 3 => " look"
  | _ => "."
  end.

Definition example_decode (o : list token) : string :=
  String.concat EmptyString (map example_piece o).

(** The treatment of the stop tokens as the specification words it: for
    each stop token, the text is cut at the first occurrence of the text
    form of that stop token, if there is one. *)
Definition cut_at_each_stop_text (decode : list token -> string)
           (stop_tokens : list token) (text : string) : string :=
  fold_left
    (fun text stop =>
       let index := find text (decode [stop]) in
       slice_to text (if (index =? -1)%Z then None else Some index))
    stop_tokens text.

(** *** Further facts about the text functions *)

Lemma prompt_replace_trailing_space s :
  prompt_replace (s ++ " ") = s.
Proof.
induction s as [|c s IH]; [reflexivity|].
simpl append. destruct s as [|d s]; simpl in *; [reflexivity|].
now rewrite IH.
Qed.

Lemma prompt_replace_other_end s c :
  c <> " "%char -> prompt_replace (s ++ String c EmptyString) = s ++ String c EmptyString.
Proof.
intros N. induction s as [|d s IH].
- simpl. destruct (Ascii.eqb_spec c " "); [congruence | reflexivity].
- simpl append. destruct s as [|e s]; simpl in *; now rewrite IH.
Qed.

(** The four replacements of [result_replace], in their order. *)
Definition replaced (res : string) : string :=
  replace (replace (replace (replace res dot_quote quote_dot) "#" EmptyString)
                   "*" EmptyString)
          two_newlines one_newline.

Lemma result_replace_unfold cut text allow_action :
  result_replace cut text allow_action =
  match cut text allow_action with
  | EmptyString => Ok EmptyString
  | String first s =>
      if isupper first then Ok (replaced (String first s))
      else match replaced (String first s) with
           | EmptyString => Raise IndexError
           | String c rest => Ok (String (lower c) rest)
           end
  end.
Proof.
unfold result_replace, replaced.
destruct (cut text allow_action) as [|first s]; [reflexivity|].
destruct (isupper first); reflexivity.
Qed.

Lemma replaced_no_markup res :
  ~ In "#"%char (chars (replaced res)) /\ ~ In "*"%char (chars (replaced res)).
Proof.
unfold replaced. split; intros H.
- apply replace_chars in H; [|discriminate].
  destruct H as [H|H]; [|simpl in H; intuition discriminate].
  apply replace_chars in H; [|discriminate].
  destruct H as [H|H]; [|destruct H].
  now apply replace_char_removed in H.
- apply replace_chars in H; [|discriminate].
  destruct H as [H|H]; [|simpl in H; intuition discriminate].
  now apply replace_char_removed in H.
Qed.

Lemma isupper_not_replaced c :
  isupper c = true ->
  c <> "."%char /\ c <> "#"%char /\ c <> "*"%char /\ c <> newline.
Proof.
intros H. repeat split; intros ->; discriminate.
Qed.

Lemma replaced_keeps_upper c s :
  isupper c = true -> exists s', replaced (String c s) = String c s'.
Proof.
intros H. destruct (isupper_not_replaced c H) as (N1 & N2 & N3 & N4).
unfold replaced, dot_quote, two_newlines.
rewrite (replace_keeps_head c s "." _ _ N1).
rewrite (replace_keeps_head c _ "#" _ _ N2).
rewrite (replace_keeps_head c _ "*" _ _ N3).
rewrite (replace_keeps_head c _ newline _ _ N4).
eexists. reflexivity.
Qed.

Lemma lower_is_markup c :
  (lower c = "#"%char -> c = "#"%char) /\ (lower c = "*"%char -> c = "*"%char).
Proof.
destruct c as [[] [] [] [] [] [] [] []]; vm_compute;
  split; intros H; first [reflexivity | discriminate].
Qed.

Lemma replace_drops_head c s :
  replace (String c s) (String c EmptyString) EmptyString
  = replace s (String c EmptyString) EmptyString.
Proof.
unfold replace. rewrite replace_go_cons, prefix_cons, prefix_empty.
destruct (ascii_dec c c); [reflexivity | congruence].
Qed.

Lemma replaced_only_markup res :
  Forall (fun c => c = "#"%char \/ c = "*"%char) (chars res) ->
  replaced res = EmptyString.
Proof.
induction res as [|c res IH]; [reflexivity|].
intros H. inversion H as [|? ? Hc Hrest]; subst.
specialize (IH Hrest). unfold replaced, dot_quote in *.
destruct Hc as [->| ->].
- rewrite (replace_keeps_head "#" res "." _ _) by discriminate.
  rewrite replace_drops_head. exact IH.
- rewrite (replace_keeps_head "*" res "." _ _) by discriminate.
  rewrite (replace_keeps_head "*" _ "#" _ _) by discriminate.
  rewrite replace_drops_head. exact IH.
Qed.

(** *** A second pass of [result_replace] *)

Lemma result_replace_output_clean cut text allow_action r :
  result_replace cut text allow_action = Ok r ->
  find r "#" = (-1)%Z /\ find r "*" = (-1)%Z.
Proof.
intros H. rewrite result_replace_unfold in H.
destruct (cut text allow_action) as [|first s];
  [injection H as <-; split; reflexivity|].
destruct (replaced_no_markup (String first s)) as [Nh Ns].
destruct (isupper first).
- injection H as <-. split; now apply find_char_absent.
- destruct (replaced (String first s)) as [|c rest]; [discriminate|].
  injection H as <-.
  destruct (lower_is_markup c) as [Lh Ls].
  split; apply find_char_absent; intros [E|Hin].
  + apply Nh. left. now apply Lh.
  + apply Nh. now right.
  + apply Ns. left. now apply Ls.
  + apply Ns. now right.
Qed.

(** The first character of a result is an upper case letter, or a
    character that [lower] leaves as it is. *)
Lemma result_replace_output_head cut text allow_action c rest :
  result_replace cut text allow_action = Ok (String c rest) ->
  isupper c = true \/ lower c = c.
Proof.
intros H. rewrite result_replace_unfold in H.
destruct (cut text allow_action) as [|first s]; [discriminate|].
destruct (isupper first) eqn:Eu.
- destruct (replaced_keeps_upper first s Eu) as [s' E].
  rewrite E in H. injection H as <- _. now left.
- destruct (replaced (String first s)) as [|x rest']; [discriminate|].
  injection H as <- _. right. apply lower_lower.
Qed.

(** A text without anything to replace, whose first character is not
    changed either, is returned as it is. *)
Lemma result_replace_fixed cut allow_action r :
  cut r allow_action = r ->
  find r "#" = (-1)%Z -> find r "*" = (-1)%Z ->
  find r dot_quote = (-1)%Z -> find r two_newlines = (-1)%Z ->
  (forall c rest, r = String c rest -> isupper c = true \/ lower c = c) ->
  result_replace cut r allow_action = Ok r.
Proof.
intros Hcut Hh Hs Hdq Hnl Hhead. rewrite result_replace_unfold, Hcut.
destruct r as [|c rest] eqn:Er; [reflexivity|]. rewrite <- Er in *.
assert (E : replaced r = r).
{ unfold replaced.
  rewrite (replace_absent r dot_quote) by (auto; discriminate).
  rewrite (replace_absent r "#") by (auto; discriminate).
  rewrite (replace_absent r "*") by (auto; discriminate).
  now rewrite (replace_absent r two_newlines) by (auto; discriminate). }
rewrite E. destruct (isupper c) eqn:Eu; [reflexivity|].
rewrite Er. destruct (Hhead c rest Er) as [H|H]; [congruence|].
now rewrite H.
Qed.

(** A text that a pass of [result_replace] returns as it is holds
    neither a full stop before a double quote nor two newlines in a
    row: the first would have moved a double quote to the front, the
    second would have made the text shorter. *)
Lemma result_replace_fixed_inv cut allow_action r :
  cut r allow_action = r ->
  result_replace cut r allow_action = Ok r ->
  find r dot_quote = (-1)%Z /\ find r two_newlines = (-1)%Z.
Proof.
intros Hcut H. rewrite result_replace_unfold, Hcut in H.
destruct r as [|c rest] eqn:Er; [split; reflexivity|]. rewrite <- Er in *.
set (r1 := replace r dot_quote quote_dot) in *.
set (r2 := replace r1 "#" EmptyString) in *.
set (r3 := replace r2 "*" EmptyString) in *.
assert (Hrep : replaced r = replace r3 two_newlines one_newline) by reflexivity.
assert (Nq : "."%char <> dquote) by discriminate.
destruct (replace_swap "." dquote r Nq 0) as (L1 & P1 & F1).
fold dot_quote quote_dot r1 in L1, P1, F1.
destruct (replace_char_shorter "#" r1) as [L2 F2]. fold r2 in L2, F2.
destruct (replace_char_shorter "*" r2) as [L3 F3]. fold r3 in L3, F3.
destruct (replace_pair_shorter newline newline one_newline r3) as [L4 F4];
  [simpl; lia|].
fold two_newlines in L4, F4. rewrite <- Hrep in L4, F4.
assert (Hfinal : String.length (replaced r) = String.length r /\
                 places dquote 0 (replaced r) = places dquote 0 r).
{ destruct (isupper c).
  - injection H as H. rewrite H. auto.
  - destruct (replaced r) as [|x rest'] eqn:Ex; [discriminate|].
    injection H as H. rewrite <- H. simpl String.length. cbn [places].
    rewrite lower_dquote. auto. }
destruct Hfinal as [Hlen Hplaces].
assert (E2 : r2 = r1).
{ unfold r2. apply replace_absent; [discriminate|].
  apply find_char_absent, F2. lia. }
assert (E3 : r3 = r2).
{ unfold r3. apply replace_absent; [discriminate|].
  apply find_char_absent, F3. lia. }
assert (Hnl : find r3 two_newlines = (-1)%Z) by (apply F4; lia).
assert (E4 : replaced r = r1).
{ rewrite Hrep, replace_absent by (auto; discriminate). congruence. }
assert (Hdq : find r dot_quote = (-1)%Z).
{ apply F1. rewrite <- E4. exact Hplaces. }
split; [exact Hdq|].
assert (E1 : r1 = r) by (unfold r1; apply replace_absent; auto; discriminate).
rewrite <- E1, <- E2, <- E3. exact Hnl.
Qed.

(** *** Further facts about [generate_raw] *)

Lemma cut_at_stop_token_absent stop_token text :
  stop_token <> EmptyString ->
  find (cut_at_stop_token stop_token text) stop_token = (-1)%Z.
Proof.
intros Hne. unfold cut_at_stop_token.
destruct (find text stop_token =? -1)%Z eqn:E.
- apply Z.eqb_eq in E. exact E.
- apply Z.eqb_neq in E. unfold slice_to, find in *.
  destruct (find_from_range stop_token text 0%Z) as [H|H]; [congruence|].
  assert (Hpos : (find_from stop_token text 0 <? 0)%Z = false)
    by (apply Z.ltb_ge; lia).
  rewrite Hpos.
  apply (find_from_take stop_token Hne text 0%Z); lia.
Qed.

Lemma decode_row_no_stop_token decode stop_token stop_tokens o :
  stop_token <> EmptyString ->
  find (decode_row decode stop_token stop_tokens o) stop_token = (-1)%Z.
Proof.
intros Hne. unfold decode_row.
destruct stop_token as [|c stop] eqn:Es; [congruence|]. rewrite <- Es in *.
set (text := cut_at_stop_token stop_token (decode o)).
assert (Ht : find text stop_token = (-1)%Z)
  by now apply cut_at_stop_token_absent.
destruct stop_tokens as [stops|]; [|exact Ht].
clearbody text. revert text Ht.
induction stops as [|t stops IH]; intros text Ht; [exact Ht|].
simpl. apply IH. now apply cut_at_stop_token_absent.
Qed.

Lemma truncate_negative_raises (h : Truncate.heap) seqs max_len :
  (max_len < 0)%Z ->
  snd (Truncate.truncate_multiple_sequences h seqs max_len) = Raise IndexError.
Proof.
intros Hneg. revert h.
apply (Truncate.loop_induction seqs max_len
         (fun h => snd (Truncate.truncate_multiple_sequences h seqs max_len)
                   = Raise IndexError)).
intros h IH. rewrite Truncate.truncate_multiple_sequences_once.
destruct (Truncate.loop_body h seqs max_len) as [|e|h1] eqn:E.
- apply Truncate.loop_body_exit in E. lia.
- apply Truncate.loop_body_raised in E. destruct E as [-> _]. reflexivity.
- now apply IH.
Qed.

Lemma total_all_segments (h : Truncate.heap) :
  Truncate.total h (seq 0 (length h)) = length (concat h).
Proof.
unfold Truncate.total, Truncate.len, Truncate.deref.
induction h as [|x h IH]; [reflexivity|].
change (seq 0 (length (x :: h))) with (0 :: seq 1 (length h)).
rewrite <- seq_shift. cbn [map list_sum nth concat].
rewrite map_map, length_app. unfold list_sum in *. cbn [fold_right].
f_equal. exact IH.
Qed.

(** Without shared objects and with a budget that is not negative, the
    loop returns with segments that fit and are what is left of the
    segments it was given. *)
Lemma truncate_segments_fit (segs : list (list token)) max_len :
  (0 <= max_len)%Z ->
  exists kept,
    Truncate.truncate_segments segs max_len = (kept, Ok tt) /\
    length kept = length segs /\
    (Z.of_nat (length (concat kept)) <= max_len)%Z /\
    Forall2 Truncate.suffix_of kept segs.
Proof.
intros Hpos. unfold Truncate.truncate_segments.
set (seqs := seq 0 (length segs)).
assert (H : forall h,
  exists h', Truncate.truncate_multiple_sequences h seqs max_len = (h', Ok tt) /\
             length h' = length h /\
             (Z.of_nat (Truncate.total h' seqs) <= max_len)%Z /\
             forall r, Truncate.suffix_of (Truncate.deref h' r) (Truncate.deref h r)).
{ apply (Truncate.loop_induction seqs max_len). intros h IH.
  rewrite Truncate.truncate_multiple_sequences_once.
  destruct (Truncate.loop_body h seqs max_len) as [|e|h1] eqn:E.
  - exists h. apply Truncate.loop_body_exit in E. repeat split; auto.
    intros r. now exists [].
  - apply Truncate.loop_body_raised in E. lia.
  - destruct (IH h1 eq_refl) as (h2 & Hrun & Hlen & Hfit & Hsuf).
    apply Truncate.loop_body_next in E.
    pose proof (Truncate.shortens_suffix _ _ _ E) as Hstep.
    destruct E as (i & r0 & x & rest & _ & _ & _ & _ & ->).
    exists h2. repeat split; auto.
    + rewrite Hlen. apply set_nth_length.
    + intros r. eapply Truncate.suffix_of_trans; eauto. }
destruct (H segs) as (kept & Hrun & Hlen & Hfit & Hsuf).
exists kept. repeat split; auto.
- unfold seqs in Hfit. rewrite <- Hlen, total_all_segments in Hfit. exact Hfit.
- clear - Hlen Hsuf. revert segs Hlen Hsuf.
  induction kept as [|k kept IH]; intros [|s segs] Hlen Hsuf; try discriminate;
    constructor.
  + exact (Hsuf 0).
  + apply IH; [simpl in Hlen; lia|]. intros r. exact (Hsuf (S r)).
Qed.

(** *** What one call of [generate] logs *)

Lemma recursions_app l1 l2 :
  recursions (l1 ++ l2) = recursions l1 + recursions l2.
Proof. apply count_app. Qed.

(** The log of a call that returns holds no [TryingAgain]; it ends with
    [GaveUp] exactly when the call returns the empty string, which it does
    at depth 20 and beyond only.  The log of a call that calls itself
    holds one [TryingAgain] and no [GaveUp]. *)
Lemma generate_body_cases (world : Type) encode encode_tokens decode
      sample_sequence cut max_history_tokens stop_token prompt depth (w : world) :
  match generate_body world encode encode_tokens decode sample_sequence cut
          max_history_tokens stop_token prompt depth w with
  | (log, Return (Ok (r, _))) =>
      recursions log = 0 /\
      (r = EmptyString ->
       (20 <= depth)%Z /\ exists log', log = (log' ++ [GaveUp depth])%list) /\
      (r <> EmptyString -> forall d, ~ In (GaveUp d) log)
  | (log, Return (Raise _)) => recursions log = 0
  | (log, Recurse _ _) =>
      recursions log = 1 /\ (depth < 20)%Z /\ forall d, ~ In (GaveUp d) log
  end.
Proof.
unfold generate_body.
destruct (generate_raw _ _ _ _ _ _ _ _ _) as [[text w1]|e]; [|reflexivity].
destruct (result_replace cut text false) as [res|e]; [|reflexivity].
destruct ((depth >? 6)%Z && is_empty res);
  [destruct (result_replace cut text true) as [res'|e]; [|reflexivity];
   destruct res' as [|c res']
  |destruct res as [|c res]];
  simpl is_empty; cbv iota;
  try (destruct (depth <? 20)%Z eqn:E;
       [apply Z.ltb_lt in E | apply Z.ltb_ge in E]);
  repeat split; auto; try discriminate; try congruence;
  try (eexists; reflexivity);
  try (intros d H; simpl in H; intuition discriminate);
  try (intros _ d H; simpl in H; intuition discriminate).
Qed.

(** *** The prompts of a run of empty attempts *)

(** The number of second passes with [allow_action], by the log. *)
Definition relaxed_passes (log : list log_entry) : nat :=
  count (fun e => match e with FormatLess _ _ => true | _ => false end) log.

(** The prompts [generate] was called with, by the log. *)
Definition logged_prompts (log : list log_entry) : list (list string) :=
  flat_map (fun e => match e with BeforePromptReplace p => [p] | _ => [] end) log.

(** The markers of the depths 0 to 19. *)
Definition depth_markers : list string :=
  [" 0"; " 1"; " 2"; " 3"; " 4"; " 5"; " 6"; " 7"; " 8"; " 9";
   " 10"; " 11"; " 12"; " 13"; " 14"; " 15"; " 16"; " 17"; " 18"; " 19"].

(** The prompt of the attempt at depth [k]: the prompt of the first
    attempt after [k] passes of [prompt_replace], and the markers of the
    depths before [k]. *)
Definition attempt_prompt (prompt : list string) (k : nat) : list string :=
  (map (Nat.iter k prompt_replace) prompt ++ firstn k depth_markers)%list.

Lemma attempt_prompt_first prompt : attempt_prompt prompt 0 = prompt.
Proof.
unfold attempt_prompt. simpl. rewrite app_nil_r. apply map_id.
Qed.

Lemma retry_prompt_attempt prompt k :
  k < 20 ->
  retry_prompt (attempt_prompt prompt k) (Z.of_nat k) = attempt_prompt prompt (S k).
Proof.
intros Hk. unfold retry_prompt, attempt_prompt.
rewrite map_app, map_map, <- app_assoc. f_equal.
assert (E : map prompt_replace (firstn k depth_markers) = firstn k depth_markers).
{ rewrite <- firstn_map. reflexivity. }
rewrite E. clear E.
do 20 (destruct k as [|k]; [reflexivity|]). lia.
Qed.

Lemma logged_prompts_attempt prompt depth text :
  logged_prompts (empty_attempt_log prompt depth text) = [prompt].
Proof.
unfold empty_attempt_log.
destruct (depth >? 6)%Z, (depth <? 20)%Z; reflexivity.
Qed.

Lemma logged_prompts_attempts texts : forall prompt k,
  k + length texts <= 21 ->
  logged_prompts (empty_attempts_log (attempt_prompt prompt k) (Z.of_nat k) texts)
  = map (attempt_prompt prompt) (seq k (length texts)).
Proof.
induction texts as [|text texts IH]; intros prompt k Hk; [reflexivity|].
cbn [empty_attempts_log length seq map].
unfold logged_prompts at 1. rewrite flat_map_app.
fold (logged_prompts (empty_attempt_log (attempt_prompt prompt k) (Z.of_nat k) text)).
rewrite logged_prompts_attempt. cbn [app]. f_equal.
destruct texts as [|text' texts]; [reflexivity|].
simpl length in Hk.
rewrite retry_prompt_attempt by lia.
replace (Z.of_nat k + 1)%Z with (Z.of_nat (S k)) by lia.
apply IH. simpl length. lia.
Qed.

(** *** A sampler that is empty for a while *)

(** A sampler whose state counts its calls: it adds no token in its
    first 21 calls and the tokens of [You.] after that. *)
Definition counting_sampler
  : list token -> option (list token) -> nat -> result (list (list token) * nat) :=
  fun context _ calls =>
    Ok ([(context ++ (if (calls <? 21)%nat then [] else [2; 4]))%list], S calls).

Lemma counting_sampler_empty_attempts n : forall prompt depth calls,
  calls + n <= 21 ->
  empty_attempts nat stub_encode stub_encode_tokens example_decode
    counting_sampler cut_trailing_sentence 964 "<|endoftext|>"
    n prompt depth calls.
Proof.
induction n as [|n IH]; intros prompt depth calls Hc; [exact I|].
cbn [empty_attempts]. exists EmptyString, (S calls).
split; [|split; [reflexivity|split; [reflexivity|apply IH; lia]]].
unfold generate_raw.
rewrite truncate_segments_empty;
  [|lia|rewrite Forall_map, Forall_forall; reflexivity].
cbn [fst snd bind]. unfold counting_sampler.
assert (E : (calls <? 21)%nat = true) by (apply Nat.ltb_lt; lia).
rewrite E. cbn [fst snd bind].
replace (concat (map (fun p : string => stub_encode p 964)
                     (map prompt_replace prompt))) with (@nil token).
- reflexivity.
- induction (map prompt_replace prompt) as [|p ps IHp]; [reflexivity|exact IHp].
Qed.

(** *** The fields set by [__init__] *)

(** [self.max_history_tokens = 1024 - generate_num] *)
Definition max_history_tokens (generate_num : Z) : Z := 1024 - generate_num.

(** A tokenizer that encodes every character as token 3, and a sampler
    that adds the tokens 2, 0, 3 whatever the model would say. *)
Definition example_encode (p : string) (_ : Z) : list token :=
  repeat 3 (String.length p).

Definition example_sampler
  : list token -> option (list token) -> unit -> result (list (list token) * unit) :=
  fun context _ w => Ok ([(context ++ [2; 0; 3])%list], w).

End Generator.

(* ===================================================================== *)
(** ** The console game *)

(** The parts of [play.py] that work on text: reading a number, naming
    the file a prompt is saved to, and bringing the text of an action
    into the form that is passed to the story. *)
Module Play.
Import Text.
Local Open Scope string_scope.

(** *** [getNumberInput] *)

(** What is shown on the terminal: the prompt of a [colInput] and the
    text of a [colPrint]; colours and wrapping are left out. *)
Inductive event : Type :=
| Asked (prompt : string)
| Printed (text : string).

(** [input] at the end of the input, and [int] on a text that is not a
    number. *)
Inductive input_error : Type := EOFError | ValueError.

(** The value returned, with the lines that are still to be read, or the
    exception. *)
Inductive answer : Type :=
| Chosen (val : Z) (stdin : list string)
| Failed (e : input_error).

Definition number_prompt : string := "Enter a number from above (default 0):".

Section GetNumberInput.
(** [int] on a string; [None] stands for [ValueError]. *)
Variable int : string -> option Z.

(** [getNumberInput(n)], reading from the lines [stdin].  The limit of
    the interpreter on the depth of the recursion is left out. *)
Fixpoint getNumberInput (n : Z) (stdin : list string) : list event * answer :=
  match stdin with
  | [] => ([Asked number_prompt], Failed EOFError)
  | val :: stdin' =>
      match val with
      | EmptyString => ([Asked number_prompt], Chosen 0 stdin')
      | String _ _ =>
          match int val with
          | None => ([Asked number_prompt], Failed ValueError)
          | Some v =>
              if (0 >? v)%Z || (v >? n)%Z then
                let again := getNumberInput n stdin' in
                (Asked number_prompt :: Printed "Invalid choice." :: fst again,
                 snd again)
              else ([Asked number_prompt], Chosen v stdin')
          end
      end
  end.

(** A line that is answered with [Invalid choice.]: a number below 0 or
    above [n]. *)
Definition turned_down (n : Z) (val : string) : Prop :=
  val <> EmptyString /\ exists v, int val = Some v /\ (v < 0 \/ n < v)%Z.

(** The number of texts printed. *)
Definition complaints (events : list event) : nat :=
  count (fun e => match e with Printed _ => true | Asked _ => false end) events.

Lemma getNumberInput_chosen n stdin : forall events v rest,
  getNumberInput n stdin = (events, Chosen v rest) ->
  exists refused val,
    stdin = (refused ++ val :: rest)%list /\
    Forall (turned_down n) refused /\
    complaints events = length refused /\
    ((val = EmptyString /\ v = 0%Z) \/
     (val <> EmptyString /\ int val = Some v /\ (0 <= v <= n)%Z)).
Proof.
induction stdin as [|val stdin IH]; intros events v rest H; [discriminate|].
cbn [getNumberInput] in H. destruct val as [|c val'] eqn:Ev.
- injection H as <- <- <-. exists [], EmptyString. repeat split; auto.
- rewrite <- Ev in *.
  assert (Hne : val <> EmptyString) by (rewrite Ev; discriminate).
  destruct (int val) as [k|] eqn:Ek; [|discriminate].
  destruct ((0 >? k)%Z || (k >? n)%Z) eqn:Ec.
  + destruct (getNumberInput n stdin) as [ev ans] eqn:Eagain.
    cbn [fst snd] in H. injection H as <- ->.
    destruct (IH ev v rest eq_refl) as (refused & val0 & -> & Hall & Hc & Hval).
    exists (val :: refused), val0. repeat split; auto.
    * constructor; auto. split; auto. exists k. split; auto.
      apply orb_true_iff in Ec. rewrite !Z.gtb_lt in Ec. lia.
    * unfold complaints, count in *. simpl. now rewrite Hc.
  + injection H as <- <- <-. exists [], val. repeat split; auto.
    right. apply orb_false_iff in Ec. destruct Ec as [E1 E2].
    rewrite Z.gtb_ltb in E1, E2. apply Z.ltb_ge in E1, E2.
    repeat split; auto.
Qed.

Lemma getNumberInput_refused n refused : forall stdin,
  Forall (turned_down n) refused ->
  snd (getNumberInput n (refused ++ stdin)) = snd (getNumberInput n stdin) /\
  complaints (fst (getNumberInput n (refused ++ stdin)))
  = length refused + complaints (fst (getNumberInput n stdin)).
Proof.
induction refused as [|val refused IH]; intros stdin Hall; [auto|].
inversion Hall as [|? ? (Hne & k & Ek & Hk) Hrest]; subst.
destruct (IH stdin Hrest) as [IH1 IH2].
change ((val :: refused) ++ stdin)%list with (val :: (refused ++ stdin))%list.
cbn [getNumberInput].
destruct val as [|c val'] eqn:Ev; [congruence|]. rewrite <- Ev in *.
rewrite Ek.
assert (Ec : (0 >? k)%Z || (k >? n)%Z = true).
{ apply orb_true_iff. rewrite !Z.gtb_lt. lia. }
rewrite Ec. cbn [fst snd]. split; [exact IH1|].
unfold complaints, count in *. simpl. now rewrite IH2.
Qed.

End GetNumberInput.

(** A reader of decimal numbers to run examples with. *)
Definition decimal_int (val : string) : option Z :=
  option_map Z.of_int (NilEmpty.int_of_string val).

(** *** The name of the file a prompt is saved to *)

Definition in_range (lo hi : nat) (c : ascii) : bool :=
  ((lo <=? nat_of_ascii c) && (nat_of_ascii c <=? hi))%nat.

(** The characters of the class [[a-zA-Z0-9_-]]. *)
Definition name_char (c : ascii) : bool :=
  in_range 97 122 c || in_range 65 90 c || in_range 48 57 c ||
  Ascii.eqb c "_" || Ascii.eqb c "-".

(** [re.sub('[^a-zA-Z0-9_-]+', '-', s)]: every run of other characters
    becomes one [-]; [in_run] tells that the run has begun. *)
Fixpoint sub_other_runs (in_run : bool) (s : string) : string :=
  match s with
  | EmptyString => EmptyString
  | String c s' =>
      if name_char c then String c (sub_other_runs false s')
      else if in_run then sub_other_runs true s'
      else String "-" (sub_other_runs true s')
  end.

(** [re.sub('^-', '', s)] *)
Definition sub_leading_dash (s : string) : string :=
  match s with
  | EmptyString => EmptyString
  | String c s' => if Ascii.eqb c "-" then s' else s
  end.

(** [re.sub('-$', '', s)]; [$] is the end of the string and also the
    place before a newline that ends the string. *)
Fixpoint sub_trailing_dash (s : string) : string :=
  match s with
  | EmptyString => EmptyString
  | String c s' =>
      if Ascii.eqb c "-" &&
         (String.eqb s' EmptyString || String.eqb s' (String newline EmptyString))
      then s'
      else String c (sub_trailing_dash s')
  end.

(** The name without its ending, and the [filename] of line 107. *)
Definition stem (filename : string) : string :=
  sub_trailing_dash (sub_leading_dash (sub_other_runs false filename)).

Definition prompt_filename (filename : string) : string :=
  stem filename ++ ".txt".

(** [if filename != '']: whether the prompt is written to a file. *)
Definition saves (filename : string) : bool :=
  negb (String.eqb (prompt_filename filename) EmptyString).

Lemma sub_other_runs_chars s : forall in_run,
  Forall (fun c => name_char c = true) (chars (sub_other_runs in_run s)).
Proof.
induction s as [|c s IH]; intros in_run; [constructor|].
cbn [sub_other_runs]. destruct (name_char c) eqn:E.
- constructor; auto.
- destruct in_run; [apply IH|]. constructor; [reflexivity | apply IH].
Qed.

Lemma sub_leading_dash_chars (P : ascii -> Prop) s :
  Forall P (chars s) -> Forall P (chars (sub_leading_dash s)).
Proof.
destruct s as [|c s]; [auto|]. intros H. simpl.
destruct (Ascii.eqb c "-"); [now inversion H | exact H].
Qed.

Lemma sub_trailing_dash_chars (P : ascii -> Prop) s :
  Forall P (chars s) -> Forall P (chars (sub_trailing_dash s)).
Proof.
induction s as [|c s IH]; [auto|]. intros H.
inversion H as [|? ? Hc Hs]; subst. cbn [sub_trailing_dash].
destruct (Ascii.eqb c "-" && _); [exact Hs|].
constructor; auto.
Qed.

Lemma sub_other_runs_none s :
  Forall (fun c => name_char c = false) (chars s) ->
  sub_other_runs true s = EmptyString /\
  (sub_other_runs false s = EmptyString \/ sub_other_runs false s = "-").
Proof.
induction s as [|c s IH]; intros H; [auto|].
inversion H as [|? ? Hc Hs]; subst. destruct (IH Hs) as [IH1 _].
cbn [sub_other_runs]. rewrite Hc, IH1. auto.
Qed.

(** *** The text of an action *)

(** [c.isspace()] for the characters below 256. *)
Definition isspace (c : ascii) : bool :=
  let n := nat_of_ascii c in
  (((9 <=? n) && (n <=? 13)) || ((28 <=? n) && (n <=? 32)) ||
   (n =? 133) || (n =? 160))%nat.

Fixpoint lstrip (s : string) : string :=
  match s with
  | EmptyString => EmptyString
  | String c s' => if isspace c then lstrip s' else s
  end.

Fixpoint rstrip (s : string) : string :=
  match s with
  | EmptyString => EmptyString
  | String c s' =>
      match rstrip s' with
      | EmptyString => if isspace c then EmptyString else String c EmptyString
      | String _ _ as kept => String c kept
      end
  end.

(** [s.strip()] *)
Definition strip (s : string) : string := rstrip (lstrip s).

(** [sub in s] *)
Definition contains (sub s : string) : bool := negb (find s sub =? -1)%Z.

(** [s[-1]] *)
Fixpoint last_char (s : string) : result ascii :=
  match s with
  | EmptyString => Raise IndexError
  | String c EmptyString => Ok c
  | String _ s' => last_char s'
  end.

(** [c in [".", "?", "!"]] *)
Definition ends_sentence (c : ascii) : bool :=
  Ascii.eqb c "." || Ascii.eqb c "?" || Ascii.eqb c "!".

Section Action.
(** [first_to_second_person], imported from [story.utils]. *)
Variable first_to_second_person : string -> string.

(** The text that is passed to [story_manager.act] for an input that is
    none of the commands: the branch that ends the chain of [elif]s in
    the loop of [play]. *)
Definition format_action (action : string) : result string :=
  match action with
  | EmptyString => Ok EmptyString
  | String c _ =>
      if Ascii.eqb c dquote then Ok ("You say " ++ action)
      else
        let action := strip action in
        match action with
        | EmptyString => Raise IndexError
        | String c0 rest =>
            let action := String (lower c0) rest in
            let action :=
              if negb (contains "You" (take 6 action)) &&
                 negb (contains "I" (take 6 action))
              then "You " ++ action else action in
            let* l := last_char action in
            let action :=
              if negb (ends_sentence l) then action ++ "." else action in
            let action := first_to_second_person action in
            Ok (String newline "> " ++ action ++ String newline EmptyString)
        end
  end.
End Action.

Lemma lstrip_spaces s :
  Forall (fun c => isspace c = true) (chars s) -> lstrip s = EmptyString.
Proof.
induction s as [|c s IH]; intros H; [reflexivity|].
inversion H as [|? ? Hc Hs]; subst. simpl. rewrite Hc. auto.
Qed.

Lemma rstrip_head c s :
  rstrip (String c s) = EmptyString \/ exists s', rstrip (String c s) = String c s'.
Proof.
cbn [rstrip]. destruct (rstrip s).
- destruct (isspace c); eauto.
- eauto.
Qed.

(** The first character of a text is a space character or the first
    character of the stripped text. *)
Lemma strip_head c s c0 s0 :
  strip (String c s) = String c0 s0 -> isspace c = true \/ c = c0.
Proof.
unfold strip. cbn [lstrip]. destruct (isspace c) eqn:E; [auto|].
intros H. right.
destruct (rstrip_head c s) as [H0|[s' H1]]; congruence.
Qed.

Lemma last_char_append s c :
  last_char (s ++ String c EmptyString) = Ok c.
Proof.
induction s as [|d s IH]; [reflexivity|].
simpl append. destruct s; simpl in *; auto.
Qed.

Lemma last_char_cons c d s :
  last_char (String c (String d s)) = last_char (String d s).
Proof. reflexivity. Qed.

Lemma last_char_spec s l :
  last_char s = Ok l -> exists body, s = body ++ String l EmptyString.
Proof.
induction s as [|c s IH]; [discriminate|].
destruct s as [|d s].
- intros [= <-]. now exists EmptyString.
- rewrite last_char_cons. intros H. destruct (IH H) as [body E].
  exists (String c body). simpl. now rewrite <- E.
Qed.

Lemma last_char_nonempty c s : exists l, last_char (String c s) = Ok l.
Proof.
revert c. induction s as [|d s IH]; intros c; [now exists c|].
rewrite last_char_cons. apply IH.
Qed.

Lemma find_from_cons_other a sub c s i :
  a <> c ->
  find_from (String a sub) (String c s) i = find_from (String a sub) s (i + 1)%Z.
Proof.
intros N. rewrite find_from_cons, prefix_cons.
destruct (ascii_dec a c); [congruence | reflexivity].
Qed.

Lemma prefix_short sub : forall s,
  String.length s < String.length sub -> prefix sub s = false.
Proof.
induction sub as [|a sub IH]; intros s H; [simpl in H; lia|].
destruct s as [|c s]; [reflexivity|].
rewrite prefix_cons. destruct (ascii_dec a c); [|reflexivity].
apply IH. simpl in H. lia.
Qed.

(** A text that is shorter than [sub] does not contain it. *)
Lemma find_from_short sub s : forall i,
  String.length s < String.length sub -> find_from sub s i = (-1)%Z.
Proof.
induction s as [|c s IH]; intros i H.
- rewrite find_from_nil, prefix_short; auto.
- rewrite find_from_cons, prefix_short by exact H.
  apply IH. simpl in H. lia.
Qed.

Lemma take_length n : forall s, String.length (take n s) <= n.
Proof.
induction n as [|n IH]; intros [|c s]; simpl; try lia.
specialize (IH s). lia.
Qed.

(** After its first letter was put in lower case, a text that began with
    [You] and a space does not hold [You] among its first six
    characters. *)
Lemma no_You_after_lower rest :
  contains "You" (take 6 ("you " ++ rest)) = false.
Proof.
unfold contains, find.
change (take 6 ("you " ++ rest)) with ("you " ++ take 2 rest).
simpl append.
rewrite !find_from_cons_other by discriminate.
rewrite find_from_short; [reflexivity|].
apply Nat.lt_succ_r. exact (take_length 2 rest).
Qed.

Lemma no_I_after_lower rest :
  ~ In "I"%char (chars (take 2 rest)) ->
  contains "I" (take 6 ("you " ++ rest)) = false.
Proof.
intros H. unfold contains.
change (take 6 ("you " ++ rest)) with ("you " ++ take 2 rest).
rewrite find_char_absent; [reflexivity|].
simpl. intros [E|[E|[E|[E|Hin]]]]; try discriminate. now apply H.
Qed.

End Play.

(** * The properties *)
(* ===================================================================== *)

(** ** Context truncation *)

(** Three segments and a budget of 4: the first segment loses two tokens
    and the second one, in the order first, second, first. *)
Example truncate_three_segments :
  Truncate.truncate_segments [[1; 2; 3]; [4; 5; 6]; [7]] 4
  = ([[3]; [5; 6]; [7]], Ok tt).
Proof. reflexivity. Qed.

(** The same list object passed twice counts twice and is popped once
    per step. *)
Example truncate_shared_segment :
  Truncate.truncate_multiple_sequences [[1; 2; 3]] [0; 0] 3 = ([[3]], Ok tt).
Proof. reflexivity. Qed.

(** C4.  For every non-negative budget the loop of
    [truncate_multiple_sequences] ends and returns normally with the sum
    of the segment lengths within the budget.  It gets there by steps
    that each drop the first token of the longest segment, the first one
    among equally long segments; so every segment of the result is what
    is left of the same segment of the input after dropping tokens from
    its front, and the segments stay in their places. *)
Theorem truncate_multiple_sequences_fits :
  forall (h : Truncate.heap) (seqs : list Truncate.ref) (max_len : Z),
    (0 <= max_len)%Z ->
    exists h',
      Truncate.truncate_multiple_sequences h seqs max_len = (h', Ok tt) /\
      (Z.of_nat (Truncate.total h' seqs) <= max_len)%Z /\
      clos_refl_trans_1n _ (Truncate.shortens_first_longest seqs) h h' /\
      Forall2 Truncate.suffix_of
        (map (Truncate.deref h') seqs) (map (Truncate.deref h) seqs).
Proof.
  intros h seqs max_len Hpos. revert h.
  apply (Truncate.loop_induction seqs max_len). intros h IH.
  rewrite Truncate.truncate_multiple_sequences_once.
  destruct (Truncate.loop_body h seqs max_len) as [|e|h1] eqn:E.
  - exists h. repeat split.
    + now apply Truncate.loop_body_exit.
    + constructor.
    + clear. induction seqs; simpl; constructor; auto. now exists [].
  - apply Truncate.loop_body_raised in E. lia.
  - destruct (IH h1 eq_refl) as (h2 & Hrun & Hfit & Hsteps & Hsuf).
    pose proof (Truncate.loop_body_next _ _ _ _ E) as Hstep.
    exists h2. repeat split; auto.
    + econstructor; eauto.
    + eapply Truncate.Forall2_suffix_of_step; [exact Hsuf|].
      eapply Truncate.shortens_suffix; exact Hstep.
Qed.

Lemma truncate_multiple_sequences_fits_witness :
  exists h',
    Truncate.truncate_multiple_sequences
      [[1; 2; 3]; [4; 5; 6]; [7]] [0; 1; 2] 4 = (h', Ok tt) /\
    (Z.of_nat (Truncate.total h' [0; 1; 2]%nat) <= 4)%Z /\
    clos_refl_trans_1n _ (Truncate.shortens_first_longest [0; 1; 2])
      [[1; 2; 3]; [4; 5; 6]; [7]] h' /\
    Forall2 Truncate.suffix_of
      (map (Truncate.deref h') [0; 1; 2])
      (map (Truncate.deref [[1; 2; 3]; [4; 5; 6]; [7]]) [0; 1; 2]).
Proof.
  apply (truncate_multiple_sequences_fits [[1; 2; 3]; [4; 5; 6]; [7]] [0; 1; 2] 4).
  lia.
Defined.

(** C10.  With a negative budget the loop never exits normally: it pops
    until every segment is empty (at once when there is no segment) and
    then raises [IndexError], leaving the segments empty. *)
Theorem truncate_multiple_sequences_negative_budget :
  forall (h : Truncate.heap) (seqs : list Truncate.ref) (max_len : Z),
    (max_len < 0)%Z ->
    exists h',
      Truncate.truncate_multiple_sequences h seqs max_len = (h', Raise IndexError) /\
      (forall r, In r seqs -> Truncate.deref h' r = []) /\
      clos_refl_trans_1n _ (Truncate.shortens_first_longest seqs) h h'.
Proof.
  intros h seqs max_len Hneg. revert h.
  apply (Truncate.loop_induction seqs max_len). intros h IH.
  rewrite Truncate.truncate_multiple_sequences_once.
  destruct (Truncate.loop_body h seqs max_len) as [|e|h1] eqn:E.
  - apply Truncate.loop_body_exit in E. lia.
  - apply Truncate.loop_body_raised in E. destruct E as (-> & _ & Hempty).
    exists h. repeat split; auto. constructor.
  - destruct (IH h1 eq_refl) as (h2 & Hrun & Hempty & Hsteps).
    exists h2. repeat split; auto.
    econstructor; [|eassumption]. eapply Truncate.loop_body_next; eauto.
Qed.

Lemma truncate_multiple_sequences_negative_budget_witness :
  exists h',
    Truncate.truncate_multiple_sequences [[1; 2]; [3]] [0; 1] (-1) =
      (h', Raise IndexError) /\
    (forall r, In r [0; 1] -> Truncate.deref h' r = []) /\
    clos_refl_trans_1n _ (Truncate.shortens_first_longest [0; 1]) [[1; 2]; [3]] h'.
Proof.
  apply (truncate_multiple_sequences_negative_budget [[1; 2]; [3]] [0; 1] (-1)).
  lia.
Defined.

(** ** Filtering of the distribution *)

Example top_k_two_of_four :
  Filter.top_k_top_p_filtering Filter.pow2 Filter.stable_sort_desc
    [[Scores.Fin 1; Scores.Fin 3; Scores.Fin 2; Scores.Fin 0]] 2 0
  = Ok [[Scores.NegInf; Scores.Fin 3; Scores.Fin 2; Scores.NegInf]].
Proof. reflexivity. Qed.

(** The probabilities are 1/11, 4/11, 2/11 and 4/11; the two tokens of
    probability 4/11 together exceed 1/2. *)
Example top_p_half :
  Filter.top_k_top_p_filtering Filter.pow2 Filter.stable_sort_desc
    [[Scores.Fin 1; Scores.Fin 3; Scores.Fin 2; Scores.Fin 3]] 0 (1#2)
  = Ok [[Scores.NegInf; Scores.Fin 3; Scores.NegInf; Scores.Fin 3]].
Proof. reflexivity. Qed.

(** A threshold below the probability of the first token leaves that
    token. *)
Example top_p_tiny :
  Filter.top_k_top_p_filtering Filter.pow2 Filter.stable_sort_desc
    [[Scores.Fin 1; Scores.Fin 3; Scores.Fin 2; Scores.Fin 3]] 0 (1#100)
  = Ok [[Scores.NegInf; Scores.Fin 3; Scores.NegInf; Scores.NegInf]].
Proof. reflexivity. Qed.

(** C1, as the code has it.  With [top_k = k > 0] and top-p disabled, an
    entry of a vector of finite scores is set to [-inf] exactly when it is
    below the [min(k, vocabulary_size)]-th highest score, and is unchanged
    otherwise.  So every entry that stays scores higher than every entry
    that is removed, at least [min(k, vocabulary_size)] entries stay, and
    exactly that many when no two entries have the same score (entries
    that tie with the last of the top [k] all stay). *)
Theorem top_k_keeps_highest :
  forall (exp : Q -> Q) (sort_desc : Filter.row -> list nat)
         (logits : Filter.row) (k : Z),
    (0 < k)%Z ->
    Forall (fun x => Scores.is_fin x = true) logits ->
    exists out,
      Filter.top_k_top_p_filtering exp sort_desc [logits] k 0 = Ok [out] /\
      length out = length logits /\
      (forall i, i < length logits ->
         nth i out Scores.NegInf = nth i logits Scores.NegInf \/
         nth i out Scores.NegInf = Scores.NegInf) /\
      (forall i j, i < length logits -> j < length logits ->
         Scores.is_fin (nth i out Scores.NegInf) = true ->
         Scores.is_fin (nth j out Scores.NegInf) = false ->
         Scores.ltb (nth j logits Scores.NegInf) (nth i logits Scores.NegInf) = true) /\
      Nat.min (Z.to_nat k) (length logits) <= Filter.count_unmasked out /\
      (Filter.tie_free logits ->
       Filter.count_unmasked out = Nat.min (Z.to_nat k) (length logits)).
Proof.
  intros exp sort_desc logits k Hk Hfin.
  unfold Filter.top_k_top_p_filtering. simpl Filter.size_last.
  replace (Filter.Qgtb 0 0) with false by reflexivity.
  destruct logits as [|x0 l0] eqn:El.
  { exists []. change (Z.of_nat (length (@nil Scores.score))) with 0%Z.
    rewrite Z.min_r by lia. simpl.
    repeat split; intros; cbn in *; try lia. }
  rewrite <- El in *. assert (Hn : 1 <= length logits) by (rewrite El; simpl; lia).
  clear El x0 l0.
  assert (Hpos : (Z.min k (Z.of_nat (length logits)) >? 0)%Z = true).
  { apply Z.gtb_lt. lia. }
  rewrite Hpos.
  assert (Ek : Z.to_nat (Z.min k (Z.of_nat (length logits)))
               = Nat.min (Z.to_nat k) (length logits)) by lia.
  rewrite Ek. set (k' := Nat.min (Z.to_nat k) (length logits)).
  assert (Hk' : 1 <= k' <= length logits) by (unfold k'; lia).
  simpl map. unfold Filter.top_k_row.
  set (kth := last (Filter.topk_values logits k') Scores.NegInf).
  rewrite Filter.mask_map.
  set (g := fun x => if Scores.ltb x kth then Scores.NegInf else x).
  assert (Hg : forall i, nth i (map g logits) Scores.NegInf
                         = g (nth i logits Scores.NegInf)).
  { intros i. rewrite <- (map_nth g). f_equal. unfold g.
    now destruct (Scores.ltb Scores.NegInf kth). }
  assert (Hfin' : forall i, i < length logits ->
                            Scores.is_fin (nth i logits Scores.NegInf) = true).
  { intros i Hi. rewrite Forall_forall in Hfin. apply Hfin. now apply nth_In. }
  exists (map g logits). split; [reflexivity|]. split; [apply length_map|].
  split; [|split].
  - intros i Hi. rewrite Hg. unfold g. destruct (Scores.ltb _ kth); auto.
  - intros i j Hi Hj. rewrite !Hg. unfold g.
    destruct (Scores.ltb (nth i logits _) kth) eqn:Ei; [discriminate|].
    destruct (Scores.ltb (nth j logits _) kth) eqn:Ej.
    + intros _ _.
      destruct (Scores.ltb (nth j logits Scores.NegInf) (nth i logits Scores.NegInf)) eqn:E; auto.
      assert (Scores.leb (nth i logits Scores.NegInf) (nth j logits Scores.NegInf) = true)
        by (unfold Scores.leb; now rewrite E).
      rewrite (Scores.leb_ltb_trans _ _ _ H Ej) in Ei. discriminate.
    + intros _. rewrite (Hfin' j Hj). discriminate.
  - unfold Filter.count_unmasked. rewrite count_map.
    rewrite (count_ext_in _ (fun x => negb (Scores.ltb x kth))).
    + apply (Filter.top_k_row_counts logits k' Hk').
    + eapply Forall_impl; [|exact Hfin]. intros x Hx. unfold g.
      destruct (Scores.ltb x kth); auto.
Qed.

Lemma top_k_keeps_highest_witness :
  exists out,
    Filter.top_k_top_p_filtering (fun _ => 1%Q) Filter.stable_sort_desc
      [[Scores.Fin 1; Scores.Fin 3; Scores.Fin 2]] 2 0 = Ok [out] /\
    length out = 3 /\
    (forall i, i < 3 ->
       nth i out Scores.NegInf
         = nth i [Scores.Fin 1; Scores.Fin 3; Scores.Fin 2] Scores.NegInf \/
       nth i out Scores.NegInf = Scores.NegInf) /\
    (forall i j, i < 3 -> j < 3 ->
       Scores.is_fin (nth i out Scores.NegInf) = true ->
       Scores.is_fin (nth j out Scores.NegInf) = false ->
       Scores.ltb (nth j [Scores.Fin 1; Scores.Fin 3; Scores.Fin 2] Scores.NegInf)
                  (nth i [Scores.Fin 1; Scores.Fin 3; Scores.Fin 2] Scores.NegInf)
       = true) /\
    2 <= Filter.count_unmasked out /\
    (Filter.tie_free [Scores.Fin 1; Scores.Fin 3; Scores.Fin 2] ->
     Filter.count_unmasked out = 2).
Proof.
  apply (top_k_keeps_highest (fun _ => 1%Q) Filter.stable_sort_desc
           [Scores.Fin 1; Scores.Fin 3; Scores.Fin 2] 2).
  - lia.
  - repeat constructor.
Defined.

(** C1 as stated fails: two entries with the same score both stay when
    [top_k = 1]. *)
Lemma top_k_ties_counterexample :
  Filter.top_k_top_p_filtering (fun _ => 1%Q) Filter.stable_sort_desc
    [[Scores.Fin 1; Scores.Fin 1]] 1 0 = Ok [[Scores.Fin 1; Scores.Fin 1]] /\
  Filter.count_unmasked [Scores.Fin 1; Scores.Fin 1] <> Nat.min 1 2.
Proof.
  split; [reflexivity|]. vm_compute. discriminate.
Qed.

(** C2.  With [top_p = p] in (0,1) and top-k disabled, on a vector with at
    least one finite score: the tokens that stay are the first [m] tokens
    of the descending order, where the prefix of length [m] is the
    smallest one whose cumulative softmax probability exceeds [p] (the
    token that crosses the threshold is the last one kept); all other
    entries are set to [-inf].  So [m >= 1], the highest-scoring token
    stays selectable, and the probability mass of the removed tokens is
    below [1 - p]. *)
Theorem top_p_keeps_nucleus :
  forall (exp : Q -> Q) (sort_desc : Filter.row -> list nat)
         (logits : Filter.row) (p : Q),
    (forall q, (0 < exp q)%Q) ->
    Filter.sorts_descending sort_desc ->
    (0 < p)%Q -> (p < 1)%Q ->
    Exists (fun x => Scores.is_fin x = true) logits ->
    exists out m,
      Filter.top_k_top_p_filtering exp sort_desc [logits] 0 p = Ok [out] /\
      length out = length logits /\
      1 <= m <= length logits /\
      (forall j, j < length logits ->
         nth (nth j (sort_desc logits) 0) out Scores.NegInf
         = if j <? m then nth (nth j (sort_desc logits) 0) logits Scores.NegInf
           else Scores.NegInf) /\
      (p < sumQ (firstn m (Filter.sorted_probs exp sort_desc logits)))%Q /\
      (sumQ (firstn (m - 1) (Filter.sorted_probs exp sort_desc logits)) <= p)%Q /\
      (sumQ (skipn m (Filter.sorted_probs exp sort_desc logits)) < 1 - p)%Q /\
      (exists i, i < length logits /\
                 Scores.is_fin (nth i out Scores.NegInf) = true).
Proof.
  intros exp sort_desc logits p Hexp Hsort Hp0 Hp1 Hfin.
  destruct (Filter.top_p_row_nucleus exp sort_desc Hexp Hsort p logits Hp0 Hp1 Hfin)
    as (out & m & Hrun & Hlen & Hm & Hkept & Hgt & Hle & Hmass & Htop).
  exists out, m.
  unfold Filter.top_k_top_p_filtering.
  rewrite Z.min_l by lia. simpl.
  assert (Hq : Filter.Qgtb p 0 = true).
  { unfold Filter.Qgtb. apply negb_true_iff, not_true_iff_false.
    rewrite Qle_bool_iff. lra. }
  rewrite Hq, Hrun. simpl. repeat split; auto; try lia.
  exists (nth 0 (sort_desc logits) 0). split; auto.
  destruct (Hsort logits) as [Hperm _].
  assert (Hin : In (nth 0 (sort_desc logits) 0) (sort_desc logits)).
  { apply nth_In. rewrite (Permutation_length Hperm), length_seq. lia. }
  apply (Permutation_in _ Hperm) in Hin. apply in_seq in Hin. lia.
Qed.

Lemma top_p_keeps_nucleus_witness :
  exists out m,
    Filter.top_k_top_p_filtering Filter.pow2 Filter.stable_sort_desc
      [[Scores.Fin 1; Scores.Fin 3; Scores.Fin 2; Scores.Fin 3]] 0 (1#2) = Ok [out] /\
    length out = 4 /\
    1 <= m <= 4 /\
    (forall j, j < 4 ->
       nth (nth j [1; 3; 2; 0] 0) out Scores.NegInf
       = if j <? m
         then nth (nth j [1; 3; 2; 0] 0)
                  [Scores.Fin 1; Scores.Fin 3; Scores.Fin 2; Scores.Fin 3] Scores.NegInf
         else Scores.NegInf) /\
    ((1#2) < sumQ (firstn m [8#22; 8#22; 4#22; 2#22]))%Q /\
    (sumQ (firstn (m - 1) [8#22; 8#22; 4#22; 2#22]) <= (1#2))%Q /\
    (sumQ (skipn m [8#22; 8#22; 4#22; 2#22]) < 1 - (1#2))%Q /\
    (exists i, i < 4 /\ Scores.is_fin (nth i out Scores.NegInf) = true).
Proof.
  apply (top_p_keeps_nucleus Filter.pow2 Filter.stable_sort_desc
           [Scores.Fin 1; Scores.Fin 3; Scores.Fin 2; Scores.Fin 3] (1#2)).
  - exact Filter.pow2_pos.
  - exact Filter.stable_sort_desc_ok.
  - reflexivity.
  - reflexivity.
  - constructor. reflexivity.
Defined.

(** ** The repetition penalty *)

(** The penalty 2 on the sequence [2; 0; 2]: the scores of the tokens 0
    and 2 are halved, once each, and the score of token 1 stays. *)
Example repetition_penalty_halves :
  Sampler.repetition_penalty_row 2 [2; 0; 2]
    [Scores.Fin 3; Scores.Fin (-1); Scores.Fin 4]
  = Ok [Scores.Fin (3 # 2); Scores.Fin (-1); Scores.Fin (4 # 2)].
Proof. reflexivity. Qed.



(** ** The decode loop *)

(** Greedy selection with a stub that scores token 2 highest: ten times
    token 2 without stop tokens, and six times when token 2 is a stop
    token (the steps 0 to 4 do not stop). *)
Example sample_sequence_greedy :
  Sampler.sample_sequence unit (list Q) Sampler.example_model
    Sampler.draw_by_inversion Filter.pow2 Filter.stable_sort_desc
    0 0 (9#10) 1 None 10 [1; 3] 1 []
  = Ok ([[1; 3; 2; 2; 2; 2; 2; 2; 2; 2; 2; 2]], []).
Proof. reflexivity. Qed.

Example sample_sequence_greedy_stop :
  Sampler.sample_sequence unit (list Q) Sampler.example_model
    Sampler.draw_by_inversion Filter.pow2 Filter.stable_sort_desc
    0 0 (9#10) 1 (Some [2]) 10 [1; 3] 1 []
  = Ok ([[1; 3; 2; 2; 2; 2; 2; 2]], []).
Proof. reflexivity. Qed.

(** C3.  When [sample_sequence] returns, every row of the result is the
    context followed by the same number [n] of new tokens, with [n] at
    most [length].  No stop token that was selected (in the first row) at
    a step [j > 4] is followed by a further token, and the loop ends
    before [length] steps only by such a stop: then the last token of the
    first row is a stop token selected at a step beyond 4. *)
Theorem sample_sequence_bounded :
  forall (past rng : Type)
         (model : list (list token) -> option past -> result (list Filter.row * past))
         (multinomial : list Q -> rng -> token * rng)
         (exp : Q -> Q) (sort_desc : Filter.row -> list nat)
         (temperature : Q) (top_k : Z) (top_p repetition_penalty : Q)
         (stop_tokens : option (list token))
         (length : Z) (context : list token) (num_samples : nat) (g : rng)
         (generated : list (list token)) (g' : rng),
    Sampler.sample_sequence past rng model multinomial exp sort_desc temperature
      top_k top_p repetition_penalty stop_tokens length context num_samples g
    = Ok (generated, g') ->
    exists n,
      n <= Z.to_nat length /\
      List.length generated = num_samples /\
      Sampler.rows_extend_context context n generated /\
      Sampler.no_stop_before stop_tokens context (n - 1) generated /\
      (n = Z.to_nat length \/
       (1 <= n /\ Sampler.stopped_at stop_tokens context (n - 1) generated)).
Proof.
  intros past rng model multinomial exp sort_desc temperature top_k top_p
         repetition_penalty stop_tokens len context num_samples g generated g'.
  unfold Sampler.sample_sequence.
  destruct (Sampler.loop _ _ _ _ _ _ _ _ _ _ _ _ _) as [st'|e] eqn:Hrun;
    simpl; [|discriminate].
  intros [= <- <-].
  apply Sampler.loop_spec with (context := context) in Hrun.
  - destruct Hrun as (n & Hn & Hlen & Hshape & Hno & Hend).
    simpl in Hlen. rewrite repeat_length in Hlen.
    exists n. repeat split; auto; try lia.
  - simpl. unfold Sampler.rows_extend_context. rewrite Forall_forall.
    intros row Hrow. apply repeat_spec in Hrow. subst row.
    split; [apply firstn_all | lia].
  - intros stops row0 rest _ _ j _ Hj. lia.
Qed.

Lemma sample_sequence_bounded_witness :
  exists n,
    n <= Z.to_nat 10 /\
    List.length [[1; 3; 2; 2; 2; 2; 2; 2]] = 1 /\
    Sampler.rows_extend_context [1; 3] n [[1; 3; 2; 2; 2; 2; 2; 2]] /\
    Sampler.no_stop_before (Some [2]) [1; 3] (n - 1) [[1; 3; 2; 2; 2; 2; 2; 2]] /\
    (n = Z.to_nat 10 \/
     (1 <= n /\
      Sampler.stopped_at (Some [2]) [1; 3] (n - 1) [[1; 3; 2; 2; 2; 2; 2; 2]])).
Proof.
  apply (sample_sequence_bounded unit (list Q)
           (Sampler.fixed_scores_model
              [Scores.Fin 0; Scores.Fin 0; Scores.Fin 5; Scores.Fin 0; Scores.Fin 0])
           Sampler.draw_by_inversion Filter.pow2 Filter.stable_sort_desc
           0 0 (9#10) 1 (Some [2]) 10 [1; 3] 1 [] [[1; 3; 2; 2; 2; 2; 2; 2]] []).
  reflexivity.
Defined.

(** The scaling decides the draw: from the same state and the same
    number, the step at temperature [1/2] appends token 2 and the step at
    temperature 1 appends token 3; the scores [0; 1; 3; 2] are doubled
    by the temperature [1/2]. *)
Example step_depends_on_temperature :
  Sampler.step unit (list Q) Sampler.example_model Sampler.draw_by_inversion
    Filter.pow2 Filter.stable_sort_desc (1#2) 40 (9#10) 1 (Some [2]) 0
    Sampler.scaling_state
  = Ok (Sampler.scaling_state_after, false) /\
  (let* after :=
     Sampler.step unit (list Q) Sampler.example_model Sampler.draw_by_inversion
       Filter.pow2 Filter.stable_sort_desc 1 40 (9#10) 1 (Some [2]) 0
       Sampler.scaling_state in
   Ok (Sampler.generated _ _ (fst after)))
  = Ok [[1; 3; 3]] /\
  Sampler.scale (1#2) [[Scores.Fin 0; Scores.Fin 1; Scores.Fin 3; Scores.Fin 2]]
  = [[Scores.Fin 0; Scores.Fin 2; Scores.Fin 6; Scores.Fin 4]].
Proof. repeat split; reflexivity. Qed.

(** C8.  A step of the loop that succeeds went through these stages in
    this order: the scores of the model, scaled; the repetition penalty;
    the filter; the choice of one next token per row.  For a positive
    temperature the scaling divides every raw score by the temperature,
    and the token of a row is the one [torch.multinomial] draws from the
    softmax of the filtered row, which is a probability distribution that
    gives probability zero exactly to the masked entries.  For temperature
    zero the scores are not scaled, no randomness is consumed, and the
    token of a row is a position of the largest filtered score. *)
Theorem selection_by_temperature :
  forall (past rng : Type)
         (model : list (list token) -> option past -> result (list Filter.row * past))
         (multinomial : list Q -> rng -> token * rng)
         (exp : Q -> Q) (sort_desc : Filter.row -> list nat)
         (temperature : Q) (top_k : Z) (top_p repetition_penalty : Q)
         (stop_tokens : option (list token))
         (j : nat) (st st' : Sampler.state past rng) (brk : bool),
    (forall q, (0 < exp q)%Q) ->
    Sampler.step past rng model multinomial exp sort_desc temperature top_k top_p
                 repetition_penalty stop_tokens j st = Ok (st', brk) ->
    exists raw past' penalised filtered chosen,
      model (Sampler.next_token _ _ st) (Sampler.outputs_past _ _ st) = Ok (raw, past') /\
      Sampler.repetition_penalty_rows repetition_penalty (Sampler.generated _ _ st)
        (Sampler.scale temperature raw) = Ok penalised /\
      Filter.top_k_top_p_filtering exp sort_desc penalised top_k top_p = Ok filtered /\
      Sampler.chosen_by rng multinomial exp temperature filtered
        (Sampler.randomness _ _ st) chosen (Sampler.randomness _ _ st') /\
      Sampler.next_token _ _ st' = map (fun t => [t]) chosen /\
      ((0 < temperature)%Q ->
         Sampler.scale temperature raw
           = map (map (fun s => match s with
                                | Scores.NegInf => Scores.NegInf
                                | Scores.Fin q => Scores.Fin (q / temperature)
                                end)) raw /\
         forall row g tg,
           Sampler.select_row rng multinomial exp temperature row g = Ok tg ->
           tg = multinomial (Filter.softmax exp row) g /\
           length (Filter.softmax exp row) = length row /\
           Forall (fun x => 0 <= x)%Q (Filter.softmax exp row) /\
           (sumQ (Filter.softmax exp row) == 1)%Q /\
           (forall i, i < length row ->
              (nth i (Filter.softmax exp row) 0 == 0)%Q
              <-> nth i row Scores.NegInf = Scores.NegInf)) /\
      ((temperature == 0)%Q ->
         Sampler.scale temperature raw = raw /\
         forall row g t g',
           Sampler.select_row rng multinomial exp temperature row g = Ok (t, g') ->
           g' = g /\ t < length row /\
           (forall i, i < length row ->
              Scores.leb (nth i row Scores.NegInf) (nth t row Scores.NegInf) = true)).
Proof.
  intros past rng model multinomial exp sort_desc temperature top_k top_p
         repetition_penalty stop_tokens j st st' brk Hexp.
  unfold Sampler.step.
  destruct (model _ _) as [[raw past']|e]; simpl; [|discriminate].
  destruct (Sampler.repetition_penalty_rows _ _ _) as [pen|e] eqn:Epen;
    simpl; [|discriminate].
  destruct (Filter.top_k_top_p_filtering _ _ _ _ _) as [filtered|e] eqn:Efil;
    simpl; [|discriminate].
  destruct (Sampler.select_rows _ _ _ _ _ _) as [[chosen g1]|e] eqn:Esel;
    simpl; [|discriminate].
  destruct (Sampler.cat _ _) as [gen'|e]; simpl; [|discriminate].
  destruct (Sampler.stop_check _ _ _) as [stop|e]; simpl; [|discriminate].
  intros [= <- <-]. simpl.
  exists raw, past', pen, filtered, chosen.
  split; [reflexivity|]. split; [exact Epen|]. split; [exact Efil|].
  split; [now apply Sampler.select_rows_chosen|]. split; [reflexivity|].
  split.
  - intros Hpos. split.
    { rewrite Sampler.scale_positive by exact Hpos.
      apply map_ext. intros row. apply map_ext. intros [|q]; reflexivity. }
    intros row g tg Hsel.
    destruct (Sampler.select_row_sampled _ _ _ _ _ _ _ Hpos Hsel) as [Hfin ->].
    split; [reflexivity|].
    now apply Sampler.softmax_distribution.
  - intros Hzero. split; [now apply Sampler.scale_zero|].
    intros row g t g' Hsel.
    destruct (Sampler.select_row_greedy _ _ _ _ _ _ _ _ Hzero Hsel) as [-> Harg].
    split; [reflexivity|].
    destruct (Sampler.argmax_spec _ _ Harg) as (Ht & Hmax & _). auto.
Qed.

Lemma selection_by_temperature_witness :
  exists raw past' penalised filtered chosen,
    Sampler.example_model [[1; 3]] None = Ok (raw, past') /\
    Sampler.repetition_penalty_rows 1 [[1; 3]] (Sampler.scale (1#2) raw)
      = Ok penalised /\
    Filter.top_k_top_p_filtering Filter.pow2 Filter.stable_sort_desc
      penalised 40 (9#10) = Ok filtered /\
    Sampler.chosen_by (list Q) Sampler.draw_by_inversion Filter.pow2 (1#2)
      filtered [3#4; 1#3]%Q chosen [1#3]%Q /\
    [[2]] = map (fun t => [t]) chosen /\
    ((0 < 1#2)%Q ->
       Sampler.scale (1#2) raw
         = map (map (fun s => match s with
                              | Scores.NegInf => Scores.NegInf
                              | Scores.Fin q => Scores.Fin (q / (1#2))
                              end)) raw /\
       forall row g tg,
         Sampler.select_row (list Q) Sampler.draw_by_inversion Filter.pow2 (1#2) row g
           = Ok tg ->
         tg = Sampler.draw_by_inversion (Filter.softmax Filter.pow2 row) g /\
         length (Filter.softmax Filter.pow2 row) = length row /\
         Forall (fun x => 0 <= x)%Q (Filter.softmax Filter.pow2 row) /\
         (sumQ (Filter.softmax Filter.pow2 row) == 1)%Q /\
         (forall i, i < length row ->
            (nth i (Filter.softmax Filter.pow2 row) 0 == 0)%Q
            <-> nth i row Scores.NegInf = Scores.NegInf)) /\
    (((1#2) == 0)%Q ->
       Sampler.scale (1#2) raw = raw /\
       forall row g t g',
         Sampler.select_row (list Q) Sampler.draw_by_inversion Filter.pow2 (1#2) row g
           = Ok (t, g') ->
         g' = g /\ t < length row /\
         (forall i, i < length row ->
            Scores.leb (nth i row Scores.NegInf) (nth t row Scores.NegInf) = true)).
Proof.
  apply (selection_by_temperature unit (list Q) Sampler.example_model
           Sampler.draw_by_inversion Filter.pow2 Filter.stable_sort_desc
           (1#2) 40 (9#10) 1 (Some [2]) 0
           Sampler.scaling_state Sampler.scaling_state_after false).
  - exact Filter.pow2_pos.
  - reflexivity.
Defined.

(** ** The generator *)

(** [generate_raw] from end to end: two prompt segments, greedy
    selection, a stub that scores the token of [" look"] highest. *)
Example generate_raw_greedy :
  Generator.generate_raw (list Q)
    (fun _ _ => [2; 3]) Generator.example_decode
    (Generator.sample_sequence_method unit (list Q)
       (Sampler.fixed_scores_model
          [Scores.Fin 0; Scores.Fin 0; Scores.Fin 1; Scores.Fin 5])
       Sampler.draw_by_inversion Filter.pow2 Filter.stable_sort_desc
       3 0 40 (9#10) 1)
    964 "<|endoftext|>"
    ["The castle was dark."; "You enter the hall."]%string (Some [0; 1]) []
  = Ok (" look look look"%string, []).
Proof. reflexivity. Qed.

(** The sampler that counts its calls is not empty everywhere: at its
    call 22 it generates [You.]. *)
Example counting_sampler_later :
  Generator.generate_raw nat Generator.stub_encode Generator.example_decode
    Generator.counting_sampler 964 "<|endoftext|>"
    ["You enter the hall."%string] (Some [0; 1]) 21
  = Ok ("You."%string, 22).
Proof. reflexivity. Qed.

(** C5.  When each of the 21 attempts of a run of [generate] from depth
    0 generates a text whose post-processed form is empty (for the
    attempts beyond depth 6 also with [allow_action]), then [generate]
    returns the empty string and does not raise.  Its log is the log of
    21 calls at the depths 0 to 20 that found their result empty: each
    call but the last tries again, so [generate] calls itself exactly 20
    times; the 14 calls beyond depth 6 run the post-processing once more
    with [allow_action=True] before they decide; the call at depth 20
    gives up.  The call at depth [k] gets the prompt after [k] passes of
    [prompt_replace], followed by the markers [ 0], [ 1], ... of the
    depths before [k], a space and the depth in decimal digits.  Nothing
    is asked of the sampler beyond these 21 attempts. *)
Theorem generate_gives_up_after_20_retries :
  forall (world : Type)
         (encode : string -> Z -> list token)
         (encode_tokens : list string -> list token)
         (decode : list token -> string)
         (sample_sequence :
            list token -> option (list token) -> world ->
            result (list (list token) * world))
         (cut : string -> bool -> string)
         (max_history_tokens : Z) (stop_token : string)
         (prompt : list string) (w : world),
    Generator.empty_attempts world encode encode_tokens decode sample_sequence
      cut max_history_tokens stop_token 21 prompt 0 w ->
    exists texts w',
      length texts = 21 /\
      Generator.generate world encode encode_tokens decode sample_sequence cut
                         max_history_tokens stop_token prompt 0 w
      = (Generator.empty_attempts_log prompt 0 texts, Ok (EmptyString, w')) /\
      Generator.recursions (Generator.empty_attempts_log prompt 0 texts) = 20 /\
      Generator.relaxed_passes (Generator.empty_attempts_log prompt 0 texts) = 14 /\
      Generator.logged_prompts (Generator.empty_attempts_log prompt 0 texts)
      = map (fun k =>
               (map (Nat.iter k Generator.prompt_replace) prompt
                ++ firstn k
                     [" 0"; " 1"; " 2"; " 3"; " 4"; " 5"; " 6"; " 7"; " 8"; " 9";
                      " 10"; " 11"; " 12"; " 13"; " 14"; " 15"; " 16"; " 17";
                      " 18"; " 19"]%string)%list)
            (seq 0 21).
Proof.
  intros world encode encode_tokens decode sample_sequence cut
         max_history_tokens stop_token prompt w H.
  destruct (Generator.generate_empty world encode encode_tokens decode
              sample_sequence cut max_history_tokens stop_token 20 prompt 0%Z w)
    as (texts & w' & Hlen & Hrun); [reflexivity | exact H |].
  exists texts, w'. split; [exact Hlen|]. split; [exact Hrun|].
  assert (Hprompts :
    Generator.logged_prompts (Generator.empty_attempts_log prompt 0 texts)
    = map (Generator.attempt_prompt prompt) (seq 0 21)).
  { rewrite <- Hlen.
    rewrite <- (Generator.attempt_prompt_first prompt) at 1.
    apply (Generator.logged_prompts_attempts texts prompt 0). lia. }
  split; [|split; [|exact Hprompts]];
    (do 22 (destruct texts as [|? texts]; [simpl in Hlen; try lia|]);
     [reflexivity | simpl in Hlen; lia]).
Qed.

Lemma generate_gives_up_after_20_retries_witness :
  exists texts w',
    length texts = 21 /\
    Generator.generate nat Generator.stub_encode Generator.stub_encode_tokens
      Generator.example_decode Generator.counting_sampler
      Generator.cut_trailing_sentence
      964 "<|endoftext|>" ["The castle was dark. "; "You enter the hall."]%string 0 0
    = (Generator.empty_attempts_log
         ["The castle was dark. "; "You enter the hall."]%string 0 texts,
       Ok (EmptyString, w')) /\
    Generator.recursions
      (Generator.empty_attempts_log
         ["The castle was dark. "; "You enter the hall."]%string 0 texts) = 20 /\
    Generator.relaxed_passes
      (Generator.empty_attempts_log
         ["The castle was dark. "; "You enter the hall."]%string 0 texts) = 14 /\
    Generator.logged_prompts
      (Generator.empty_attempts_log
         ["The castle was dark. "; "You enter the hall."]%string 0 texts)
    = map (fun k =>
             (map (Nat.iter k Generator.prompt_replace)
                  ["The castle was dark. "; "You enter the hall."]%string
              ++ firstn k
                   [" 0"; " 1"; " 2"; " 3"; " 4"; " 5"; " 6"; " 7"; " 8"; " 9";
                    " 10"; " 11"; " 12"; " 13"; " 14"; " 15"; " 16"; " 17";
                    " 18"; " 19"]%string)%list)
          (seq 0 21).
Proof.
  apply (generate_gives_up_after_20_retries nat Generator.stub_encode
           Generator.stub_encode_tokens Generator.example_decode
           Generator.counting_sampler Generator.cut_trailing_sentence 964
           "<|endoftext|>"
           ["The castle was dark. "; "You enter the hall."]%string 0).
  apply Generator.counting_sampler_empty_attempts. lia.
Defined.

(** C6, on an input where the claim and the code part.  The decoded text
    holds the text form [>] of the second stop token; [decode_row], the
    body of the loop over the decoded rows in [generate_raw], looks for
    the end-of-text marker at every turn of its loop over the stop tokens
    and returns the text uncut, where the claim has it cut before [>]. *)
Theorem generate_raw_misses_stop_text :
  Generator.decode_row Generator.example_decode "<|endoftext|>"
    (Some [0; 1]) [2; 1; 3] = "You> look"%string /\
  Text.find "You> look" (Generator.example_decode [1]) = 3%Z /\
  Generator.cut_at_each_stop_text Generator.example_decode [0; 1]
    (Generator.example_decode [2; 1; 3]) = "You"%string.
Proof. repeat split; reflexivity. Qed.

(** C9, as the code has it.  Let [r] be what [result_replace] returns
    for a text, and let [cut_trailing_sentence] leave [r] as it is.
    Then applying [result_replace] twice gives what applying it once
    gives exactly when [r] holds neither a full stop followed by a
    double quote nor two newlines in a row.  The text itself may hold
    both, and markup as well; what counts is what one pass leaves. *)
Theorem result_replace_twice_same_as_once :
  forall (cut : string -> bool -> string) (allow_action : bool)
         (text r : string),
    Generator.result_replace cut text allow_action = Ok r ->
    cut r allow_action = r ->
    ((let* once := Generator.result_replace cut text allow_action in
      Generator.result_replace cut once allow_action)
     = Generator.result_replace cut text allow_action
     <-> (Text.find r Generator.dot_quote = (-1)%Z /\
          Text.find r Generator.two_newlines = (-1)%Z)).
Proof.
  intros cut allow text r Hrun Hcut. rewrite Hrun. cbn [bind]. split.
  - intros H. now apply (Generator.result_replace_fixed_inv cut allow r).
  - intros [Hdq Hnl].
    destruct (Generator.result_replace_output_clean cut text allow r Hrun)
      as [Hh Hs].
    apply Generator.result_replace_fixed; auto.
    intros c rest E. rewrite E in Hrun.
    now apply (Generator.result_replace_output_head cut text allow c rest).
Qed.

Lemma result_replace_twice_same_as_once_witness :
  (let* once := Generator.result_replace Generator.cut_trailing_sentence
                  ("# One." ++ String Text.newline (String Text.newline "*Two*. And"))
                  false in
   Generator.result_replace Generator.cut_trailing_sentence once false)
  = Generator.result_replace Generator.cut_trailing_sentence
      ("# One." ++ String Text.newline (String Text.newline "*Two*. And")) false
  <-> (Text.find (" One." ++ String Text.newline "Two.") Generator.dot_quote
       = (-1)%Z /\
       Text.find (" One." ++ String Text.newline "Two.") Generator.two_newlines
       = (-1)%Z).
Proof.
  apply (result_replace_twice_same_as_once Generator.cut_trailing_sentence false
           ("# One." ++ String Text.newline (String Text.newline "*Two*. And"))
           (" One." ++ String Text.newline "Two.")); reflexivity.
Defined.

(** C9 as stated fails: a string that ends a sentence and holds neither
    [#] nor [*], with three newlines in a row, keeps two of them after one
    pass of [result_replace] and one after the second pass. *)
Lemma result_replace_twice_counterexample :
  let s := ("One." ++ String Text.newline
              (String Text.newline (String Text.newline "Two.")))%string in
  let once := ("One." ++ String Text.newline (String Text.newline "Two."))%string in
  let twice := ("One." ++ String Text.newline "Two.")%string in
  Generator.cut_trailing_sentence s false = s /\
  Text.find s "#" = (-1)%Z /\ Text.find s "*" = (-1)%Z /\
  Generator.result_replace Generator.cut_trailing_sentence s false = Ok once /\
  Generator.result_replace Generator.cut_trailing_sentence once false = Ok twice /\
  once <> twice.
Proof.
  repeat split; try reflexivity. discriminate.
Qed.

(** The same with two full stops before a double quote: each pass moves
    the double quote one place to the front. *)
Example result_replace_twice_full_stops :
  Generator.result_replace Generator.cut_trailing_sentence
    (String "A" (String "." (String "." (String Text.dquote ".")))) false
  = Ok (String "A" (String "." (String Text.dquote (String "." ".")))) /\
  Generator.result_replace Generator.cut_trailing_sentence
    (String "A" (String "." (String Text.dquote (String "." ".")))) false
  = Ok (String "A" (String Text.dquote (String "." (String "." ".")))).
Proof. split; reflexivity. Qed.

(* ===================================================================== *)
(** * Further properties of the code *)
(* ===================================================================== *)

(** ** [top_k_top_p_filtering] *)

(** X1.  Whatever [top_k] and [top_p] are, the filter returns on a
    non-empty row, only sets entries to [-inf], and leaves an entry of
    the highest score as it is: it never masks the whole row. *)
Theorem filtering_keeps_a_best_entry :
  forall (exp : Q -> Q) (sort_desc : Filter.row -> list nat)
         (logits : Filter.row) (top_k : Z) (top_p : Q),
    Filter.sorts_descending sort_desc ->
    logits <> [] ->
    exists out best,
      Filter.top_k_top_p_filtering exp sort_desc [logits] top_k top_p = Ok [out] /\
      length out = length logits /\
      (forall i, i < length logits ->
         nth i out Scores.NegInf = nth i logits Scores.NegInf \/
         nth i out Scores.NegInf = Scores.NegInf) /\
      best < length logits /\
      nth best out Scores.NegInf = nth best logits Scores.NegInf /\
      (forall i, i < length logits ->
         Scores.leb (nth i logits Scores.NegInf) (nth best logits Scores.NegInf)
         = true).
Proof.
  intros exp sort_desc logits top_k top_p Hsort Hne.
  destruct (Filter.top_k_top_p_filtering_keeps_best exp sort_desc logits top_k top_p
              Hsort Hne) as (out & Hrun & Hlen & Hent & best & Hb & Hkeep & Hmax).
  exists out, best. repeat split; auto.
Qed.

Lemma filtering_keeps_a_best_entry_witness :
  exists out best,
    Filter.top_k_top_p_filtering Filter.pow2 Filter.stable_sort_desc
      [[Scores.Fin 1; Scores.Fin 3; Scores.Fin 2; Scores.Fin 3]] 1 (1#100)
    = Ok [out] /\
    length out = 4 /\
    (forall i, i < 4 ->
       nth i out Scores.NegInf
       = nth i [Scores.Fin 1; Scores.Fin 3; Scores.Fin 2; Scores.Fin 3] Scores.NegInf \/
       nth i out Scores.NegInf = Scores.NegInf) /\
    best < 4 /\
    nth best out Scores.NegInf
    = nth best [Scores.Fin 1; Scores.Fin 3; Scores.Fin 2; Scores.Fin 3] Scores.NegInf /\
    (forall i, i < 4 ->
       Scores.leb
         (nth i [Scores.Fin 1; Scores.Fin 3; Scores.Fin 2; Scores.Fin 3] Scores.NegInf)
         (nth best [Scores.Fin 1; Scores.Fin 3; Scores.Fin 2; Scores.Fin 3] Scores.NegInf)
       = true).
Proof.
  apply (filtering_keeps_a_best_entry Filter.pow2 Filter.stable_sort_desc
           [Scores.Fin 1; Scores.Fin 3; Scores.Fin 2; Scores.Fin 3] 1 (1#100)).
  - exact Filter.stable_sort_desc_ok.
  - discriminate.
Defined.

(** X2.  The filter changes nothing when top-p is off ([top_p <= 0]) and
    top-k is off ([top_k <= 0]) or asks for at least as many tokens as
    the vocabulary has. *)
Theorem filtering_off_is_identity :
  forall (exp : Q -> Q) (sort_desc : Filter.row -> list nat)
         (logits : Filter.row) (top_k : Z) (top_p : Q),
    (top_p <= 0)%Q ->
    (top_k <= 0 \/ Z.of_nat (length logits) <= top_k)%Z ->
    Filter.top_k_top_p_filtering exp sort_desc [logits] top_k top_p = Ok [logits].
Proof.
  intros exp sort_desc logits top_k top_p Hp Hk.
  unfold Filter.top_k_top_p_filtering. simpl Filter.size_last.
  rewrite (Filter.Qgtb_false _ _ Hp).
  destruct (Z.min top_k (Z.of_nat (length logits)) >? 0)%Z eqn:E; [|reflexivity].
  apply Z.gtb_lt in E.
  assert (Hmin : Z.to_nat (Z.min top_k (Z.of_nat (length logits))) = length logits)
    by lia.
  rewrite Hmin. simpl. rewrite Filter.top_k_row_all; [reflexivity|].
  intros ->. simpl in E. lia.
Qed.

Lemma filtering_off_is_identity_witness :
  Filter.top_k_top_p_filtering Filter.pow2 Filter.stable_sort_desc
    [[Scores.Fin 1; Scores.NegInf; Scores.Fin 2]] 40 0
  = Ok [[Scores.Fin 1; Scores.NegInf; Scores.Fin 2]].
Proof.
  apply (filtering_off_is_identity Filter.pow2 Filter.stable_sort_desc
           [Scores.Fin 1; Scores.NegInf; Scores.Fin 2] 40 0).
  - discriminate.
  - right. simpl. lia.
Defined.

(** X3.  On a row without entries the top-p step raises [IndexError],
    whatever [top_k] is: the assignment to position 0 of the shifted
    flags has no position to write. *)
Theorem filtering_empty_row_raises :
  forall (exp : Q -> Q) (sort_desc : Filter.row -> list nat) (top_k : Z) (top_p : Q),
    Filter.sorts_descending sort_desc ->
    (0 < top_p)%Q ->
    Filter.top_k_top_p_filtering exp sort_desc [[]] top_k top_p = Raise IndexError.
Proof.
  intros exp sort_desc top_k top_p Hsort Hp.
  unfold Filter.top_k_top_p_filtering. simpl Filter.size_last.
  assert (E : (Z.min top_k (Z.of_nat 0) >? 0)%Z = false).
  { rewrite Z.gtb_ltb. apply Z.ltb_ge. lia. }
  rewrite E, (Filter.Qgtb_true _ _ Hp). simpl.
  unfold Filter.top_p_row.
  destruct (Hsort []) as [Hperm _]. simpl in Hperm.
  apply Permutation_sym, Permutation_nil in Hperm. rewrite Hperm. reflexivity.
Qed.

Lemma filtering_empty_row_raises_witness :
  Filter.top_k_top_p_filtering Filter.pow2 Filter.stable_sort_desc [[]] 40 (9#10)
  = Raise IndexError.
Proof.
  apply (filtering_empty_row_raises Filter.pow2 Filter.stable_sort_desc 40 (9#10)).
  - exact Filter.stable_sort_desc_ok.
  - reflexivity.
Defined.

(** ** [sample_sequence] *)

(** X4.  Greedy selection is not changed by the filter: in a step with
    temperature 0 on a batch of one row, the token that is appended has
    the highest penalised score, whatever [top_k] and [top_p] are. *)
Theorem greedy_step_takes_highest_score :
  forall (past rng : Type)
         (model : list (list token) -> option past -> result (list Filter.row * past))
         (multinomial : list Q -> rng -> token * rng)
         (exp : Q -> Q) (sort_desc : Filter.row -> list nat)
         (temperature : Q) (top_k : Z) (top_p repetition_penalty : Q)
         (stop_tokens : option (list token))
         (j : nat) (st st' : Sampler.state past rng) (brk : bool)
         (row0 : list token),
    Filter.sorts_descending sort_desc ->
    (temperature == 0)%Q ->
    Sampler.generated _ _ st = [row0] ->
    Sampler.step past rng model multinomial exp sort_desc temperature top_k top_p
                 repetition_penalty stop_tokens j st = Ok (st', brk) ->
    exists raw past' penalised t,
      model (Sampler.next_token _ _ st) (Sampler.outputs_past _ _ st)
      = Ok ([raw], past') /\
      Sampler.repetition_penalty_row repetition_penalty row0 raw = Ok penalised /\
      Sampler.generated _ _ st' = [row0 ++ [t]] /\
      t < length penalised /\
      (forall i, i < length penalised ->
         Scores.leb (nth i penalised Scores.NegInf) (nth t penalised Scores.NegInf)
         = true).
Proof.
  intros past rng model multinomial exp sort_desc temperature top_k top_p
         repetition_penalty stop_tokens j st st' brk row0 Hsort Hzero Hgen.
  unfold Sampler.step. rewrite Hgen.
  destruct (model _ _) as [[raws past']|e]; simpl; [|discriminate].
  rewrite (Sampler.scale_zero _ _ Hzero).
  destruct raws as [|raw rs]; simpl; [discriminate|].
  destruct (Sampler.repetition_penalty_row _ _ _) as [pen|e] eqn:Epen;
    simpl; [|discriminate].
  destruct (Filter.top_k_top_p_filtering _ _ _ _ _) as [filtered|e] eqn:Efil;
    simpl; [|discriminate].
  destruct (Sampler.select_rows _ _ _ _ _ _) as [[chosen g1]|e] eqn:Esel;
    simpl; [|discriminate].
  (* one row in, one row out *)
  destruct chosen as [|t [|? ?]]; simpl; try discriminate.
  destruct (Sampler.stop_check _ _ _) as [stop|e]; simpl; [|discriminate].
  intros [= <- <-]. simpl.
  pose proof (Sampler.select_rows_length _ _ _ _ _ _ _ _ Esel) as Hsel.
  pose proof (Filter.top_k_top_p_filtering_length _ _ _ _ _ _ Efil) as Hfil.
  destruct filtered as [|f [|? ?]]; try discriminate.
  destruct rs as [|? ?]; [|simpl in Hfil; discriminate].
  simpl in Esel.
  destruct (Sampler.select_row _ _ _ _ f _) as [[t0 g0]|e] eqn:Erow;
    simpl in Esel; [|discriminate].
  injection Esel as -> ->.
  destruct (Sampler.select_row_greedy _ _ _ _ _ _ _ _ Hzero Erow) as [_ Harg].
  destruct (Sampler.argmax_spec _ _ Harg) as (Ht & Hmax & _).
  assert (Hne : pen <> []).
  { intros ->. unfold Filter.top_k_top_p_filtering in Efil.
    simpl Filter.size_last in Efil.
    assert (E : (Z.min top_k (Z.of_nat 0) >? 0)%Z = false).
    { rewrite Z.gtb_ltb. apply Z.ltb_ge. lia. }
    rewrite E in Efil. destruct (Filter.Qgtb top_p 0).
    - apply Filter.mapM_length in Efil as Hl.
      simpl in Efil. destruct (Filter.top_p_row _ _ _ _) as [o|e] eqn:Eo;
        simpl in Efil; [|discriminate].
      injection Efil as <-. unfold Filter.top_p_row in Eo.
      destruct (Hsort []) as [Hperm _]. simpl in Hperm.
      apply Permutation_sym, Permutation_nil in Hperm. rewrite Hperm in Eo.
      discriminate.
    - injection Efil as <-. simpl in Ht. lia. }
  destruct (Filter.top_k_top_p_filtering_keeps_best exp sort_desc pen top_k top_p
              Hsort Hne) as (f' & Hrun & Hflen & Hent & b & Hb & Hkeep & Hbest).
  pose proof (eq_trans (eq_sym Efil) Hrun) as Esame. injection Esame as ->.
  exists raw, past', pen, t. rewrite Hflen in *.
  repeat split; auto.
  intros i Hi.
  assert (Hge : Scores.leb (nth b pen Scores.NegInf) (nth t f' Scores.NegInf) = true).
  { rewrite <- Hkeep. apply Hmax. lia. }
  destruct (Hent t Ht) as [E|E].
  - rewrite <- E. eapply Scores.leb_trans; [apply Hbest; exact Hi | exact Hge].
  - rewrite E in Hge. apply Filter.leb_neginf in Hge.
    specialize (Hbest i Hi). rewrite Hge in Hbest.
    apply Filter.leb_neginf in Hbest. rewrite Hbest. apply Filter.neginf_leb.
Qed.

Lemma greedy_step_takes_highest_score_witness :
  exists raw past' penalised t,
    Sampler.example_model [[1; 3]] None = Ok ([raw], past') /\
    Sampler.repetition_penalty_row (12#10) [1; 3] raw = Ok penalised /\
    [[1; 3; 2]] = [[1; 3] ++ [t]] /\
    t < length penalised /\
    (forall i, i < length penalised ->
       Scores.leb (nth i penalised Scores.NegInf) (nth t penalised Scores.NegInf)
       = true).
Proof.
  apply (greedy_step_takes_highest_score unit (list Q) Sampler.example_model
           Sampler.draw_by_inversion Filter.pow2 Filter.stable_sort_desc
           0 2 (1#2) (12#10) None 0
           Sampler.example_state
           {| Sampler.generated := [[1; 3; 2]]; Sampler.next_token := [[2]];
              Sampler.outputs_past := Some tt;
              Sampler.randomness := [1#2; 1#3]%Q |}
           false [1; 3]).
  - exact Filter.stable_sort_desc_ok.
  - reflexivity.
  - reflexivity.
  - reflexivity.
Defined.

(** X5.  After a step that succeeds, the model's next input is the last
    token of every row of [generated], one token per row, and the cache
    that goes with it is the one the model has just returned. *)
Theorem step_feeds_last_token_and_cache :
  forall (past rng : Type)
         (model : list (list token) -> option past -> result (list Filter.row * past))
         (multinomial : list Q -> rng -> token * rng)
         (exp : Q -> Q) (sort_desc : Filter.row -> list nat)
         (temperature : Q) (top_k : Z) (top_p repetition_penalty : Q)
         (stop_tokens : option (list token))
         (j : nat) (st st' : Sampler.state past rng) (brk : bool),
    Sampler.step past rng model multinomial exp sort_desc temperature top_k top_p
                 repetition_penalty stop_tokens j st = Ok (st', brk) ->
    Sampler.next_token _ _ st'
    = map (fun row => [last row 0]) (Sampler.generated _ _ st') /\
    exists raw past',
      model (Sampler.next_token _ _ st) (Sampler.outputs_past _ _ st)
      = Ok (raw, past') /\
      Sampler.outputs_past _ _ st' = Some past'.
Proof.
  intros past rng model multinomial exp sort_desc temperature top_k top_p
         repetition_penalty stop_tokens j st st' brk.
  unfold Sampler.step.
  destruct (model _ _) as [[raw past']|e]; simpl; [|discriminate].
  destruct (Sampler.repetition_penalty_rows _ _ _) as [pen|e]; simpl; [|discriminate].
  destruct (Filter.top_k_top_p_filtering _ _ _ _ _) as [filtered|e];
    simpl; [|discriminate].
  destruct (Sampler.select_rows _ _ _ _ _ _) as [[chosen g1]|e];
    simpl; [|discriminate].
  destruct (Sampler.cat _ _) as [gen'|e] eqn:Ecat; simpl; [|discriminate].
  destruct (Sampler.stop_check _ _ _) as [stop|e]; simpl; [|discriminate].
  intros [= <- <-]. simpl. split.
  - symmetry. eapply Sampler.cat_last. exact Ecat.
  - exists raw, past'. auto.
Qed.

Lemma step_feeds_last_token_and_cache_witness :
  Sampler.next_token _ _ Sampler.example_state_after
  = map (fun row => [last row 0])
        (Sampler.generated _ _ Sampler.example_state_after) /\
  exists raw past',
    Sampler.example_model
      (Sampler.next_token _ _ Sampler.example_state)
      (Sampler.outputs_past _ _ Sampler.example_state) = Ok (raw, past') /\
    Sampler.outputs_past _ _ Sampler.example_state_after = Some past'.
Proof.
  apply (step_feeds_last_token_and_cache unit (list Q) Sampler.example_model
           Sampler.draw_by_inversion Filter.pow2 Filter.stable_sort_desc
           (4#10) 40 (9#10) 1 (Some [2]) 0
           Sampler.example_state Sampler.example_state_after false).
  reflexivity.
Defined.

(** X6.  With [length <= 0] the loop does not run: [sample_sequence]
    returns the context, once per sample, without a call of the model and
    without consuming randomness. *)
Theorem sample_sequence_no_steps :
  forall (past rng : Type)
         (model : list (list token) -> option past -> result (list Filter.row * past))
         (multinomial : list Q -> rng -> token * rng)
         (exp : Q -> Q) (sort_desc : Filter.row -> list nat)
         (temperature : Q) (top_k : Z) (top_p repetition_penalty : Q)
         (stop_tokens : option (list token))
         (length : Z) (context : list token) (num_samples : nat) (g : rng),
    (length <= 0)%Z ->
    Sampler.sample_sequence past rng model multinomial exp sort_desc temperature
      top_k top_p repetition_penalty stop_tokens length context num_samples g
    = Ok (repeat context num_samples, g).
Proof.
  intros. unfold Sampler.sample_sequence.
  replace (Z.to_nat length) with 0 by lia. reflexivity.
Qed.

Lemma sample_sequence_no_steps_witness :
  Sampler.sample_sequence unit (list Q) Sampler.example_model
    Sampler.draw_by_inversion Filter.pow2 Filter.stable_sort_desc
    (4#10) 40 (9#10) 1 (Some [2]) (-3) [1; 3] 2 [1#2]%Q
  = Ok (repeat [1; 3] 2, [1#2]%Q).
Proof.
  apply (sample_sequence_no_steps unit (list Q) Sampler.example_model
           Sampler.draw_by_inversion Filter.pow2 Filter.stable_sort_desc
           (4#10) 40 (9#10) 1 (Some [2]) (-3) [1; 3] 2 [1#2]%Q).
  lia.
Defined.

(** X7.  The first call of the model gets the whole context, once per
    sample, and no cache; when it raises, [sample_sequence] raises the
    same exception and returns nothing. *)
Theorem sample_sequence_model_failure :
  forall (past rng : Type)
         (model : list (list token) -> option past -> result (list Filter.row * past))
         (multinomial : list Q -> rng -> token * rng)
         (exp : Q -> Q) (sort_desc : Filter.row -> list nat)
         (temperature : Q) (top_k : Z) (top_p repetition_penalty : Q)
         (stop_tokens : option (list token))
         (length : Z) (context : list token) (num_samples : nat) (g : rng)
         (e : exn),
    (0 < length)%Z ->
    model (repeat context num_samples) None = Raise e ->
    Sampler.sample_sequence past rng model multinomial exp sort_desc temperature
      top_k top_p repetition_penalty stop_tokens length context num_samples g
    = Raise e.
Proof.
  intros past rng model multinomial exp sort_desc temperature top_k top_p
         repetition_penalty stop_tokens len context num_samples g e Hlen Hmodel.
  unfold Sampler.sample_sequence.
  destruct (Z.to_nat len) as [|n] eqn:E; [lia|].
  simpl. unfold Sampler.step at 1. simpl. rewrite Hmodel. reflexivity.
Qed.

Lemma sample_sequence_model_failure_witness :
  Sampler.sample_sequence unit (list Q) (fun _ _ => Raise RuntimeError)
    Sampler.draw_by_inversion Filter.pow2 Filter.stable_sort_desc
    (4#10) 40 (9#10) 1 (Some [2]) 10 [1; 3] 1 [1#2]%Q
  = Raise RuntimeError.
Proof.
  apply (sample_sequence_model_failure unit (list Q) (fun _ _ => Raise RuntimeError)
           Sampler.draw_by_inversion Filter.pow2 Filter.stable_sort_desc
           (4#10) 40 (9#10) 1 (Some [2]) 10 [1; 3] 1 [1#2]%Q RuntimeError).
  - lia.
  - reflexivity.
Defined.

(** X8.  A token of the generated sequence that is not an index of the
    score vector makes the repetition penalty raise [IndexError],
    whatever the penalty is. *)
Theorem repetition_penalty_outside_vocabulary :
  forall (penalty : Q) (generated : list token) (logits : Filter.row) (k : token),
    In k generated ->
    length logits <= k ->
    Sampler.repetition_penalty_row penalty generated logits = Raise IndexError.
Proof.
  intros penalty generated logits k Hin Hk.
  unfold Sampler.repetition_penalty_row.
  apply (Sampler.foldM_divide_at_outside penalty _ logits k); [|exact Hk].
  now apply nodup_In.
Qed.

Lemma repetition_penalty_outside_vocabulary_witness :
  Sampler.repetition_penalty_row 1 [0; 5; 1] [Scores.Fin 3; Scores.Fin 4]
  = Raise IndexError.
Proof.
  apply (repetition_penalty_outside_vocabulary 1 [0; 5; 1]
           [Scores.Fin 3; Scores.Fin 4] 5).
  - simpl. auto.
  - simpl. lia.
Defined.

(** ** [truncate_multiple_sequences] *)

(** X9.  When no list object is passed twice and the budget is not
    negative, the loop removes exactly as many tokens as are over the
    budget: the sum of the lengths afterwards is the smaller of the sum
    before and [max_len], and segments that fit already are not
    touched. *)
Theorem truncate_removes_only_the_excess :
  forall (h : Truncate.heap) (seqs : list Truncate.ref) (max_len : Z),
    (0 <= max_len)%Z ->
    NoDup seqs ->
    exists h',
      Truncate.truncate_multiple_sequences h seqs max_len = (h', Ok tt) /\
      Z.of_nat (Truncate.total h' seqs)
      = Z.min (Z.of_nat (Truncate.total h seqs)) max_len /\
      ((Z.of_nat (Truncate.total h seqs) <= max_len)%Z -> h' = h).
Proof.
  intros h seqs max_len Hpos Hnd. revert h.
  apply (Truncate.loop_induction seqs max_len). intros h IH.
  rewrite Truncate.truncate_multiple_sequences_once.
  destruct (Truncate.loop_body h seqs max_len) as [|e|h1] eqn:E.
  - exists h. apply Truncate.loop_body_exit in E. repeat split; auto. lia.
  - apply Truncate.loop_body_raised in E. lia.
  - destruct (IH h1 eq_refl) as (h2 & Hrun & Htotal & _).
    pose proof (Truncate.loop_body_next_over _ _ _ _ E) as Hover.
    apply Truncate.loop_body_next in E.
    destruct E as (i & r & x & rest & Hi & _ & _ & Ed & ->).
    pose proof (Truncate.total_pop_once h r rest x seqs Ed
                  (nth_error_In _ _ Hi) Hnd) as Hone.
    exists h2. repeat split; auto; lia.
Qed.

Lemma truncate_removes_only_the_excess_witness :
  exists h',
    Truncate.truncate_multiple_sequences [[1; 2; 3]; [4; 5; 6]; [7]] [0; 1; 2] 4
    = (h', Ok tt) /\
    Z.of_nat (Truncate.total h' [0; 1; 2]%nat)
    = Z.min (Z.of_nat (Truncate.total [[1; 2; 3]; [4; 5; 6]; [7]] [0; 1; 2])) 4 /\
    ((Z.of_nat (Truncate.total [[1; 2; 3]; [4; 5; 6]; [7]]%nat [0; 1; 2]%nat) <= 4)%Z ->
     h' = [[1; 2; 3]; [4; 5; 6]; [7]]).
Proof.
  apply (truncate_removes_only_the_excess [[1; 2; 3]; [4; 5; 6]; [7]] [0; 1; 2] 4).
  - lia.
  - repeat constructor; simpl; intuition discriminate.
Defined.

(** X10.  The truncation is even: whatever the budget, a segment that has
    lost a token ends at most one token shorter than any other segment,
    so a short segment is never cut while a longer one is spared. *)
Theorem truncate_cuts_evenly :
  forall (h : Truncate.heap) (seqs : list Truncate.ref) (max_len : Z)
         (r r' : Truncate.ref),
    In r seqs -> In r' seqs ->
    let h' := fst (Truncate.truncate_multiple_sequences h seqs max_len) in
    Truncate.len h' r < Truncate.len h r ->
    Truncate.len h' r' <= Truncate.len h' r + 1.
Proof.
  intros h seqs max_len r r' Hr Hr' h' Hshort.
  assert (Hinv : Truncate.shortened_are_longest seqs h h').
  { apply Truncate.truncate_keeps_shortened_longest.
    intros a b _ _ Hlt. lia. }
  now apply Hinv.
Qed.

Lemma truncate_cuts_evenly_witness :
  Truncate.len
    (fst (Truncate.truncate_multiple_sequences [[1; 2; 3; 4; 5]; [6; 7]; [8]]
            [0; 1; 2] 5)) 1
  <= Truncate.len
       (fst (Truncate.truncate_multiple_sequences [[1; 2; 3; 4; 5]; [6; 7]; [8]]
               [0; 1; 2] 5)) 0 + 1.
Proof.
  apply (truncate_cuts_evenly [[1; 2; 3; 4; 5]; [6; 7]; [8]] [0; 1; 2] 5 0 1).
  - simpl. auto.
  - simpl. auto.
  - vm_compute. lia.
Defined.

(** ** [prompt_replace] and [result_replace] *)

(** X11.  [prompt_replace] looks at the last character only: a prompt
    that ends in a space loses that one space, and every other prompt is
    returned as it is. *)
Theorem prompt_replace_last_character :
  forall (s : string) (c : ascii),
    Generator.prompt_replace EmptyString = EmptyString /\
    Generator.prompt_replace (s ++ String c EmptyString)
    = if Ascii.eqb c " " then s else (s ++ String c EmptyString)%string.
Proof.
  intros s c. split; [reflexivity|].
  destruct (Ascii.eqb_spec c " ") as [->|N].
  - apply Generator.prompt_replace_trailing_space.
  - now apply Generator.prompt_replace_other_end.
Qed.

(** X12.  Whatever [cut_trailing_sentence] does, a text that
    [result_replace] returns holds neither [#] nor [*]. *)
Theorem result_replace_removes_markup :
  forall (cut : string -> bool -> string) (text : string) (allow_action : bool)
         (r : string),
    Generator.result_replace cut text allow_action = Ok r ->
    Text.find r "#" = (-1)%Z /\ Text.find r "*" = (-1)%Z.
Proof.
  intros cut text allow r H. rewrite Generator.result_replace_unfold in H.
  destruct (cut text allow) as [|first s]; [injection H as <-; split; reflexivity|].
  destruct (Generator.replaced_no_markup (String first s)) as [Nh Ns].
  destruct (Text.isupper first).
  - injection H as <-. split; now apply Text.find_char_absent.
  - destruct (Generator.replaced (String first s)) as [|c rest]; [discriminate|].
    injection H as <-.
    destruct (Generator.lower_is_markup c) as [Lh Ls].
    split; apply Text.find_char_absent; intros [E|Hin].
    + apply Nh. left. now apply Lh.
    + apply Nh. now right.
    + apply Ns. left. now apply Ls.
    + apply Ns. now right.
Qed.

Lemma result_replace_removes_markup_witness :
  Text.find " The hall is dark." "#" = (-1)%Z /\
  Text.find " The hall is dark." "*" = (-1)%Z.
Proof.
  apply (result_replace_removes_markup Generator.cut_trailing_sentence
           "# The *hall* is dark. And" false " The hall is dark.").
  reflexivity.
Defined.

(** X13.  [result_replace] returns the empty string exactly when
    [cut_trailing_sentence] leaves nothing; when what it leaves is not
    empty but made of [#] and [*] only, the replacements empty it and
    [result[0]] raises [IndexError]. *)
Theorem result_replace_empty_or_fails :
  forall (cut : string -> bool -> string) (text : string) (allow_action : bool),
    (Generator.result_replace cut text allow_action = Ok EmptyString
     <-> cut text allow_action = EmptyString) /\
    (cut text allow_action <> EmptyString ->
     Forall (fun c => c = "#"%char \/ c = "*"%char)
            (Text.chars (cut text allow_action)) ->
     Generator.result_replace cut text allow_action = Raise IndexError).
Proof.
  intros cut text allow. rewrite Generator.result_replace_unfold.
  destruct (cut text allow) as [|first s] eqn:Ec.
  - split; [tauto | congruence].
  - split; [split; [|discriminate] |].
    + destruct (Text.isupper first) eqn:Eu.
      * destruct (Generator.replaced_keeps_upper first s Eu) as [s' ->].
        discriminate.
      * destruct (Generator.replaced (String first s)); discriminate.
    + intros _ Hall. rewrite (Generator.replaced_only_markup _ Hall).
      inversion Hall as [|? ? [->| ->] _]; reflexivity.
Qed.

Lemma result_replace_empty_or_fails_witness :
  Generator.result_replace (fun s _ => s) "**#" false = Raise IndexError.
Proof.
  apply (result_replace_empty_or_fails (fun s _ => s) "**#" false).
  - discriminate.
  - repeat (constructor; [first [left; reflexivity | right; reflexivity]|]).
    constructor.
Defined.

(** X14.  A text that begins with an upper case letter after
    [cut_trailing_sentence] never makes [result_replace] fail, and the
    result begins with that same letter: none of the replacements
    touches it and it is not put in lower case. *)
Theorem result_replace_keeps_capital :
  forall (cut : string -> bool -> string) (text : string) (allow_action : bool)
         (c : ascii) (s : string),
    cut text allow_action = String c s ->
    Text.isupper c = true ->
    exists rest,
      Generator.result_replace cut text allow_action = Ok (String c rest).
Proof.
  intros cut text allow c s Ec Eu.
  rewrite Generator.result_replace_unfold, Ec, Eu.
  destruct (Generator.replaced_keeps_upper c s Eu) as [rest E].
  exists rest. now rewrite E.
Qed.

Lemma result_replace_keeps_capital_witness :
  exists rest,
    Generator.result_replace Generator.cut_trailing_sentence
      "Hello, *you* there. And" false = Ok (String "H" rest).
Proof.
  apply (result_replace_keeps_capital Generator.cut_trailing_sentence
           "Hello, *you* there. And" false "H" "ello, *you* there.");
    reflexivity.
Defined.

(** ** [generate_raw] *)

(** X15.  With a stop text that is not empty, the text that
    [generate_raw] returns does not contain the stop text. *)
Theorem generate_raw_cuts_stop_text :
  forall (world : Type)
         (encode : string -> Z -> list token)
         (decode : list token -> string)
         (sample_sequence :
            list token -> option (list token) -> world ->
            result (list (list token) * world))
         (max_history_tokens : Z) (stop_token : string)
         (prompt : list string) (stop_tokens : option (list token))
         (w w' : world) (text : string),
    stop_token <> EmptyString ->
    Generator.generate_raw world encode decode sample_sequence
      max_history_tokens stop_token prompt stop_tokens w = Ok (text, w') ->
    Text.find text stop_token = (-1)%Z.
Proof.
  intros world encode decode sample_sequence max_history_tokens stop_token
         prompt stop_tokens w w' text Hne.
  unfold Generator.generate_raw.
  destruct (snd (Truncate.truncate_segments _ _)) as [[]|e]; simpl;
    [|discriminate].
  destruct (sample_sequence _ _ _) as [[rows w1]|e]; simpl; [|discriminate].
  destruct (rev _) as [|o rest]; [discriminate|].
  intros [= <- <-]. now apply Generator.decode_row_no_stop_token.
Qed.

Lemma generate_raw_cuts_stop_text_witness :
  Text.find "You" "<|endoftext|>" = (-1)%Z.
Proof.
  apply (generate_raw_cuts_stop_text unit Generator.example_encode
           Generator.example_decode Generator.example_sampler 964
           "<|endoftext|>" ["in"%string] (Some [0; 1]) tt tt "You").
  - discriminate.
  - vm_compute. reflexivity.
Defined.

(** X16.  A generator made with [generate_num] above 1024 has a negative
    [max_history_tokens]; [generate] then fails with [IndexError] in
    [truncate_multiple_sequences], for every prompt, at its first call
    and without running the model. *)
Theorem generate_fails_on_negative_history_budget :
  forall (world : Type)
         (encode : string -> Z -> list token)
         (encode_tokens : list string -> list token)
         (decode : list token -> string)
         (sample_sequence :
            list token -> option (list token) -> world ->
            result (list (list token) * world))
         (cut : string -> bool -> string)
         (generate_num : Z) (stop_token : string)
         (prompt : list string) (depth : Z) (w : world),
    (1024 < generate_num)%Z ->
    Generator.generate world encode encode_tokens decode sample_sequence cut
      (Generator.max_history_tokens generate_num) stop_token prompt depth w
    = ([Generator.BeforePromptReplace prompt], Raise IndexError).
Proof.
  intros world encode encode_tokens decode sample_sequence cut generate_num
         stop_token prompt depth w Hnum.
  rewrite Generator.generate_once.
  unfold Generator.generate_body, Generator.generate_raw,
    Truncate.truncate_segments.
  rewrite Generator.truncate_negative_raises; [reflexivity|].
  unfold Generator.max_history_tokens. lia.
Qed.

Lemma generate_fails_on_negative_history_budget_witness :
  Generator.generate unit Generator.example_encode Generator.stub_encode_tokens
    Generator.example_decode Generator.example_sampler
    Generator.cut_trailing_sentence (Generator.max_history_tokens 2000)
    "<|endoftext|>" ["You enter the hall."%string] 0 tt
  = ([Generator.BeforePromptReplace ["You enter the hall."%string]],
     Raise IndexError).
Proof.
  apply (generate_fails_on_negative_history_budget unit Generator.example_encode
           Generator.stub_encode_tokens Generator.example_decode
           Generator.example_sampler Generator.cut_trailing_sentence 2000
           "<|endoftext|>" ["You enter the hall."%string] 0 tt).
  lia.
Defined.

(** X17.  With a budget that is not negative, the context that
    [generate_raw] passes to the sampler is the concatenation of what is
    left of each encoded segment after tokens were dropped from its
    front, and it has at most [max_history_tokens] tokens; the rest of
    [generate_raw] works on that context. *)
Theorem generate_raw_context_within_budget :
  forall (world : Type)
         (encode : string -> Z -> list token)
         (decode : list token -> string)
         (sample_sequence :
            list token -> option (list token) -> world ->
            result (list (list token) * world))
         (max_history_tokens : Z) (stop_token : string)
         (prompt : list string) (stop_tokens : option (list token)) (w : world),
    (0 <= max_history_tokens)%Z ->
    exists kept,
      Forall2 Truncate.suffix_of kept
        (map (fun p => encode p max_history_tokens) prompt) /\
      (Z.of_nat (length (concat kept)) <= max_history_tokens)%Z /\
      Generator.generate_raw world encode decode sample_sequence
        max_history_tokens stop_token prompt stop_tokens w
      = (let* sampled := sample_sequence (concat kept) stop_tokens w in
         match rev (map (skipn (length (concat kept))) (fst sampled)) with
         | [] => Raise UnboundLocalError
         | o :: _ =>
             Ok (Generator.decode_row decode stop_token stop_tokens o, snd sampled)
         end).
Proof.
  intros world encode decode sample_sequence max_history_tokens stop_token
         prompt stop_tokens w Hpos.
  destruct (Generator.truncate_segments_fit
              (map (fun p => encode p max_history_tokens) prompt)
              max_history_tokens Hpos) as (kept & Hrun & _ & Hfit & Hsuf).
  exists kept. repeat split; auto.
  unfold Generator.generate_raw. rewrite Hrun. reflexivity.
Qed.

Lemma generate_raw_context_within_budget_witness :
  exists kept,
    Forall2 Truncate.suffix_of kept
      (map (fun p => Generator.example_encode p 4)
           ["The hall"; "is"; "dark."]%string) /\
    (Z.of_nat (length (concat kept)) <= 4)%Z /\
    Generator.generate_raw unit Generator.example_encode Generator.example_decode
      Generator.example_sampler 4 "<|endoftext|>"
      ["The hall"; "is"; "dark."]%string (Some [0; 1]) tt
    = (let* sampled := Generator.example_sampler (concat kept) (Some [0; 1]) tt in
       match rev (map (skipn (length (concat kept))) (fst sampled)) with
       | [] => Raise UnboundLocalError
       | o :: _ =>
           Ok (Generator.decode_row Generator.example_decode "<|endoftext|>"
                 (Some [0; 1]) o, snd sampled)
       end).
Proof.
  apply (generate_raw_context_within_budget unit Generator.example_encode
           Generator.example_decode Generator.example_sampler 4 "<|endoftext|>"
           ["The hall"; "is"; "dark."]%string (Some [0; 1]) tt).
  lia.
Defined.

(** ** [generate] *)

(** X18.  Whatever the tokenizer, the model and [cut_trailing_sentence]
    do, [generate] called at [depth] calls itself at most [20 - depth]
    times, so at most 20 times from depth 0. *)
Theorem generate_retries_bounded :
  forall (world : Type)
         (encode : string -> Z -> list token)
         (encode_tokens : list string -> list token)
         (decode : list token -> string)
         (sample_sequence :
            list token -> option (list token) -> world ->
            result (list (list token) * world))
         (cut : string -> bool -> string)
         (max_history_tokens : Z) (stop_token : string)
         (prompt : list string) (depth : Z) (w : world),
    (Z.of_nat
       (Generator.recursions
          (fst (Generator.generate world encode encode_tokens decode
                  sample_sequence cut max_history_tokens stop_token
                  prompt depth w)))
     <= Z.max 0 (20 - depth))%Z.
Proof.
  intros world encode encode_tokens decode sample_sequence cut
         max_history_tokens stop_token prompt depth w.
  remember (Generator.retries_left depth) as n eqn:En.
  revert prompt depth w En.
  induction n as [|n IH]; intros prompt depth w En;
    rewrite Generator.generate_once;
    pose proof (Generator.generate_body_cases world encode encode_tokens decode
                  sample_sequence cut max_history_tokens stop_token
                  prompt depth w) as Hbody;
    destruct (Generator.generate_body _ _ _ _ _ _ _ _ _ _ _)
      as [log [[[r w1]|e]|prompt' w1]];
    unfold Generator.retries_left in En; cbn [fst snd].
  - destruct Hbody as [-> _]. lia.
  - rewrite Hbody. lia.
  - destruct Hbody as (_ & Hd & _). lia.
  - destruct Hbody as [-> _]. lia.
  - rewrite Hbody. lia.
  - destruct Hbody as (Hone & Hd & _).
    rewrite Generator.recursions_app, Hone.
    specialize (IH prompt' (depth + 1)%Z w1).
    unfold Generator.retries_left in IH. lia.
Qed.

(** X19.  [generate] returns the empty string only after it gave up:
    then it has called itself as often as the depth allows and the last
    line of its log is the warning, written at a depth of 20 or more.  A
    result that is not empty comes with a log without that warning. *)
Theorem generate_empty_only_after_giving_up :
  forall (world : Type)
         (encode : string -> Z -> list token)
         (encode_tokens : list string -> list token)
         (decode : list token -> string)
         (sample_sequence :
            list token -> option (list token) -> world ->
            result (list (list token) * world))
         (cut : string -> bool -> string)
         (max_history_tokens : Z) (stop_token : string)
         (prompt : list string) (depth : Z) (w w' : world) (r : string),
    let run := Generator.generate world encode encode_tokens decode
                 sample_sequence cut max_history_tokens stop_token
                 prompt depth w in
    snd run = Ok (r, w') ->
    (r = EmptyString ->
     Generator.recursions (fst run) = Generator.retries_left depth /\
     exists log' d,
       fst run = (log' ++ [Generator.GaveUp d])%list /\ (20 <= d)%Z) /\
    (r <> EmptyString -> forall d, ~ In (Generator.GaveUp d) (fst run)).
Proof.
  intros world encode encode_tokens decode sample_sequence cut
         max_history_tokens stop_token prompt depth w w' r.
  cbv zeta.
  remember (Generator.retries_left depth) as n eqn:En.
  revert prompt depth w En.
  induction n as [|n IH]; intros prompt depth w En;
    rewrite Generator.generate_once;
    pose proof (Generator.generate_body_cases world encode encode_tokens decode
                  sample_sequence cut max_history_tokens stop_token
                  prompt depth w) as Hbody;
    destruct (Generator.generate_body _ _ _ _ _ _ _ _ _ _ _)
      as [log [[[r1 w1]|e]|prompt' w1]];
    unfold Generator.retries_left in En; cbn [fst snd];
    try discriminate.
  - intros [= -> ->]. destruct Hbody as (Hrec & Hempty & Hfull).
    split; [|exact Hfull].
    intros Hr. destruct (Hempty Hr) as (Hd & log' & ->).
    split; [rewrite Hrec; unfold Generator.retries_left; lia|].
    exists log', depth. auto.
  - destruct Hbody as (_ & Hd & _). lia.
  - intros [= -> ->]. destruct Hbody as (Hrec & Hempty & Hfull).
    split; [|exact Hfull].
    intros Hr. destruct (Hempty Hr) as (Hd & log' & ->). lia.
  - intros Hrun. destruct Hbody as (Hone & Hd & Hno).
    destruct (IH prompt' (depth + 1)%Z w1) as [Hempty Hfull];
      [unfold Generator.retries_left; lia | exact Hrun |].
    split.
    + intros Hr. destruct (Hempty Hr) as (Hrec & log' & d & Hlog & Hd20).
      split.
      * rewrite Generator.recursions_app, Hone, Hrec.
        unfold Generator.retries_left. lia.
      * exists (log ++ log')%list, d. split; [|exact Hd20].
        rewrite Hlog. now rewrite app_assoc.
    + intros Hr d Hin. apply in_app_or in Hin. destruct Hin as [Hin|Hin].
      * now apply (Hno d).
      * now apply (Hfull Hr d).
Qed.

Lemma generate_empty_only_after_giving_up_witness :
  (EmptyString = EmptyString ->
   Generator.recursions
     (fst (Generator.generate unit Generator.stub_encode
             Generator.stub_encode_tokens Generator.stub_decode
             Generator.stub_sampler Generator.cut_trailing_sentence 964
             "<|endoftext|>" ["You enter the hall."%string] 18 tt))
   = Generator.retries_left 18 /\
   exists log' d,
     fst (Generator.generate unit Generator.stub_encode
            Generator.stub_encode_tokens Generator.stub_decode
            Generator.stub_sampler Generator.cut_trailing_sentence 964
            "<|endoftext|>" ["You enter the hall."%string] 18 tt)
     = (log' ++ [Generator.GaveUp d])%list /\ (20 <= d)%Z) /\
  (EmptyString <> EmptyString ->
   forall d,
     ~ In (Generator.GaveUp d)
          (fst (Generator.generate unit Generator.stub_encode
                  Generator.stub_encode_tokens Generator.stub_decode
                  Generator.stub_sampler Generator.cut_trailing_sentence 964
                  "<|endoftext|>" ["You enter the hall."%string] 18 tt))).
Proof.
  apply (generate_empty_only_after_giving_up unit Generator.stub_encode
           Generator.stub_encode_tokens Generator.stub_decode
           Generator.stub_sampler Generator.cut_trailing_sentence 964
           "<|endoftext|>" ["You enter the hall."%string] 18 tt tt EmptyString).
  vm_compute. reflexivity.
Defined.

(** X20.  With the sampler wired as the class wires it and a
    [generate_num] that is not negative, a call of [generate_raw] that
    returns has run the model on a context of at most
    [1024 - generate_num] tokens and decoded the at most [generate_num]
    tokens that follow the context: the sequence never grows beyond 1024
    tokens. *)
Theorem generate_raw_stays_within_window :
  forall (past rng : Type)
         (encode : string -> Z -> list token)
         (decode : list token -> string)
         (model : list (list token) -> option past -> result (list Filter.row * past))
         (multinomial : list Q -> rng -> token * rng)
         (exp : Q -> Q) (sort_desc : Filter.row -> list nat)
         (generate_num : Z) (temp : Q) (top_k : Z) (top_p repetition_penalty : Q)
         (stop_token : string)
         (prompt : list string) (stop_tokens : option (list token))
         (g g' : rng) (text : string),
    (0 <= generate_num)%Z ->
    Generator.generate_raw rng encode decode
      (Generator.sample_sequence_method past rng model multinomial exp sort_desc
         generate_num temp top_k top_p repetition_penalty)
      (Generator.max_history_tokens generate_num) stop_token
      prompt stop_tokens g = Ok (text, g') ->
    exists context o,
      (Z.of_nat (length context) <= 1024 - generate_num)%Z /\
      (Z.of_nat (length o) <= generate_num)%Z /\
      (Z.of_nat (length (context ++ o)) <= 1024)%Z /\
      Sampler.sample_sequence past rng model multinomial exp sort_desc temp
        top_k top_p repetition_penalty stop_tokens generate_num context 1 g
      = Ok ([context ++ o], g') /\
      text = Generator.decode_row decode stop_token stop_tokens o.
Proof.
  intros past rng encode decode model multinomial exp sort_desc generate_num
         temp top_k top_p repetition_penalty stop_token prompt stop_tokens
         g g' text Hnum.
  unfold Generator.generate_raw.
  destruct (Z_lt_le_dec (Generator.max_history_tokens generate_num) 0)
    as [Hneg|Hpos].
  { unfold Truncate.truncate_segments.
    rewrite Generator.truncate_negative_raises by exact Hneg. discriminate. }
  destruct (Generator.truncate_segments_fit
              (map (fun p => encode p (Generator.max_history_tokens generate_num))
                   prompt)
              (Generator.max_history_tokens generate_num) Hpos)
    as (kept & Hrun & _ & Hfit & _).
  rewrite Hrun. cbn [fst snd bind].
  set (context := concat kept) in *.
  unfold Generator.sample_sequence_method.
  destruct (Sampler.sample_sequence _ _ _ _ _ _ _ _ _ _ _ _ _ _ _)
    as [[rows g1]|e] eqn:Es; cbn [fst snd bind]; [|discriminate].
  pose proof Es as Hsample.
  unfold Sampler.sample_sequence in Es.
  destruct (Sampler.loop _ _ _ _ _ _ _ _ _ _ _ _ _) as [st'|e] eqn:Hloop;
    simpl in Es; [|discriminate].
  injection Es as <- <-.
  apply Sampler.loop_spec with (context := context) in Hloop.
  - destruct Hloop as (n & Hn & Hlen & Hshape & _ & _).
    simpl in Hlen.
    destruct (Sampler.generated _ _ st') as [|row [|row' rows]];
      try discriminate.
    unfold Sampler.rows_extend_context in Hshape.
    inversion Hshape as [|? ? [Hfirst Hrow] _]; subst.
    cbn [map rev app].
    intros [= <- <-].
    exists context, (skipn (length context) row).
    assert (Hcat : (context ++ skipn (length context) row)%list = row).
    { rewrite <- Hfirst at 1. apply firstn_skipn. }
    rewrite Hcat. rewrite length_skipn.
    unfold Generator.max_history_tokens in *.
    repeat split; auto; try lia.
  - simpl. unfold Sampler.rows_extend_context. repeat constructor.
    + apply firstn_all.
    + lia.
  - intros stops row0 rest _ _ j _ Hj. lia.
Qed.

Lemma generate_raw_stays_within_window_witness :
  exists context o,
    (Z.of_nat (length context) <= 1024 - 3)%Z /\
    (Z.of_nat (length o) <= 3)%Z /\
    (Z.of_nat (length (context ++ o)) <= 1024)%Z /\
    Sampler.sample_sequence unit (list Q) Sampler.example_model
      Sampler.draw_by_inversion Filter.pow2 Filter.stable_sort_desc 0 0 (9#10) 1
      (Some [0; 1]) 3 context 1 []
    = Ok ([context ++ o], []) /\
    "YouYouYou"%string
    = Generator.decode_row Generator.example_decode "<|endoftext|>"
        (Some [0; 1]) o.
Proof.
  apply (generate_raw_stays_within_window unit (list Q) Generator.example_encode
           Generator.example_decode Sampler.example_model
           Sampler.draw_by_inversion Filter.pow2 Filter.stable_sort_desc
           3 0 0 (9#10) 1 "<|endoftext|>" ["in"%string] (Some [0; 1]) [] []
           "YouYouYou").
  - lia.
  - vm_compute. reflexivity.
Defined.

(** ** The console game *)

(** X21.  A number that [getNumberInput] returns is 0 or lies between 0
    and [n]: it is an index of a list of [n + 1] entries.  Before it,
    every line read was a number out of that range, and each of them
    was answered with one message. *)
Theorem getNumberInput_in_range :
  forall (int : string -> option Z) (n : Z) (stdin : list string)
         (events : list Play.event) (v : Z) (rest : list string),
    Play.getNumberInput int n stdin = (events, Play.Chosen v rest) ->
    (0 <= v <= Z.max 0 n)%Z /\
    exists refused val,
      stdin = (refused ++ val :: rest)%list /\
      Forall (Play.turned_down int n) refused /\
      Play.complaints events = length refused.
Proof.
  intros int n stdin events v rest H.
  destruct (Play.getNumberInput_chosen int n stdin events v rest H)
    as (refused & val & Hin & Hall & Hc & Hval).
  split; [|exists refused, val; auto].
  destruct Hval as [[_ ->]|(_ & _ & Hv)]; lia.
Qed.

Lemma getNumberInput_in_range_witness :
  (0 <= 2 <= Z.max 0 3)%Z /\
  exists refused val,
    ["7"; "-1"; "2"; "quit"]%string = (refused ++ val :: ["quit"%string])%list /\
    Forall (Play.turned_down Play.decimal_int 3) refused /\
    Play.complaints
      [Play.Asked Play.number_prompt; Play.Printed "Invalid choice.";
       Play.Asked Play.number_prompt; Play.Printed "Invalid choice.";
       Play.Asked Play.number_prompt] = length refused.
Proof.
  apply (getNumberInput_in_range Play.decimal_int 3
           ["7"; "-1"; "2"; "quit"]%string).
  reflexivity.
Defined.

(** X22.  [getNumberInput] asks again after a number that is out of
    range only: a line that is not empty and not a number ends it with
    [ValueError], and the end of the input with [EOFError]. *)
Theorem getNumberInput_fails :
  forall (int : string -> option Z) (n : Z) (refused : list string),
    Forall (Play.turned_down int n) refused ->
    snd (Play.getNumberInput int n refused) = Play.Failed Play.EOFError /\
    forall val rest,
      val <> EmptyString -> int val = None ->
      snd (Play.getNumberInput int n (refused ++ val :: rest))
      = Play.Failed Play.ValueError.
Proof.
  intros int n refused Hall. split.
  - destruct (Play.getNumberInput_refused int n refused [] Hall) as [H _].
    rewrite app_nil_r in H. exact H.
  - intros val rest Hne Hint.
    destruct (Play.getNumberInput_refused int n refused (val :: rest) Hall)
      as [H _].
    rewrite H. cbn [Play.getNumberInput].
    destruct val as [|c val']; [congruence|]. now rewrite Hint.
Qed.

Lemma getNumberInput_fails_witness :
  snd (Play.getNumberInput Play.decimal_int 3 ["7"; "-1"]%string)
  = Play.Failed Play.EOFError /\
  forall val rest,
    val <> EmptyString -> Play.decimal_int val = None ->
    snd (Play.getNumberInput Play.decimal_int 3
           (["7"; "-1"]%string ++ val :: rest))
    = Play.Failed Play.ValueError.
Proof.
  apply (getNumberInput_fails Play.decimal_int 3 ["7"; "-1"]%string).
  repeat constructor; try discriminate.
  - exists 7%Z. split; [reflexivity | lia].
  - exists (-1)%Z. split; [reflexivity | lia].
Defined.

(** X23.  The name of the file a custom prompt is saved to is made of
    letters, digits, [_] and [-] followed by [.txt], whatever was
    typed; it is never empty, so the test [filename != ''] always
    passes and the prompt is always written. *)
Theorem prompt_filename_is_plain :
  forall filename : string,
    exists stem,
      Play.prompt_filename filename = (stem ++ ".txt")%string /\
      Forall (fun c => Play.name_char c = true) (Text.chars stem) /\
      Play.saves filename = true.
Proof.
  intros filename. exists (Play.stem filename). split; [reflexivity|]. split.
  - unfold Play.stem. apply Play.sub_trailing_dash_chars.
    apply Play.sub_leading_dash_chars. apply Play.sub_other_runs_chars.
  - unfold Play.saves, Play.prompt_filename.
    destruct (Play.stem filename); reflexivity.
Qed.

(** X24.  An answer without any letter, digit, [_] or [-], the blank
    answer among them, gives the file name [.txt]: the prompt is saved
    under that name. *)
Theorem prompt_filename_blank :
  forall filename : string,
    Forall (fun c => Play.name_char c = false) (Text.chars filename) ->
    Play.prompt_filename filename = ".txt"%string /\
    Play.saves filename = true.
Proof.
  intros filename H.
  assert (E : Play.prompt_filename filename = ".txt"%string).
  { unfold Play.prompt_filename, Play.stem.
    destruct (Play.sub_other_runs_none filename H) as [_ [-> | ->]];
      reflexivity. }
  split; [exact E|]. unfold Play.saves. now rewrite E.
Qed.

Lemma prompt_filename_blank_witness :
  Play.prompt_filename " ?!" = ".txt"%string /\ Play.saves " ?!" = true.
Proof.
  apply (prompt_filename_blank " ?!").
  repeat constructor.
Defined.

(** X25.  An action that is not empty and made of space characters only
    is stripped to the empty string, and taking its first character
    raises [IndexError]. *)
Theorem format_action_blank_raises :
  forall (first_to_second_person : string -> string) (action : string),
    action <> EmptyString ->
    Forall (fun c => Play.isspace c = true) (Text.chars action) ->
    Play.format_action first_to_second_person action = Raise IndexError.
Proof.
  intros f action Hne Hall. unfold Play.format_action.
  destruct action as [|c s] eqn:E; [congruence|]. rewrite <- E in *.
  assert (Hc : Play.isspace c = true).
  { rewrite E in Hall. now inversion Hall. }
  assert (Hq : Ascii.eqb c Text.dquote = false).
  { destruct (Ascii.eqb_spec c Text.dquote) as [->|]; [discriminate | reflexivity]. }
  rewrite Hq. unfold Play.strip. now rewrite Play.lstrip_spaces.
Qed.

Lemma format_action_blank_raises_witness :
  Play.format_action (fun s => s) "  " = Raise IndexError.
Proof.
  apply (format_action_blank_raises (fun s => s) "  ").
  - discriminate.
  - repeat constructor.
Defined.

(** X26.  For an action that does not begin with a double quote, the
    text given to [first_to_second_person] ends in a full stop, a
    question mark or an exclamation mark, and the text passed on is its
    result between a line with the marker [>] and a newline. *)
Theorem format_action_ends_sentence :
  forall (first_to_second_person : string -> string) (action : string)
         (c : ascii) (s r : string),
    action = String c s -> c <> Text.dquote ->
    Play.format_action first_to_second_person action = Ok r ->
    exists body l,
      Play.ends_sentence l = true /\
      r = (String Text.newline "> "
           ++ first_to_second_person (body ++ String l EmptyString)
           ++ String Text.newline EmptyString)%string.
Proof.
  intros f action c s r -> Hq. unfold Play.format_action.
  destruct (Ascii.eqb_spec c Text.dquote) as [|_]; [congruence|].
  destruct (Play.strip (String c s)) as [|c0 rest]; [discriminate|].
  cbv zeta.
  match goal with |- context [Play.last_char ?a] => set (action := a) end.
  destruct (Play.last_char action) as [l|e] eqn:El; [|discriminate].
  cbn [bind]. intros [= <-].
  destruct (Play.ends_sentence l) eqn:Es; cbn [negb].
  - destruct (Play.last_char_spec action l El) as [body ->].
    exists body, l. auto.
  - exists action, "."%char. auto.
Qed.

Lemma format_action_ends_sentence_witness :
  exists body l,
    Play.ends_sentence l = true /\
    (String Text.newline "> You go north."
       ++ String Text.newline EmptyString)%string
    = (String Text.newline "> "
       ++ (fun s => s) (body ++ String l EmptyString)
       ++ String Text.newline EmptyString)%string.
Proof.
  apply (format_action_ends_sentence (fun s => s) " Go north " " " "Go north ");
    [reflexivity | discriminate | reflexivity].
Defined.

(** X27.  The test for [You] comes after the first letter was put in
    lower case, so it does not see a [You] that begins the action: an
    action that begins with [You] and a space, with no [I] right after,
    is given a second [You]. *)
Theorem format_action_doubles_You :
  forall (first_to_second_person : string -> string) (action rest : string),
    Play.strip action = ("You " ++ rest)%string ->
    ~ In "I"%char (Text.chars (Text.take 2 rest)) ->
    exists tail,
      (tail = rest \/ tail = (rest ++ ".")%string) /\
      Play.format_action first_to_second_person action
      = Ok (String Text.newline "> "
            ++ first_to_second_person ("You you " ++ tail)
            ++ String Text.newline EmptyString)%string.
Proof.
  intros f action rest Hstrip HI. unfold Play.format_action.
  destruct action as [|c s]; [discriminate|].
  assert (Hq : Ascii.eqb c Text.dquote = false).
  { destruct (Play.strip_head c s _ _ Hstrip) as [Hc| ->]; [|reflexivity].
    destruct (Ascii.eqb_spec c Text.dquote) as [->|]; [discriminate | reflexivity]. }
  rewrite Hq, Hstrip.
  change ("You " ++ rest)%string with (String "Y" ("ou " ++ rest))%string.
  cbv beta iota zeta.
  change (String (Text.lower "Y") ("ou " ++ rest))%string
    with ("you " ++ rest)%string.
  rewrite Play.no_You_after_lower, (Play.no_I_after_lower rest HI).
  cbn [negb andb].
  destruct (Play.last_char_nonempty "Y" ("ou " ++ ("you " ++ rest))) as [l El].
  change (String "Y" ("ou " ++ ("you " ++ rest)))%string
    with ("You " ++ ("you " ++ rest))%string in El.
  rewrite El. cbn [bind].
  destruct (Play.ends_sentence l); cbn [negb].
  - exists rest. auto.
  - exists (rest ++ ".")%string. auto.
Qed.

Lemma format_action_doubles_You_witness :
  exists tail,
    (tail = "look around"%string \/ tail = ("look around" ++ ".")%string) /\
    Play.format_action (fun s => s) "You look around"
    = Ok (String Text.newline "> "
          ++ (fun s => s) ("You you " ++ tail)
          ++ String Text.newline EmptyString)%string.
Proof.
  apply (format_action_doubles_You (fun s => s) "You look around" "look around").
  - reflexivity.
  - simpl. intros [E|[E|[]]]; discriminate.
Defined.
